(** * FIFA-EPV-Analyzer: pitch control, possession value, pass ranking,
      action likelihood and formation lines

    A shallow embedding of the analytical core of the repository
    (src/utils/pitchControl.js, epvModel.js, passEvaluator.js,
    ballDriveModel.js, actionModel.js, defensiveLines.js).

    Numbers.  The JavaScript code computes on IEEE doubles.  The functions
    that need [Math.sqrt] and [Math.exp] are embedded over the real numbers
    [R] (so rounding, NaN and the infinities are outside the model; the
    places where the source starts a running minimum at [Infinity] use
    [option R] with [None] for [Infinity]).  The clustering code of
    defensiveLines.js only adds, divides and compares, and is embedded over
    the rationals [Q], where it runs.

    Snapshots.  A game state is a validated snapshot: both player arrays, the
    ball and the attack direction are present. *)

From Stdlib Require Import QArith Qabs Qminmax Lqa.
From Stdlib Require Import Reals Lra Lia List ZArith Bool String Sorted Permutation.
Import ListNotations.

(* ------------------------------------------------------------------ *)
(** * JavaScript idioms shared by the modules *)

Module Js.
Local Open Scope R_scope.

(** [v || d] on an optional number: [undefined] and [0] are falsy. *)
Definition or_else (v : option R) (d : R) : R :=
  match v with
  | Some r => if Req_dec_T r 0 then d else r
  | None => d
  end.

(** [a < b] where [b] is a running minimum that starts at [Infinity]. *)
Definition lt_inf (a : R) (b : option R) : bool :=
  match b with
  | None => true
  | Some r => if Rlt_dec a r then true else false
  end.

(** Own-property lookup in an object literal with string keys. *)
Fixpoint lookup {A} (tbl : list (string * A)) (k : string) : option A :=
  match tbl with
  | [] => None
  | (k', v) :: rest => if String.eqb k k' then Some v else lookup rest k
  end.

(** [Math.pow(a, 2)] *)
Definition pow2 (a : R) : R := a * a.

(** [Array.prototype.sort(cmp)]: the sort is stable, and with a comparator
    [cmp a b] whose sign orders the elements it yields the stable insertion
    order below ([a] stays before [b] unless [cmp a b > 0]). *)
Fixpoint insert {A} (cmp : A -> A -> R) (a : A) (l : list A) : list A :=
  match l with
  | [] => [a]
  | b :: l' => if Rlt_dec 0 (cmp a b) then b :: insert cmp a l' else a :: l
  end.

Fixpoint sort {A} (cmp : A -> A -> R) (l : list A) : list A :=
  match l with
  | [] => []
  | a :: l' => insert cmp a (sort cmp l')
  end.

(** Error-free sequencing of computations that may fail to give a number. *)
Definition bind {A B} (m : option A) (f : A -> option B) : option B :=
  match m with Some a => f a | None => None end.

Fixpoint mapM {A B} (f : A -> option B) (l : list A) : option (list B) :=
  match l with
  | [] => Some []
  | a :: l' => bind (f a) (fun b => bind (mapM f l') (fun bs => Some (b :: bs)))
  end.

End Js.

(* ------------------------------------------------------------------ *)
(** * The data model *)

Local Open Scope R_scope.

(** A player object.  [position] may be missing; the velocity is absent
    until the loader derives it, and then both components are set
    ([deriveVelocities]). *)
Record Player := mkPlayer {
  id : option string;
  jerseyNum : option string;
  name : option string;
  position : option string;
  x : R;
  y : R;
  velocity : option (R * R)
}.

Definition vx (p : Player) : option R := option_map fst (velocity p).
Definition vy (p : Player) : option R := option_map snd (velocity p).

(** A bare position [{x, y}] (the ball, an interception point). *)
Record Point := mkPoint { px : R; py : R }.

Record GameState := mkGameState {
  teamPlayers : list Player;
  opponentPlayers : list Player;
  ball : Point;
  attackingRight : bool
}.

(** A grid surface as returned by [generatePitchControlSurface]. *)
Record Surface := mkSurface {
  grid : list (list R);
  gridWidth : Z;
  gridHeight : Z;
  resolution : R;
  pitchLength : R;
  pitchWidth : R
}.

(** The optional [options] argument of the surface generators. *)
Record GridOptions := mkGridOptions {
  optPitchLength : option R;
  optPitchWidth : option R;
  optResolution : option R
}.

Definition noOptions : GridOptions := mkGridOptions None None None.

(** Sample data: a player with an identifier, standing still at a spot. *)
Definition playerAt (i : string) (px py : R) : Player :=
  mkPlayer (Some i) None None None px py None.
Definition centreCarrier : Player := playerAt "c" 0 0.
Definition unopposedPitchState : GameState :=
  mkGameState [centreCarrier] [] (mkPoint 0 0) true.

(** A destructuring default [{ k = d } = options]: only [undefined] takes
    the default. *)
Definition default (v : option R) (d : R) : R :=
  match v with Some r => r | None => d end.

(* ------------------------------------------------------------------ *)
(** * pitchControl.js *)

Module PitchControl.

Definition PLAYER_MAX_SPEED : R := 5.5.
Definition PLAYER_ACCELERATION : R := 3.5.
Definition REACTION_TIME : R := 0.7.
Definition BALL_SPEED : R := 15.

Definition POSITION_SPEED_FACTORS : list (string * R) :=
  [ ("GK", 0.85); ("CB", 0.90); ("LCB", 0.90); ("RCB", 0.90);
    ("LB", 0.95); ("RB", 0.95); ("CM", 0.92); ("CDM", 0.90);
    ("CAM", 0.93); ("AM", 0.93); ("LM", 0.98); ("RM", 0.98);
    ("LW", 1.0); ("RW", 1.0); ("CF", 0.95); ("ST", 0.95) ]%string.

(** [POSITION_SPEED_FACTORS[player.position]]: the entry of a position code,
    [undefined] for a missing or unlisted one (position codes are not names
    of inherited object properties). *)
Definition speedFactorOf (pos : option string) : option R :=
  match pos with
  | Some s => Js.lookup POSITION_SPEED_FACTORS s
  | None => None
  end.

Definition timeToIntercept (player : Player) (targetX targetY : R) : R :=
  let dx := targetX - x player in
  let dy := targetY - y player in
  let distance := sqrt (dx * dx + dy * dy) in
  if Rlt_dec distance 0.5 then 0 else
  let speedFactor := Js.or_else (speedFactorOf (position player)) 0.95 in
  let maxSpeed := PLAYER_MAX_SPEED * speedFactor in
  let vx := Js.or_else (vx player) 0 in
  let vy := Js.or_else (vy player) 0 in
  let dirX := dx / distance in
  let dirY := dy / distance in
  let velocityTowardsTarget := vx * dirX + vy * dirY in
  let speedDiff := maxSpeed - Rmax 0 velocityTowardsTarget in
  let accelTime := speedDiff / PLAYER_ACCELERATION in
  let accelDistance := velocityTowardsTarget * accelTime +
                       0.5 * PLAYER_ACCELERATION * accelTime * accelTime in
  let remainingDistance := Rmax 0 (distance - accelDistance) in
  let constantSpeedTime := remainingDistance / maxSpeed in
  REACTION_TIME + accelTime + constantSpeedTime.

(** The part of [timeToIntercept] after the reaction delay, as a function of
    the capped speed [m], the velocity [v] towards the target and the
    distance [d] (used to state the kinematics lemmas). *)
Definition motionTime (m v d : R) : R :=
  let accelTime := (m - Rmax 0 v) / PLAYER_ACCELERATION in
  let accelDistance := v * accelTime +
                       0.5 * PLAYER_ACCELERATION * accelTime * accelTime in
  accelTime + Rmax 0 (d - accelDistance) / m.

Definition ballTravelTime (ball : Point) (targetX targetY : R) : R :=
  let distance := sqrt (Js.pow2 (targetX - px ball) + Js.pow2 (targetY - py ball)) in
  distance / BALL_SPEED.

(** The body of the two [forEach] loops: one player's contribution. *)
Definition influenceOf (ballTime x y : R) (player : Player) : R :=
  let tti := timeToIntercept player x y in
  let timeAdvantage := ballTime - tti in
  1 / (1 + exp (- 4 * timeAdvantage)).

Definition sumInfluence (ballTime x y : R) (players : list Player) : R :=
  fold_left (fun acc player => acc + influenceOf ballTime x y player) players 0.

Definition pitchControlAtPoint (x y : R) (teamPlayers opponentPlayers : list Player)
    (ball : Point) : R :=
  let ballTime := ballTravelTime ball x y in
  let teamInfluence := sumInfluence ballTime x y teamPlayers in
  let opponentInfluence := sumInfluence ballTime x y opponentPlayers in
  let totalInfluence := teamInfluence + opponentInfluence in
  if Req_dec_T totalInfluence 0 then 0.5 else
  teamInfluence / totalInfluence.

(** The cell centre of column [xi] (or row [yi]) of a grid. *)
Definition cellCentre (i : nat) (resolution extent : R) : R :=
  (INR i * resolution) - (extent / 2) + (resolution / 2).

(** The nested [for] loops of the surface generators: [cell yi xi] is pushed
    for [yi] from [0] below [gridHeight] and [xi] from [0] below
    [gridWidth]; a bound that is not positive runs no iteration.  (With
    [resolution = 0] the source's bounds are [Infinity] and it does not
    return; the surfaces below are meant for [resolution <> 0].) *)
Definition buildGrid (gridWidth gridHeight : Z) (cell : nat -> nat -> R)
    : list (list R) :=
  map (fun yi => map (fun xi => cell yi xi) (seq 0 (Z.to_nat gridWidth)))
      (seq 0 (Z.to_nat gridHeight)).

Definition generatePitchControlSurface (teamPlayers opponentPlayers : list Player)
    (ball : Point) (options : GridOptions) : Surface :=
  let pitchLength := default (optPitchLength options) 105 in
  let pitchWidth := default (optPitchWidth options) 68 in
  let resolution := default (optResolution options) 2 in
  let gridWidth := Zceil (pitchLength / resolution) in
  let gridHeight := Zceil (pitchWidth / resolution) in
  let grid := buildGrid gridWidth gridHeight (fun yi xi =>
      let x := cellCentre xi resolution pitchLength in
      let y := cellCentre yi resolution pitchWidth in
      pitchControlAtPoint x y teamPlayers opponentPlayers ball) in
  mkSurface grid gridWidth gridHeight resolution pitchLength pitchWidth.

(** Indexing an array with an integer: a negative or too large index reads
    [undefined]. *)
Definition elemAt {A} (l : list A) (i : Z) : option A :=
  if (i <? 0)%Z then None else nth_error l (Z.to_nat i).

(** The bounds check and cell read shared by [getPitchControlAt] and
    [getEPVAt].  [None] is the outcome without a number: reading [.length]
    of a missing first row (a TypeError) or reading a missing cell. The
    disjunction is evaluated left to right and stops at the first true
    operand, as [||] does. *)
Definition lookupCell (grid : list (list R)) (xi yi : Z) (neutral : R) : option R :=
  if (yi <? 0)%Z then Some neutral
  else if (yi >=? Z.of_nat (List.length grid))%Z then Some neutral
  else if (xi <? 0)%Z then Some neutral
  else
    Js.bind (elemAt grid 0) (fun row0 =>
      if (xi >=? Z.of_nat (List.length row0))%Z then Some neutral
      else Js.bind (elemAt grid yi) (fun row => elemAt row xi)).

(** The cell index that the point lookups compute for a coordinate, and
    what it means for a pair of indices to fall outside a grid of the given
    dimensions. *)
Definition cellIndex (v extent resolution : R) : Z :=
  Zfloor ((v + extent / 2) / resolution).

Definition outsideGrid (gridWidth gridHeight xi yi : Z) : Prop :=
  (yi < 0 \/ yi >= gridHeight \/ xi < 0 \/ xi >= gridWidth)%Z.

Definition getPitchControlAt (surface : Surface) (x y : R) : option R :=
  let xi := Zfloor ((x + pitchLength surface / 2) / resolution surface) in
  let yi := Zfloor ((y + pitchWidth surface / 2) / resolution surface) in
  lookupCell (grid surface) xi yi 0.5.

Definition calculateInterceptionProbability (passer receiver : Player)
    (opponents : list Player) : R :=
  let passDistance := sqrt (Js.pow2 (x receiver - x passer) +
                            Js.pow2 (y receiver - y passer)) in
  let dirX := (x receiver - x passer) / passDistance in
  let dirY := (y receiver - y passer) / passDistance in
  let maxInterceptionProb :=
    fold_left (fun maxProb opponent =>
      let toOpponentX := x opponent - x passer in
      let toOpponentY := y opponent - y passer in
      let projDist := toOpponentX * dirX + toOpponentY * dirY in
      if Rlt_dec 0 projDist then
        if Rlt_dec projDist passDistance then
          let perpDist := Rabs (toOpponentX * (- dirY) + toOpponentY * dirX) in
          let ballTimeToPoint := projDist / BALL_SPEED in
          let timeToLine := timeToIntercept opponent
                              (x passer + projDist * dirX)
                              (y passer + projDist * dirY) in
          let timeDiff := ballTimeToPoint - timeToLine in
          let prob := 1 / (1 + exp (- 5 * timeDiff)) in
          let distanceFactor := exp (- perpDist / 3) in
          let interceptProb := prob * distanceFactor in
          Rmax maxProb interceptProb
        else maxProb
      else maxProb) opponents 0 in
  let distanceRisk := 1 - exp (- passDistance / 40) in
  Rmin 0.95 (maxInterceptionProb + distanceRisk * 0.1).

End PitchControl.

(* ------------------------------------------------------------------ *)
(** * epvModel.js *)

Module EpvModel.
Import PitchControl.

Definition progressionValue (x y : R) (attackingRight : bool) : R :=
  let pitchLength := 105 in
  let pitchWidth := 68 in
  let attackingX := if attackingRight then x else - x in
  let normalizedX := (attackingX + pitchLength / 2) / pitchLength in
  let progressionFactor :=
    if Rlt_dec normalizedX 0.15 then 0.05 + normalizedX * 0.3
    else if Rlt_dec normalizedX 0.33 then 0.1 + (normalizedX - 0.15) * 0.5
    else if Rlt_dec normalizedX 0.50 then 0.2 + (normalizedX - 0.33) * 1.2
    else if Rlt_dec normalizedX 0.66 then 0.4 + (normalizedX - 0.50) * 1.5
    else if Rlt_dec normalizedX 0.85 then 0.65 + (normalizedX - 0.66) * 1.2
    else 0.9 + (normalizedX - 0.85) * 0.6 in
  let normalizedY := Rabs y / (pitchWidth / 2) in
  let centralBonus := 1 - 0.25 * normalizedY in
  Rmin 1 (progressionFactor * centralBonus).

Definition shotXG (x y : R) (attackingRight : bool) : R :=
  let goalX := if attackingRight then 52.5 else - 52.5 in
  let distToGoal := sqrt (Js.pow2 (x - goalX) + Js.pow2 y) in
  if Rlt_dec 30 distToGoal then 0.01 else
  let distanceFactor := exp (- distToGoal / 12) in
  let angleFactor := exp (- Js.pow2 y / 150) in
  Rmin 0.8 (distanceFactor * angleFactor).

Definition calculateShotValue (x y : R) (gameState : GameState) : R :=
  shotXG x y (attackingRight gameState).

(** [Math.max(-1, Math.min(1, epv))] *)
Definition clamp (epv : R) : R := Rmax (-1) (Rmin 1 epv).

(** [calculateEPV]: the control is read from the surface when one is given
    and computed otherwise; the result is a number unless the read fails. *)
Definition calculateEPV (x y : R) (gameState : GameState)
    (pitchControlSurface : option Surface) : option R :=
  let progression := progressionValue x y (attackingRight gameState) in
  Js.bind
    (match pitchControlSurface with
     | Some surface => getPitchControlAt surface x y
     | None => Some (pitchControlAtPoint x y (teamPlayers gameState)
                       (opponentPlayers gameState) (ball gameState))
     end)
    (fun control =>
       let controlContribution := (control - 0.5) * 2 in
       let epv := progression * controlContribution in
       Some (clamp epv)).

(** The surface of [generateEPVSurface]: a grid with the running extrema and
    the control surface it was derived from. *)
Record EPVSurface := mkEPVSurface {
  egrid : list (list R);
  egridWidth : Z;
  egridHeight : Z;
  eresolution : R;
  epitchLength : R;
  epitchWidth : R;
  maxEPV : R;
  minEPV : R;
  pitchControlSurface : Surface
}.

(** [pitchControlSurface.grid[yi][xi]] inside the generator's loops, whose
    bounds are those of the control surface (the read is in range). *)
Definition cellOf (g : list (list R)) (yi xi : nat) : R :=
  nth xi (nth yi g []) 0.

Definition generateEPVSurface (gameState : GameState) (options : GridOptions)
    : EPVSurface :=
  let pitchLength := default (optPitchLength options) 105 in
  let pitchWidth := default (optPitchWidth options) 68 in
  let resolution := default (optResolution options) 2 in
  let pitchControlSurface :=
    generatePitchControlSurface (teamPlayers gameState) (opponentPlayers gameState)
      (ball gameState)
      (mkGridOptions (Some pitchLength) (Some pitchWidth) (Some resolution)) in
  let gridWidth := Zceil (pitchLength / resolution) in
  let gridHeight := Zceil (pitchWidth / resolution) in
  let grid := buildGrid gridWidth gridHeight (fun yi xi =>
      let x := cellCentre xi resolution pitchLength in
      let y := cellCentre yi resolution pitchWidth in
      let control := cellOf (grid pitchControlSurface) yi xi in
      let progression := progressionValue x y (attackingRight gameState) in
      let controlContribution := (control - 0.5) * 2 in
      progression * controlContribution) in
  let maxEPV := fold_left Rmax (List.concat grid) (-1) in
  let minEPV := fold_left Rmin (List.concat grid) 1 in
  mkEPVSurface grid gridWidth gridHeight resolution pitchLength pitchWidth
    maxEPV minEPV pitchControlSurface.

Definition getEPVAt (surface : EPVSurface) (x y : R) : option R :=
  let xi := Zfloor ((x + epitchLength surface / 2) / eresolution surface) in
  let yi := Zfloor ((y + epitchWidth surface / 2) / eresolution surface) in
  lookupCell (egrid surface) xi yi 0.

(** [getZoneMultiplier]: the static zone multiplier of a location. *)
Definition getZoneMultiplier (x y : R) (attackingRight : bool) : R :=
  let attackingX := if attackingRight then x else - x in
  if (if Rlt_dec 36 attackingX
      then if Rlt_dec (Rabs y) 20.16 then true else false
      else false)
  then 1.5
  else if Rlt_dec 17.5 attackingX then
    (if Rlt_dec 20 (Rabs y) then 1.1 else 1.3)
  else if Rlt_dec (-17.5) attackingX then 1.0
  else 0.6.

(** The [actionProbabilities] object of the options of
    [calculateDecomposedEPV]; a field may be missing. *)
Record ProbabilityOptions := mkProbabilityOptions {
  optPass : option R;
  optDrive : option R;
  optShot : option R
}.

Record DecomposeOptions := mkDecomposeOptions {
  optPassBestEPV : option R;
  optDriveEPV : option R;
  optActionProbabilities : option ProbabilityOptions
}.

(** The result of [calculateDecomposedEPV] (its nested objects flattened). *)
Record DecomposedEPV := mkDecomposedEPV {
  dCurrentEPV : R;
  decomposedEPV : R;
  componentPass : R;
  componentDrive : R;
  componentShot : R;
  usedPass : R;
  usedDrive : R;
  usedShot : R;
  passContribution : R;
  driveContribution : R;
  shotContribution : R
}.

Definition calculateDecomposedEPV (ballCarrier : option Player)
    (gameState : GameState) (options : DecomposeOptions) : option DecomposedEPV :=
  let passBestEPV := default (optPassBestEPV options) 0 in
  let driveEPV := default (optDriveEPV options) 0 in
  let actionProbabilities :=
    match optActionProbabilities options with
    | Some a => a
    | None => mkProbabilityOptions (Some 0.5) (Some 0.4) (Some 0.1)
    end in
  Js.bind (match ballCarrier with
           | Some c => calculateEPV (x c) (y c) gameState None
           | None => Some 0
           end)
    (fun currentEPV =>
  let shotValue := match ballCarrier with
                   | Some c => calculateShotValue (x c) (y c) gameState
                   | None => 0
                   end in
  let P_pass := Js.or_else (optPass actionProbabilities) 0.5 in
  let P_drive := Js.or_else (optDrive actionProbabilities) 0.4 in
  let P_shot := Js.or_else (optShot actionProbabilities) 0.1 in
  let decomposedEPV := P_pass * passBestEPV + P_drive * driveEPV + P_shot * shotValue in
  Some (mkDecomposedEPV currentEPV decomposedEPV passBestEPV driveEPV shotValue
          P_pass P_drive P_shot
          (P_pass * passBestEPV) (P_drive * driveEPV) (P_shot * shotValue))).

End EpvModel.

(* ------------------------------------------------------------------ *)
(** * passEvaluator.js *)

Module PassEvaluator.
Import PitchControl EpvModel.

Definition BALL_SPEED : R := 15.

Record TurnoverInfo := mkTurnoverInfo {
  turnoverEPV : R;
  interceptionPoint : Point;
  interceptor : option Player
}.

(** The state of the first [forEach] of [calculateTurnoverEPV]:
    [bestInterceptor], [bestInterceptTime] ([None] is [Infinity]) and
    [interceptionPoint]. *)
Definition scanInterceptors (passer : Player) (dirX dirY passDistance : R)
    (opponents : list Player) (start : Point)
    : option Player * option R * Point :=
  fold_left (fun st opponent =>
    let '(bestInterceptor, bestInterceptTime, point) := st in
    let toOppX := x opponent - x passer in
    let toOppY := y opponent - y passer in
    let projDist := toOppX * dirX + toOppY * dirY in
    if Rlt_dec 0 projDist then
      if Rlt_dec projDist passDistance then
        let interceptX := x passer + projDist * dirX in
        let interceptY := y passer + projDist * dirY in
        let ballTime := projDist / BALL_SPEED in
        let oppTime := timeToIntercept opponent interceptX interceptY in
        if Rlt_dec oppTime (ballTime + 0.3) then
          if Js.lt_inf oppTime bestInterceptTime then
            (Some opponent, Some oppTime, mkPoint interceptX interceptY)
          else st
        else st
      else st
    else st) opponents (None, None, start).

(** The second [forEach]: the opponent closest to the receiver, with the
    running [minDist] ([None] is [Infinity]). *)
Definition closestTo (receiver : Player) (opponents : list Player)
    : option Player * option R :=
  fold_left (fun st opp =>
    let '(best, minDist) := st in
    let dist := sqrt (Js.pow2 (x opp - x receiver) + Js.pow2 (y opp - y receiver)) in
    if Js.lt_inf dist minDist then (Some opp, Some dist) else st)
    opponents (None, None).

Definition calculateTurnoverEPV (passer receiver : Player) (opponents : list Player)
    (gameState : GameState) : option TurnoverInfo :=
  let passDistance := sqrt (Js.pow2 (x receiver - x passer) +
                            Js.pow2 (y receiver - y passer)) in
  let dirX := (x receiver - x passer) / passDistance in
  let dirY := (y receiver - y passer) / passDistance in
  let '(scanned, _, scannedPoint) :=
    scanInterceptors passer dirX dirY passDistance opponents
      (mkPoint (x receiver) (y receiver)) in
  let '(bestInterceptor, interceptionPoint) :=
    match scanned with
    | Some _ => (scanned, scannedPoint)
    | None => (fst (closestTo receiver opponents), mkPoint (x receiver) (y receiver))
    end in
  let flippedGameState :=
    mkGameState (opponentPlayers gameState) (teamPlayers gameState)
      interceptionPoint (negb (attackingRight gameState)) in
  Js.bind (calculateEPV (px interceptionPoint) (py interceptionPoint)
             flippedGameState None)
    (fun opponentEPV =>
       Some (mkTurnoverInfo (- opponentEPV) interceptionPoint bestInterceptor)).

Inductive PassDirection := forward | backward | lateral.

Record PassEvaluation := mkPassEvaluation {
  receiver : Player;
  receiverEPV : R;
  rawReceiverEPV : R;
  evalTurnoverEPV : R;
  directionFactor : R;
  successProbability : R;
  interceptProbability : R;
  expectedValue : R;
  passDistance : R;
  passTime : R;
  passDirection : PassDirection;
  evalInterceptionPoint : Point;
  riskRewardDiff : R
}.

(** The direction multiplier of [evaluatePass]. *)
Definition directionFactorOf (passDirection : R) : R :=
  if Rlt_dec 10 passDirection then 1.3 + Rmin 0.2 (passDirection / 50)
  else if Rlt_dec 0 passDirection then 1.0 + passDirection / 50
  else if Rlt_dec (-10) passDirection then 1.0 + passDirection / 30
  else Rmax 0.3 (0.7 + passDirection / 50).

Definition evaluatePass (passer receiver : Player) (gameState : GameState)
    (epvSurface : option EPVSurface) : option PassEvaluation :=
  let interceptProb :=
    calculateInterceptionProbability passer receiver (opponentPlayers gameState) in
  let successProb := 1 - interceptProb in
  let passDistance := sqrt (Js.pow2 (x receiver - x passer) +
                            Js.pow2 (y receiver - y passer)) in
  let passTime := passDistance / BALL_SPEED in
  let postPassGameState :=
    mkGameState (teamPlayers gameState) (opponentPlayers gameState)
      (mkPoint (x receiver) (y receiver)) (attackingRight gameState) in
  Js.bind
    (match epvSurface with
     | Some surface => getEPVAt surface (x receiver) (y receiver)
     | None => calculateEPV (x receiver) (y receiver) postPassGameState None
     end)
    (fun receiverEPV =>
  let passDeltaX := x receiver - x passer in
  let passDirection := if attackingRight gameState then passDeltaX else - passDeltaX in
  let directionFactor := directionFactorOf passDirection in
  let adjustedReceiverEPV := receiverEPV * directionFactor in
  Js.bind (calculateTurnoverEPV passer receiver (opponentPlayers gameState) gameState)
    (fun turnoverInfo =>
  let turnoverEPV := turnoverEPV turnoverInfo in
  let expectedValue := successProb * adjustedReceiverEPV + interceptProb * turnoverEPV in
  Some (mkPassEvaluation
    receiver
    adjustedReceiverEPV
    receiverEPV
    turnoverEPV
    directionFactor
    successProb
    interceptProb
    expectedValue
    passDistance
    passTime
    (if Rlt_dec 0 passDirection then forward
     else if Rlt_dec passDirection (-10) then backward else lateral)
    (interceptionPoint turnoverInfo)
    (adjustedReceiverEPV - Rabs turnoverEPV)))).

Inductive RiskLevel := high | medium | low.

(** A ranked option: the fields that [findPassOptions] adds around the
    spread evaluation. *)
Record PassOption := mkPassOption {
  target : Player;
  targetName : string;
  targetPosition : option string;
  evaluation : PassEvaluation;
  currentEPV : R;
  epvAdded : R;
  riskLevel : RiskLevel
}.

(** [teammate.name || `#${teammate.jerseyNum}`] *)
Definition targetNameOf (teammate : Player) : string :=
  let hash := ("#" ++ match jerseyNum teammate with
                      | Some j => j
                      | None => "undefined"
                      end)%string in
  match name teammate with
  | Some n => if String.eqb n EmptyString then hash else n
  | None => hash
  end.

(** The callback of [teammates.map]: one teammate's ranked option. *)
Definition passOptionFor (ballCarrier : Player) (gameState : GameState)
    (epvSurface : EPVSurface) (currentEPV : R) (teammate : Player)
    : option PassOption :=
  Js.bind (evaluatePass ballCarrier teammate gameState (Some epvSurface))
    (fun evaluation =>
  let epvAdded := expectedValue evaluation - currentEPV in
  Some (mkPassOption
    teammate
    (targetNameOf teammate)
    (position teammate)
    evaluation
    currentEPV
    epvAdded
    (if Rlt_dec 0.5 (interceptProbability evaluation) then high
     else if Rlt_dec 0.25 (interceptProbability evaluation) then medium
     else low))).

(** The comparator [(a, b) => b.epvAdded - a.epvAdded]. *)
Definition byEpvAdded (a b : PassOption) : R := epvAdded b - epvAdded a.

Definition findPassOptions (ballCarrier : option Player) (teammates : list Player)
    (gameState : GameState) : option (list PassOption) :=
  match ballCarrier with
  | None => Some []
  | Some ballCarrier =>
    if Nat.eqb (List.length teammates) 0 then Some [] else
    Js.bind (calculateEPV (x ballCarrier) (y ballCarrier) gameState None)
      (fun currentEPV =>
    let epvSurface := generateEPVSurface gameState noOptions in
    Js.bind
      (Js.mapM (passOptionFor ballCarrier gameState epvSurface currentEPV) teammates)
      (fun passOptions =>
    Some (Js.sort byEpvAdded passOptions)))
  end.


(** Orders on ranked options by value-added: each option strictly above the
    next one, and each option not below the next one. *)
Definition strictlyDescending (l : list PassOption) : Prop :=
  Sorted (fun a b => epvAdded b < epvAdded a) l.
Definition descending (l : list PassOption) : Prop :=
  Sorted (fun a b => epvAdded b <= epvAdded a) l.

(** Sample data: a carrier at the centre spot, a receiver 10 m ahead and one
    10 m behind; a pitch where every one of them is marked by an opponent on
    the same spot, and a pitch without opponents; two teammates who stand on
    the same spot. *)
Definition aheadReceiver : Player := playerAt "f" 10 0.
Definition aheadTwin : Player := playerAt "g" 10 0.
Definition twinPitch : GameState :=
  mkGameState [centreCarrier; aheadReceiver; aheadTwin] [] (mkPoint 0 0) true.

(** [getOptimalPass]: the first ranked option, [null] ([None] inside) when
    there is none. *)
Definition getOptimalPass (ballCarrier : option Player) (teammates : list Player)
    (gameState : GameState) : option (option PassOption) :=
  Js.bind (findPassOptions ballCarrier teammates gameState)
    (fun options =>
       match options with
       | [] => Some None
       | first :: _ => Some (Some first)
       end).

(** [getPassDirection]: forward, lateral or backward by the slope of the
    pass relative to the attack axis. *)
Definition getPassDirection (passer receiver : Player) (attackingRight : bool)
    : PassDirection :=
  let dx := if attackingRight then x receiver - x passer
            else x passer - x receiver in
  let dy := Rabs (y receiver - y passer) in
  if Rlt_dec (dy * 0.5) dx then forward
  else if Rlt_dec dx (- dy * 0.5) then backward
  else lateral.

Inductive SuccessLevel := VeryHigh | High | Medium | Low | VeryLow.

Record SuccessDisplay := mkSuccessDisplay {
  percent : Z;
  level : SuccessLevel;
  color : string
}.

(** [Math.round]: the nearest integer, a half rounding up. *)
Definition round (r : R) : Z := Zfloor (r + 0.5).

Definition formatSuccessProbability (probability : R) : SuccessDisplay :=
  let percent := round (probability * 100) in
  if (percent >=? 80)%Z then mkSuccessDisplay percent VeryHigh "#22c55e"
  else if (percent >=? 60)%Z then mkSuccessDisplay percent High "#86efac"
  else if (percent >=? 40)%Z then mkSuccessDisplay percent Medium "#eab308"
  else if (percent >=? 20)%Z then mkSuccessDisplay percent Low "#f97316"
  else mkSuccessDisplay percent VeryLow "#ef4444".

(** The rank of a level, from [VeryLow] to [VeryHigh]. *)
Definition levelRank (l : SuccessLevel) : nat :=
  match l with
  | VeryLow => 0 | Low => 1 | Medium => 2 | High => 3 | VeryHigh => 4
  end.

End PassEvaluator.

(* ------------------------------------------------------------------ *)
(** * ballDriveModel.js (the pressure metric used by the action model) *)

Module BallDriveModel.

Definition PRESSURE_RADIUS : R := 3.
Definition HIGH_PRESSURE_RADIUS : R := 1.5.

Record Pressure := mkPressure {
  pressureScore : R;
  closestOpponentDistance : option R;   (* [None] is [Infinity] *)
  closestOpponent : option Player;
  opponentsNearby : nat;
  underHighPressure : bool
}.

(** The [forEach] of [calculatePressure] over the state [closestDist],
    [closestOpponent], [opponentsInRadius], [opponentsInHighPressure]. *)
Definition scanOpponents (ballCarrier : Player) (opponents : list Player)
    : option R * option Player * nat * nat :=
  fold_left (fun st opp =>
    let '(closestDist, closestOpponent, inRadius, inHigh) := st in
    let dist := sqrt (Js.pow2 (x opp - x ballCarrier) +
                      Js.pow2 (y opp - y ballCarrier)) in
    let '(closestDist, closestOpponent) :=
      if Js.lt_inf dist closestDist then (Some dist, Some opp)
      else (closestDist, closestOpponent) in
    let inRadius := if Rlt_dec dist PRESSURE_RADIUS then S inRadius else inRadius in
    let inHigh := if Rlt_dec dist HIGH_PRESSURE_RADIUS then S inHigh else inHigh in
    (closestDist, closestOpponent, inRadius, inHigh))
    opponents (None, None, O, O).

Definition calculatePressure (ballCarrier : Player) (opponents : list Player)
    : Pressure :=
  let '(closestDist, closestOpponent, opponentsInRadius, opponentsInHighPressure) :=
    scanOpponents ballCarrier opponents in
  let pressureScore :=
    match closestDist with
    | None => 0
    | Some closestDist =>
      if Rlt_dec closestDist HIGH_PRESSURE_RADIUS then
        0.9 + (INR opponentsInHighPressure - 1) * 0.05
      else if Rlt_dec closestDist PRESSURE_RADIUS then
        0.4 + (0.5 * (PRESSURE_RADIUS - closestDist) /
               (PRESSURE_RADIUS - HIGH_PRESSURE_RADIUS))
      else if Rlt_dec closestDist 6 then
        0.2 * (6 - closestDist) / 3
      else 0
    end in
  mkPressure (Rmin 1 pressureScore) closestDist closestOpponent
    opponentsInRadius (Nat.ltb 0 opponentsInHighPressure).

Import PitchControl EpvModel.

Definition DRIVE_EVALUATION_INTERVAL : R := 0.25.

(** [driveTurnoverProbability].  [Math.pow(b, e)] is [Rpower b e], its value
    for a positive base; the base [1 - baseProb] is at least 0.532.  When the
    closest opponent stands on the carrier's spot the source divides 0 by 0
    and both comparisons of [movingTowards] fail; here [0 / 0] is 0 and they
    fail as well. *)
Definition driveTurnoverProbability (ballCarrier : Player) (opponents : list Player)
    (driveTime : option R) : R :=
  let driveTime := default driveTime DRIVE_EVALUATION_INTERVAL in
  let pressure := calculatePressure ballCarrier opponents in
  let baseProb := pressureScore pressure * 0.3 in
  let speed := sqrt (Js.pow2 (Js.or_else (vx ballCarrier) 0) +
                     Js.pow2 (Js.or_else (vy ballCarrier) 0)) in
  let baseProb :=
    if Rlt_dec 6 speed then baseProb * 1.1
    else if Rlt_dec speed 2 then baseProb * 1.2
    else baseProb in
  let baseProb :=
    match closestOpponent pressure with
    | Some opp =>
      if Rlt_dec 0.5 speed then
        let toOpponentX := x opp - x ballCarrier in
        let toOpponentY := y opp - y ballCarrier in
        let toOppDist := sqrt (toOpponentX * toOpponentX + toOpponentY * toOpponentY) in
        let movingTowards :=
          (Js.or_else (vx ballCarrier) 0 * (toOpponentX / toOppDist) +
           Js.or_else (vy ballCarrier) 0 * (toOpponentY / toOppDist)) / speed in
        if Rlt_dec 0.5 movingTowards then baseProb * 1.3
        else if Rlt_dec movingTowards (-0.5) then baseProb * 0.8
        else baseProb
      else baseProb
    | None => baseProb
    end in
  let prob := 1 - Rpower (1 - baseProb) (driveTime / DRIVE_EVALUATION_INTERVAL) in
  Rmin 0.95 (Rmax 0 prob).

(** [projectDrivePosition]: linear extrapolation, clamped to the pitch. *)
Definition projectDrivePosition (ballCarrier : Player) (driveTime : option R)
    (options : GridOptions) : Point :=
  let driveTime := default driveTime DRIVE_EVALUATION_INTERVAL in
  let pitchLength := default (optPitchLength options) 105 in
  let pitchWidth := default (optPitchWidth options) 68 in
  let vx := Js.or_else (vx ballCarrier) 0 in
  let vy := Js.or_else (vy ballCarrier) 0 in
  let newX := x ballCarrier + vx * driveTime in
  let newY := y ballCarrier + vy * driveTime in
  let halfLength := pitchLength / 2 in
  let halfWidth := pitchWidth / 2 in
  mkPoint (Rmax (- halfLength) (Rmin halfLength newX))
          (Rmax (- halfWidth) (Rmin halfWidth newY)).

(** The result of [evaluateBallDrive]; without a carrier only four fields
    are set. *)
Record DriveEvaluation := mkDriveEvaluation {
  driveEPV : R;
  driveCurrentEPV : option R;
  projectedEPV : option R;
  driveEpvAdded : R;
  turnoverProbability : R;
  driveTurnoverEPV : option R;
  projectedPosition : Point;
  drivePressure : option Pressure
}.

Definition evaluateBallDrive (ballCarrier : option Player) (gameState : GameState)
    (epvSurface : option EPVSurface) : option DriveEvaluation :=
  match ballCarrier with
  | None =>
    Some (mkDriveEvaluation 0 None None 0 1 None (ball gameState) None)
  | Some ballCarrier =>
    Js.bind
      (match epvSurface with
       | Some surface => getEPVAt surface (x ballCarrier) (y ballCarrier)
       | None => calculateEPV (x ballCarrier) (y ballCarrier) gameState None
       end)
      (fun currentEPV =>
    let projectedPos := projectDrivePosition ballCarrier None noOptions in
    Js.bind
      (match epvSurface with
       | Some surface => getEPVAt surface (px projectedPos) (py projectedPos)
       | None =>
         let projectedGameState :=
           mkGameState (teamPlayers gameState) (opponentPlayers gameState)
             projectedPos (attackingRight gameState) in
         calculateEPV (px projectedPos) (py projectedPos) projectedGameState None
       end)
      (fun projectedEPV =>
    let turnoverProb :=
      driveTurnoverProbability ballCarrier (opponentPlayers gameState) None in
    let successProb := 1 - turnoverProb in
    let flippedState :=
      mkGameState (opponentPlayers gameState) (teamPlayers gameState)
        (mkPoint (x ballCarrier) (y ballCarrier))
        (negb (attackingRight gameState)) in
    Js.bind (calculateEPV (x ballCarrier) (y ballCarrier) flippedState None)
      (fun opponentEPV =>
    let turnoverEPV := - opponentEPV in
    let driveEPV := successProb * projectedEPV + turnoverProb * turnoverEPV in
    Some (mkDriveEvaluation
      driveEPV
      (Some currentEPV)
      (Some projectedEPV)
      (driveEPV - currentEPV)
      turnoverProb
      (Some turnoverEPV)
      projectedPos
      (Some (calculatePressure ballCarrier (opponentPlayers gameState)))))))
  end.

Inductive ActionKind := driveAction | passAction.

(** An entry of the [actions] array of [compareDriveWithPasses]
    ([details] of the drive entry is the drive evaluation passed in). *)
Record Action := mkAction {
  actionType : ActionKind;
  actionEpv : R;
  actionDetails : option PassEvaluator.PassOption
}.

Record Comparison := mkComparison {
  recommendedAction : ActionKind;
  bestDriveEPV : R;
  bestPassEPV : R;
  epvDifference : R;
  shouldPass : option bool;      (* [None] is [undefined] *)
  allActions : list Action
}.

(** The [expectedValue] that an option carries from its spread evaluation. *)
Definition optionValue (o : PassEvaluator.PassOption) : R :=
  PassEvaluator.expectedValue (PassEvaluator.evaluation o).

Definition compareDriveWithPasses (driveEval : DriveEvaluation)
    (passOptions : list PassEvaluator.PassOption) : Comparison :=
  let sortedPasses :=
    Js.sort (fun a b => optionValue b - optionValue a) passOptions in
  let bestPass := hd_error sortedPasses in
  let actions :=
    mkAction driveAction (driveEPV driveEval) None ::
    match bestPass with
    | Some best => [mkAction passAction (optionValue best) (Some best)]
    | None => []
    end in
  let actions := Js.sort (fun a b => actionEpv b - actionEpv a) actions in
  let bestPassValue := Js.or_else (option_map optionValue bestPass) 0 in
  mkComparison
    (match actions with
     | first :: _ => actionType first
     | [] => driveAction            (* the array always holds the drive entry *)
     end)
    (driveEPV driveEval)
    bestPassValue
    (driveEPV driveEval - bestPassValue)
    (match bestPass with
     | Some best => Some (if Rlt_dec (driveEPV driveEval) (optionValue best)
                          then true else false)
     | None => None
     end)
    actions.

(** The distance of an opponent from the carrier, as the scans compute it. *)
Definition distanceFrom (ballCarrier opp : Player) : R :=
  sqrt (Js.pow2 (x opp - x ballCarrier) + Js.pow2 (y opp - y ballCarrier)).

(** The rate per evaluation interval that [driveTurnoverProbability]
    compounds: its [baseProb] after the speed and direction adjustments. *)
Definition driveBaseRate (ballCarrier : Player) (opponents : list Player) : R :=
  let pressure := calculatePressure ballCarrier opponents in
  let baseProb := pressureScore pressure * 0.3 in
  let speed := sqrt (Js.pow2 (Js.or_else (vx ballCarrier) 0) +
                     Js.pow2 (Js.or_else (vy ballCarrier) 0)) in
  let baseProb :=
    if Rlt_dec 6 speed then baseProb * 1.1
    else if Rlt_dec speed 2 then baseProb * 1.2
    else baseProb in
  match closestOpponent pressure with
  | Some opp =>
    if Rlt_dec 0.5 speed then
      let toOpponentX := x opp - x ballCarrier in
      let toOpponentY := y opp - y ballCarrier in
      let toOppDist := sqrt (toOpponentX * toOpponentX + toOpponentY * toOpponentY) in
      let movingTowards :=
        (Js.or_else (vx ballCarrier) 0 * (toOpponentX / toOppDist) +
         Js.or_else (vy ballCarrier) 0 * (toOpponentY / toOppDist)) / speed in
      if Rlt_dec 0.5 movingTowards then baseProb * 1.3
      else if Rlt_dec movingTowards (-0.5) then baseProb * 0.8
      else baseProb
    else baseProb
  | None => baseProb
  end.

End BallDriveModel.

(* ------------------------------------------------------------------ *)
(** * actionModel.js *)

Module ActionModel.
Import PitchControl BallDriveModel.

Definition shotProbability (ballCarrier : Player) (gameState : GameState) : R :=
  let goalX := if attackingRight gameState then 52.5 else - 52.5 in
  let goalY := 0 in
  let distToGoal := sqrt (Js.pow2 (x ballCarrier - goalX) +
                          Js.pow2 (y ballCarrier - goalY)) in
  let attackingX := if attackingRight gameState then x ballCarrier
                    else - x ballCarrier in
  let inPenaltyBox :=
    if Rlt_dec 36 attackingX then
      if Rlt_dec (Rabs (y ballCarrier)) 20.16 then true else false
    else false in
  let inSixYardBox :=
    if Rlt_dec 47 attackingX then
      if Rlt_dec (Rabs (y ballCarrier)) 9.16 then true else false
    else false in
  let shotProb :=
    if inSixYardBox then 0.7
    else if inPenaltyBox then 0.5 * exp (- (distToGoal - 11) / 10)
    else if Rlt_dec distToGoal 25 then 0.15 * exp (- (distToGoal - 16.5) / 8)
    else 0.02 * exp (- distToGoal / 40) in
  let angleFactor := exp (- Js.pow2 (y ballCarrier) / 400) in
  let shotProb := shotProb * angleFactor in
  let pressure := calculatePressure ballCarrier (opponentPlayers gameState) in
  let shotProb :=
    if underHighPressure pressure then shotProb * 0.6
    else if Rlt_dec 0.5 (pressureScore pressure) then shotProb * 0.8
    else shotProb in
  Rmin 0.9 (Rmax 0.01 shotProb).

(** [ballCarrier.vx] read without a fallback: it is read only when the
    speed exceeds 0.5, and then the velocity is present. *)
Definition rawVx (p : Player) : R :=
  match velocity p with Some (a, _) => a | None => 0 end.
Definition rawVy (p : Player) : R :=
  match velocity p with Some (_, b) => b | None => 0 end.

Definition driveProbability (ballCarrier : Player) (gameState : GameState) : R :=
  let opponentPlayers := opponentPlayers gameState in
  let speed := sqrt (Js.pow2 (Js.or_else (vx ballCarrier) 0) +
                     Js.pow2 (Js.or_else (vy ballCarrier) 0)) in
  let pressure := calculatePressure ballCarrier opponentPlayers in
  let driveProb :=
    if Rlt_dec 4 speed then 0.5
    else if Rlt_dec 2 speed then 0.4
    else 0.3 in
  let lookAheadDist := 5 in
  let dirX := if Rlt_dec 0.5 speed then rawVx ballCarrier / speed
              else (if attackingRight gameState then 1 else -1) in
  let dirY := if Rlt_dec 0.5 speed then rawVy ballCarrier / speed else 0 in
  let aheadX := x ballCarrier + dirX * lookAheadDist in
  let aheadY := y ballCarrier + dirY * lookAheadDist in
  (* [gameState.ball || ballCarrier]: the ball of a snapshot is an object *)
  let spaceAhead := pitchControlAtPoint aheadX aheadY (teamPlayers gameState)
                      opponentPlayers (ball gameState) in
  let driveProb := driveProb * (0.5 + spaceAhead) in
  let driveProb :=
    if underHighPressure pressure then driveProb * 0.4
    else if Rlt_dec 0.6 (pressureScore pressure) then driveProb * 0.6
    else driveProb in
  let attackingX := if attackingRight gameState then x ballCarrier
                    else - x ballCarrier in
  let driveProb := if Rlt_dec attackingX (-20) then driveProb * 0.7 else driveProb in
  Rmin 0.8 (Rmax 0.1 driveProb).

Definition passProbability (ballCarrier : Player) (gameState : GameState) : R :=
  let pShot := shotProbability ballCarrier gameState in
  let pDrive := driveProbability ballCarrier gameState in
  Rmax 0.2 (1 - pShot - pDrive).

(** The object keyed by [ACTION_TYPES]. *)
Record ActionProbabilities := mkProbs {
  pass : R;
  drive : R;
  shot : R
}.

Definition getActionProbabilities (ballCarrier : option Player)
    (gameState : GameState) : ActionProbabilities :=
  match ballCarrier with
  | None => mkProbs 0.6 0.35 0.05
  | Some ballCarrier =>
    let pShot := shotProbability ballCarrier gameState in
    let pDrive := driveProbability ballCarrier gameState in
    let shot0 := pShot in
    let drive0 := pDrive in
    let pass0 := Rmax 0.15 (1 - pShot - pDrive) in
    let sum := shot0 + drive0 + pass0 in
    mkProbs (pass0 / sum) (drive0 / sum) (shot0 / sum)
  end.

Inductive ActionType := PASS | DRIVE | SHOT.

(** [Object.entries(probs)]: the keys in insertion order, which is
    pass, drive, shot for the literal returned without a carrier and
    shot, drive, pass otherwise. *)
Definition entries (ballCarrier : option Player) (probs : ActionProbabilities)
    : list (ActionType * R) :=
  match ballCarrier with
  | None => [(PASS, pass probs); (DRIVE, drive probs); (SHOT, shot probs)]
  | Some _ => [(SHOT, shot probs); (DRIVE, drive probs); (PASS, pass probs)]
  end.

Record LikelyAction := mkLikelyAction {
  action : ActionType;
  probability : R;
  allProbabilities : ActionProbabilities
}.

Definition getMostLikelyAction (ballCarrier : option Player)
    (gameState : GameState) : LikelyAction :=
  let probs := getActionProbabilities ballCarrier gameState in
  let '(likelyAction, maxProb) :=
    fold_left (fun st entry =>
      let '(likelyAction, maxProb) := st in
      let '(action, prob) := entry in
      if Rlt_dec maxProb prob then (action, prob) else st)
      (entries ballCarrier probs) (PASS, 0) in
  mkLikelyAction likelyAction maxProb probs.

(** The probability that an object of probabilities holds for an action. *)
Definition probabilityOf (probs : ActionProbabilities) (a : ActionType) : R :=
  match a with
  | PASS => pass probs
  | DRIVE => drive probs
  | SHOT => shot probs
  end.

End ActionModel.

(* ------------------------------------------------------------------ *)
(** * defensiveLines.js *)

Module DefensiveLines.
Local Open Scope Q_scope.

(** The fields of a player object that the line detector reads. *)
Record Defender := mkDefender {
  did : option string;
  djerseyNum : option string;
  dx : Q
}.

Definition Qltb (a b : Q) : bool := negb (Qle_bool b a).

(** [dist < minDist] with [minDist] starting at [Infinity] ([None]). *)
Definition lt_inf (a : Q) (b : option Q) : bool :=
  match b with None => true | Some q => Qltb a q end.

(** [Array.prototype.sort((a, b) => a - b)] on numbers: stable insertion
    order, [a] stays before [b] unless [a - b > 0]. *)
Fixpoint insert (a : Q) (l : list Q) : list Q :=
  match l with
  | [] => [a]
  | b :: l' => if Qltb 0 (a - b) then b :: insert a l' else a :: l
  end.

Fixpoint sort (l : list Q) : list Q :=
  match l with
  | [] => []
  | a :: l' => insert a (sort l')
  end.

(** The inner [centroids.forEach]: index of the first nearest centroid. *)
Definition nearest (centroids : list Q) (pos : Q) : nat :=
  let '(nearestCluster, _, _) :=
    fold_left (fun st c =>
      let '(nearestCluster, minDist, i) := st in
      let dist := Qabs (pos - c) in
      if lt_inf dist minDist then (i, Some dist, S i)
      else (nearestCluster, minDist, S i)) centroids (O, None, O) in
  nearestCluster.

(** [clusters[i].push(pos)] *)
Fixpoint pushAt (clusters : list (list Q)) (i : nat) (pos : Q) : list (list Q) :=
  match clusters, i with
  | [], _ => []
  | c :: cs, O => (c ++ [pos]) :: cs
  | c :: cs, S i' => c :: pushAt cs i' pos
  end.

Definition assign (centroids : list Q) (positions : list Q) (k : nat)
    : list (list Q) :=
  fold_left (fun clusters pos => pushAt clusters (nearest centroids pos) pos)
    positions (repeat [] k).

(** [cluster.reduce((a, b) => a + b, 0) / cluster.length], or the old
    centroid for an empty cluster. *)
Definition mean (cluster : list Q) : Q :=
  fold_left Qplus cluster 0 / inject_Z (Z.of_nat (List.length cluster)).

Definition update (clusters : list (list Q)) (centroids : list Q) : list Q :=
  map (fun cc : list Q * Q =>
         match fst cc with
         | [] => snd cc
         | _ => mean (fst cc)
         end) (combine clusters centroids).

(** [Math.max(...l)]; [None] is [-Infinity] (no argument). *)
Definition maxOf (l : list Q) : option Q :=
  match l with
  | [] => None
  | a :: l' => Some (fold_left Qmax l' a)
  end.

(** The [for] loop over [iter]: [fuel] iterations are left. *)
Fixpoint iterate (fuel : nat) (positions centroids : list Q) (k : nat) : list Q :=
  match fuel with
  | O => centroids
  | S fuel' =>
    let clusters := assign centroids positions k in
    let newCentroids := update clusters centroids in
    let maxChange :=
      maxOf (map (fun cn : Q * Q => Qabs (fst cn - snd cn))
                 (combine centroids newCentroids)) in
    match maxChange with
    | None => newCentroids
    | Some m => if Qltb m (1 # 2) then newCentroids
                else iterate fuel' positions newCentroids k
    end
  end.

(** [kMeans1D] for [k >= 1] (the one call passes 3): past the guard the
    positions are then not empty, so their minimum and maximum exist. *)
Definition kMeans1D (positions : list Q) (k maxIterations : nat) : list Q :=
  if Nat.ltb (List.length positions) k then sort positions else
  match positions with
  | [] => []
  | p :: ps =>
    let min := fold_left Qmin ps p in
    let max := fold_left Qmax ps p in
    let range := max - min in
    let centroids :=
      map (fun i => min + (range * (inject_Z (Z.of_nat i) + (1 # 2)))
                         / inject_Z (Z.of_nat k)) (seq 0 k) in
    sort (iterate maxIterations positions centroids k)
  end.

Record Lines := mkLines {
  lines : list Q;
  firstLine : option Q;     (* [None] is [undefined] *)
  secondLine : option Q;
  thirdLine : option Q;
  assignments : list (string * nat)
}.

(** [player.id || player.jerseyNum] used as a property key. *)
Definition keyOf (player : Defender) : string :=
  let jersey := match djerseyNum player with
                | Some j => j
                | None => "undefined"%string
                end in
  match did player with
  | Some i => if String.eqb i EmptyString then jersey else i
  | None => jersey
  end.

(** [assignments[key] = v] on an object. *)
Fixpoint setKey (obj : list (string * nat)) (key : string) (v : nat)
    : list (string * nat) :=
  match obj with
  | [] => [(key, v)]
  | (k', v') :: rest => if String.eqb key k' then (k', v) :: rest
                        else (k', v') :: setKey rest key v
  end.

(** The inner [lines.forEach]: 1-based index of the first nearest line. *)
Definition nearestLine (lines : list Q) (playerX : Q) : nat :=
  let '(nearestLine, _, _) :=
    fold_left (fun st line =>
      let '(nearestLine, minDist, i) := st in
      let dist := Qabs (playerX - line) in
      if lt_inf dist minDist then (S i, Some dist, S i)
      else (nearestLine, minDist, S i)) lines (O, None, O) in
  nearestLine.

Definition detectDefensiveLines (defenders : option (list Defender))
    (attackingRight : bool) : Lines :=
  match defenders with
  | None | Some [] => mkLines [0; 0; 0] (Some 0) (Some 0) (Some 0) []
  | Some defenders =>
    let xPositions := map (fun d => if attackingRight then dx d else - dx d) defenders in
    let lines := kMeans1D xPositions 3 50 in
    let actualLines := if attackingRight then lines
                       else rev (map (fun x => - x) lines) in
    let assignments :=
      fold_left (fun obj player =>
        let playerX := if attackingRight then dx player else - dx player in
        setKey obj (keyOf player) (nearestLine lines playerX)) defenders [] in
    mkLines actualLines (nth_error actualLines 0) (nth_error actualLines 1)
      (nth_error actualLines 2) assignments
  end.

Inductive Zone := Z1 | Z2 | Z3 | Z4.

(** [playerX < line] where a missing line is [undefined] (never below). *)
Definition below (playerX : Q) (line : option Q) : bool :=
  match line with Some l => Qltb playerX l | None => false end.

(** The zone that [getRelativeZone] reports (its name and phase labels are
    fixed by the zone). *)
Definition getRelativeZone (x y : Q) (defensiveLines : Lines)
    (attackingRight : bool) : Zone :=
  let flip := fun l : option Q =>
    if attackingRight then l else option_map Qopp l in
  let playerX := if attackingRight then x else - x in
  let line1 := flip (firstLine defensiveLines) in
  let line2 := flip (secondLine defensiveLines) in
  let line3 := flip (thirdLine defensiveLines) in
  if below playerX line1 then Z1
  else if below playerX line2 then Z2
  else if below playerX line3 then Z3
  else Z4.

(** Sample data: a back line, a midfield line and a forward line of a side
    that defends the goal at negative [x]. *)
Definition defenderAt (i : string) (x : Q) : Defender :=
  mkDefender (Some i) None x.
Definition threeLines : list Defender :=
  [defenderAt "fw" (-10); defenderAt "mf" (-20); defenderAt "cb" (-30)].

(** A coordinate between two bounds. *)
Definition within (lo hi q : Q) : Prop := lo <= q /\ q <= hi.

(** The position read along the attack axis. *)
Definition alongAttack (attackingRight : bool) (x : Q) : Q :=
  if attackingRight then x else - x.

(** The three lines are reported and increase along the attack axis. *)
Definition linesOrdered (attackingRight : bool) (r : Lines) : Prop :=
  exists l1 l2 l3,
    firstLine r = Some l1 /\ secondLine r = Some l2 /\ thirdLine r = Some l3 /\
    alongAttack attackingRight l1 <= alongAttack attackingRight l2 /\
    alongAttack attackingRight l2 <= alongAttack attackingRight l3.

(** [getDynamicZoneMultiplier] *)
Definition getDynamicZoneMultiplier (x y : Q) (defensiveLines : Lines)
    (attackingRight : bool) : Q :=
  match getRelativeZone x y defensiveLines attackingRight with
  | Z1 => 6 # 10
  | Z2 => 9 # 10
  | Z3 => 12 # 10
  | Z4 => 15 # 10
  end.

(** [zoneValues] *)
Definition zoneValue (z : Zone) : Z :=
  match z with Z1 => 1 | Z2 => 2 | Z3 => 3 | Z4 => 4 end%Z.

(** The phase label that [getRelativeZone] attaches to a zone. *)
Definition phaseOf (z : Zone) : string :=
  match z with
  | Z1 => "build-up"
  | Z2 => "progression"
  | Z3 => "pre-finalization"
  | Z4 => "finalization"
  end.

Inductive LineDirection := lineForward | lineBackward | lineLateral.

Record LineBreaking := mkLineBreaking {
  passerZone : Zone;
  receiverZone : Zone;
  direction : LineDirection;
  linesBroken : Z;
  breaksLine : bool;
  fromPhase : string;
  toPhase : string
}.

(** [analyzeLineBreaking], on the coordinates of the passer and the
    receiver. *)
Definition analyzeLineBreaking (passerX passerY receiverX receiverY : Q)
    (defensiveLines : Lines) (attackingRight : bool) : LineBreaking :=
  let passerZone := getRelativeZone passerX passerY defensiveLines attackingRight in
  let receiverZone :=
    getRelativeZone receiverX receiverY defensiveLines attackingRight in
  let zoneChange := (zoneValue receiverZone - zoneValue passerZone)%Z in
  let '(direction, linesBroken) :=
    if (zoneChange >? 0)%Z then (lineForward, zoneChange)
    else if (zoneChange <? 0)%Z then (lineBackward, Z.abs zoneChange)
    else (lineLateral, 0%Z) in
  mkLineBreaking passerZone receiverZone direction linesBroken
    (zoneChange >? 0)%Z (phaseOf passerZone) (phaseOf receiverZone).

(** [assignments[key]]: reading a property of the assignments object. *)
Fixpoint getKey (obj : list (string * nat)) (key : string) : option nat :=
  match obj with
  | [] => None
  | (k', v) :: rest => if String.eqb key k' then Some v else getKey rest key
  end.

End DefensiveLines.

(* ------------------------------------------------------------------ *)
(** * dataLoader.js (the frame queries and the velocity derivation) *)

Module DataLoader.

(** A player of a frame: the player object and its [isBallCarrier] mark. *)
Record FramePlayer := mkFramePlayer {
  player : Player;
  isBallCarrier : bool
}.

(** The fields of a frame that the queries read. *)
Record Frame := mkFrame {
  homePlayers : list FramePlayer;
  awayPlayers : list FramePlayer;
  frameBall : Point;
  homeAttackingRight : bool
}.

Inductive Team := home | away.

(** The carrier returned by [findBallCarrier]: the player with its team. *)
Record Carrier := mkCarrier {
  carrier : FramePlayer;
  team : Team
}.

(** [a === b] on an optional identifier. *)
Definition sameKey (a b : option string) : bool :=
  match a, b with
  | Some s, Some t => String.eqb s t
  | None, None => true
  | _, _ => false
  end.

(** The [forEach] of [findBallCarrier]: the closest player so far and its
    distance to the ball ([None] is [Infinity]). *)
Definition closestToBall (ball : Point) (players : list FramePlayer)
    : option FramePlayer * option R :=
  fold_left (fun st p =>
    let dist := sqrt (Js.pow2 (x (player p) - px ball) +
                      Js.pow2 (y (player p) - py ball)) in
    if Js.lt_inf dist (snd st) then (Some p, Some dist) else st)
    players (None, None).

(** [findBallCarrier].  The marked player is searched in the home players
    followed by the away players; [homePlayers.includes(marked)] holds when
    it was found among the home players. *)
Definition findBallCarrier (frame : Frame) : option Carrier :=
  match find isBallCarrier (homePlayers frame) with
  | Some marked => Some (mkCarrier marked home)
  | None =>
    match find isBallCarrier (awayPlayers frame) with
    | Some marked => Some (mkCarrier marked away)
    | None =>
      match closestToBall (frameBall frame)
              (homePlayers frame ++ awayPlayers frame) with
      | (Some closest, Some minDist) =>
        if Rlt_dec minDist 3 then
          Some (mkCarrier closest
                  (if existsb (fun p => sameKey (id (player p)) (id (player closest)))
                        (homePlayers frame)
                   then home else away))
        else None
      | _ => None
      end
    end
  end.

Definition getTeammates (frame : Frame) (ballCarrier : option Carrier)
    : list FramePlayer :=
  match ballCarrier with
  | None => []
  | Some c =>
    let players := match team c with
                   | home => homePlayers frame
                   | away => awayPlayers frame
                   end in
    filter (fun p =>
              negb (sameKey (id (player p)) (id (player (carrier c)))) &&
              negb (sameKey (jerseyNum (player p)) (jerseyNum (player (carrier c)))))
           players
  end.

Definition getOpponents (frame : Frame) (ballCarrier : option Carrier)
    : list FramePlayer :=
  match ballCarrier with
  | None => homePlayers frame ++ awayPlayers frame
  | Some c =>
    match team c with
    | home => awayPlayers frame
    | away => homePlayers frame
    end
  end.

(** [{ ...p, vx, vy }] *)
Definition withVelocity (p : FramePlayer) (vx vy : R) : FramePlayer :=
  let q := player p in
  mkFramePlayer
    (mkPlayer (id q) (jerseyNum q) (name q) (position q) (x q) (y q) (Some (vx, vy)))
    (isBallCarrier p).

(** [addVelocity] of [deriveVelocities]: the previous player is the first
    one with the same id or the same jersey number. *)
Definition addVelocity (dt : R) (players prevPlayers : list FramePlayer)
    : list FramePlayer :=
  map (fun p =>
         match find (fun q => sameKey (id (player q)) (id (player p)) ||
                              sameKey (jerseyNum (player q)) (jerseyNum (player p)))
                    prevPlayers with
         | Some prevPlayer =>
           withVelocity p ((x (player p) - x (player prevPlayer)) / dt)
                          ((y (player p) - y (player prevPlayer)) / dt)
         | None => withVelocity p 0 0
         end) players.

(** The frames after the first, each with the frame before it. *)
Fixpoint deriveFrom (dt : R) (prevFrame : Frame) (frames : list Frame)
    : list Frame :=
  match frames with
  | [] => []
  | frame :: rest =>
    mkFrame (addVelocity dt (homePlayers frame) (homePlayers prevFrame))
            (addVelocity dt (awayPlayers frame) (awayPlayers prevFrame))
            (frameBall frame) (homeAttackingRight frame)
    :: deriveFrom dt frame rest
  end.

Definition deriveVelocities (frames : list Frame) (fps : option R) : list Frame :=
  let fps := default fps 25 in
  let dt := 1 / fps in
  match frames with
  | [] => []
  | first :: rest =>
    mkFrame (map (fun p => withVelocity p 0 0) (homePlayers first))
            (map (fun p => withVelocity p 0 0) (awayPlayers first))
            (frameBall first) (homeAttackingRight first)
    :: deriveFrom dt first rest
  end.

(** The distance of a player from the ball, as [findBallCarrier] computes
    it. *)
Definition distanceToBall (ball : Point) (p : FramePlayer) : R :=
  sqrt (Js.pow2 (x (player p) - px ball) + Js.pow2 (y (player p) - py ball)).

(** The test of [prevPlayers.find] in [deriveVelocities]. *)
Definition samePlayer (p q : FramePlayer) : bool :=
  sameKey (id (player q)) (id (player p)) ||
  sameKey (jerseyNum (player q)) (jerseyNum (player p)).

(** Sample data: two frames with one home player who moves 1 m along [x]. *)
Definition frameWith (px0 : R) : Frame :=
  mkFrame [mkFramePlayer (playerAt "h" px0 0) true] [] (mkPoint 0 0) true.
Definition twoFrames : list Frame := [frameWith 0; frameWith 1].

(** A player [p'] of a derived frame against the player [p] it comes from:
    the same player at the same place, with a velocity that carries the
    matching previous player to it in the time [dt], or the velocity 0 when
    no previous player matches. *)
Definition derivedFrom (dt : R) (prevPlayers : list FramePlayer)
    (p p' : FramePlayer) : Prop :=
  id (player p') = id (player p) /\
  jerseyNum (player p') = jerseyNum (player p) /\
  x (player p') = x (player p) /\ y (player p') = y (player p) /\
  isBallCarrier p' = isBallCarrier p /\
  exists vx vy,
    velocity (player p') = Some (vx, vy) /\
    match find (samePlayer p) prevPlayers with
    | Some q => x (player q) + vx * dt = x (player p) /\
                y (player q) + vy * dt = y (player p)
    | None => vx = 0 /\ vy = 0
    end.

End DataLoader.

(* ------------------------------------------------------------------ *)
(** * The snapshot seen from the other end of the pitch *)

Module Mirror.

(** Reflection in the halfway line: [x] and [vx] change sign, and the
    possessing side attacks the other way. *)
Definition mirrorPlayer (p : Player) : Player :=
  mkPlayer (id p) (jerseyNum p) (name p) (position p) (- x p) (y p)
    (option_map (fun v => (- fst v, snd v)) (velocity p)).

Definition mirrorPoint (b : Point) : Point := mkPoint (- px b) (py b).

Definition mirrorState (gs : GameState) : GameState :=
  mkGameState (map mirrorPlayer (teamPlayers gs))
              (map mirrorPlayer (opponentPlayers gs))
              (mirrorPoint (ball gs))
              (negb (attackingRight gs)).

End Mirror.

(* ------------------------------------------------------------------ *)
(** * Properties of the kinematic interceptor *)

Section Interceptor.
Import PitchControl.

(** Every entry of the role table, and the fallback, is a positive factor. *)
Lemma speedFactor_pos (pos : option string) :
  0 < Js.or_else (speedFactorOf pos) 0.95.
Proof.
  destruct pos as [s|]; simpl; [|lra].
  unfold POSITION_SPEED_FACTORS, Js.lookup.
  repeat match goal with
         | |- context [String.eqb s ?k] => destruct (String.eqb s k)
         end;
    unfold Js.or_else; try destruct (Req_dec_T _ 0); lra.
Qed.

Lemma maxSpeed_pos (pos : option string) :
  0 < PLAYER_MAX_SPEED * Js.or_else (speedFactorOf pos) 0.95.
Proof.
  pose proof (speedFactor_pos pos). unfold PLAYER_MAX_SPEED. nra.
Qed.

Lemma timeToIntercept_far (p : Player) (tx ty : R) :
  let dx := tx - x p in
  let dy := ty - y p in
  let distance := sqrt (dx * dx + dy * dy) in
  ~ distance < 0.5 ->
  timeToIntercept p tx ty =
    REACTION_TIME +
    motionTime (PLAYER_MAX_SPEED * Js.or_else (speedFactorOf (position p)) 0.95)
      (Js.or_else (vx p) 0 * (dx / distance) + Js.or_else (vy p) 0 * (dy / distance))
      distance.
Proof.
  intros dx dy distance Hfar. unfold timeToIntercept, motionTime.
  fold dx dy distance. destruct (Rlt_dec distance 0.5); [contradiction|].
  cbv zeta. ring.
Qed.

Lemma timeToIntercept_near (p : Player) (tx ty : R) :
  sqrt ((tx - x p) * (tx - x p) + (ty - y p) * (ty - y p)) < 0.5 ->
  timeToIntercept p tx ty = 0.
Proof.
  intros Hnear. unfold timeToIntercept.
  destruct (Rlt_dec _ 0.5); [reflexivity|contradiction].
Qed.

(** Closed-form kinematics: the motion phase never takes negative time, also
    when the velocity towards the target exceeds the capped speed. *)
Lemma motionTime_nonneg (m v d : R) :
  0 < m -> 0 <= d -> 0 <= motionTime m v d.
Proof.
  intros Hm Hd. unfold motionTime, PLAYER_ACCELERATION.
  set (t := (m - Rmax 0 v) / 3.5).
  set (r := Rmax 0 (d - (v * t + 0.5 * 3.5 * t * t))).
  assert (Ht : 3.5 * t = m - Rmax 0 v) by (unfold t; lra).
  assert (Hr0 : 0 <= r) by apply Rmax_l.
  assert (Hr1 : d - (v * t + 0.5 * 3.5 * t * t) <= r) by apply Rmax_r.
  assert (Hsum : 0 <= t * m + r).
  { destruct (Rle_dec 0 t) as [Hpos|Hneg]; [nra|].
    assert (Hv : Rmax 0 v = v).
    { unfold Rmax in *. destruct (Rle_dec 0 v); lra. }
    rewrite Hv in Ht. nra. }
  replace (t + r / m) with ((t * m + r) / m) by (field; lra).
  apply Rmult_le_pos; [lra|]. left. now apply Rinv_0_lt_compat.
Qed.

Lemma motionTime_monotone (m v d1 d2 : R) :
  0 < m -> d1 <= d2 -> motionTime m v d1 <= motionTime m v d2.
Proof.
  intros Hm Hd. unfold motionTime. cbv zeta.
  apply Rplus_le_compat_l. apply Rmult_le_compat_r.
  - left. now apply Rinv_0_lt_compat.
  - apply Rle_max_compat_l. lra.
Qed.

Lemma timeToIntercept_nonneg (p : Player) (tx ty : R) :
  0 <= timeToIntercept p tx ty.
Proof.
  destruct (Rlt_dec (sqrt ((tx - x p) * (tx - x p) + (ty - y p) * (ty - y p))) 0.5)
    as [Hnear|Hfar].
  - rewrite timeToIntercept_near by assumption. lra.
  - rewrite timeToIntercept_far by assumption.
    match goal with
    | |- context [motionTime ?m ?v ?d] =>
        pose proof (motionTime_nonneg m v d (maxSpeed_pos _) (sqrt_pos _))
    end.
    unfold REACTION_TIME. lra.
Qed.

(** A target at distance [d] along the unit direction [(ux, uy)]. *)
Lemma distance_along_ray (p : Player) (ux uy d : R) :
  ux * ux + uy * uy = 1 -> 0 <= d ->
  sqrt ((x p + d * ux - x p) * (x p + d * ux - x p) +
        (y p + d * uy - y p) * (y p + d * uy - y p)) = d.
Proof.
  intros Hu Hd.
  replace ((x p + d * ux - x p) * (x p + d * ux - x p) +
           (y p + d * uy - y p) * (y p + d * uy - y p))
    with (d * d) by (transitivity (d * d * (ux * ux + uy * uy)); [rewrite Hu|]; ring).
  now apply sqrt_square.
Qed.

Lemma timeToIntercept_along_ray (p : Player) (ux uy d : R) :
  ux * ux + uy * uy = 1 -> 0.5 <= d ->
  timeToIntercept p (x p + d * ux) (y p + d * uy) =
    REACTION_TIME +
    motionTime (PLAYER_MAX_SPEED * Js.or_else (speedFactorOf (position p)) 0.95)
      (Js.or_else (vx p) 0 * ux + Js.or_else (vy p) 0 * uy) d.
Proof.
  intros Hu Hd.
  assert (Hdist := distance_along_ray p ux uy d Hu ltac:(lra)).
  rewrite timeToIntercept_far by (rewrite Hdist; lra).
  rewrite Hdist.
  replace ((x p + d * ux - x p) / d) with ux by (field; lra).
  replace ((y p + d * uy - y p) / d) with uy by (field; lra).
  reflexivity.
Qed.

(** C10: at a distance of at least 0.5 the interception time is at least the
    reaction time, whatever the velocity towards the target (also above the
    role-capped speed); hence no result lies strictly between 0 and 0.7. *)
Theorem timeToIntercept_reaction_floor (p : Player) (tx ty : R) :
  (0.5 <= sqrt ((tx - x p) * (tx - x p) + (ty - y p) * (ty - y p)) ->
   REACTION_TIME <= timeToIntercept p tx ty) /\
  ~ (0 < timeToIntercept p tx ty < 0.7).
Proof.
  assert (Hfloor : ~ sqrt ((tx - x p) * (tx - x p) + (ty - y p) * (ty - y p)) < 0.5 ->
                   0.7 <= timeToIntercept p tx ty).
  { intros Hfar. rewrite timeToIntercept_far by assumption.
    match goal with
    | |- context [motionTime ?m ?v ?d] =>
        pose proof (motionTime_nonneg m v d (maxSpeed_pos _) (sqrt_pos _))
    end.
    unfold REACTION_TIME. lra. }
  split.
  - intros Hd. unfold REACTION_TIME. apply Hfloor. lra.
  - intros [Hlo Hhi].
    destruct (Rlt_dec (sqrt ((tx - x p) * (tx - x p) + (ty - y p) * (ty - y p))) 0.5)
      as [Hnear|Hfar].
    + rewrite timeToIntercept_near in Hlo by assumption. lra.
    + apply Hfloor in Hfar. lra.
Qed.

(** C4: the interception time is never negative, and for a fixed mover (so a
    fixed velocity) and a fixed unit direction to the target it does not
    decrease when the distance grows. *)
Theorem timeToIntercept_nonneg_monotone (p : Player) (ux uy d1 d2 : R) :
  ux * ux + uy * uy = 1 -> 0 <= d1 -> d1 <= d2 ->
  (forall tx ty, 0 <= timeToIntercept p tx ty) /\
  timeToIntercept p (x p + d1 * ux) (y p + d1 * uy) <=
  timeToIntercept p (x p + d2 * ux) (y p + d2 * uy).
Proof.
  intros Hu H1 H12. split; [apply timeToIntercept_nonneg|].
  destruct (Rlt_dec d1 0.5) as [Hnear|Hfar].
  - rewrite (timeToIntercept_near p (x p + d1 * ux))
      by (rewrite distance_along_ray; assumption).
    apply timeToIntercept_nonneg.
  - rewrite !timeToIntercept_along_ray by (assumption || lra).
    apply Rplus_le_compat_l, motionTime_monotone; [apply maxSpeed_pos|assumption].
Qed.

Lemma timeToIntercept_reaction_floor_witness :
  REACTION_TIME <= timeToIntercept centreCarrier 1 0.
Proof.
  apply (proj1 (timeToIntercept_reaction_floor centreCarrier 1 0)).
  simpl. replace ((1 - 0) * (1 - 0) + (0 - 0) * (0 - 0)) with 1 by ring.
  rewrite sqrt_1. lra.
Defined.

Lemma timeToIntercept_nonneg_monotone_witness :
  timeToIntercept centreCarrier (0 + 1 * 1) (0 + 1 * 0) <=
  timeToIntercept centreCarrier (0 + 2 * 1) (0 + 2 * 0).
Proof.
  apply (proj2 (timeToIntercept_nonneg_monotone centreCarrier 1 0 1 2
                  ltac:(lra) ltac:(lra) ltac:(lra))).
Defined.

End Interceptor.

(* ------------------------------------------------------------------ *)
(** * Properties of the control field *)

Section ControlField.
Import PitchControl.

Lemma influenceOf_pos (ballTime x y : R) (player : Player) :
  0 < influenceOf ballTime x y player.
Proof.
  unfold influenceOf. cbv zeta.
  pose proof (exp_pos (- 4 * (ballTime - timeToIntercept player x y))).
  apply Rdiv_lt_0_compat; lra.
Qed.

Lemma fold_influence_ge (ballTime x y : R) (players : list Player) (acc : R) :
  acc <= fold_left (fun acc player => acc + influenceOf ballTime x y player)
           players acc.
Proof.
  revert acc. induction players as [|p ps IH]; intros acc; simpl; [lra|].
  pose proof (influenceOf_pos ballTime x y p).
  specialize (IH (acc + influenceOf ballTime x y p)). lra.
Qed.

Lemma sumInfluence_nonneg (ballTime x y : R) (players : list Player) :
  0 <= sumInfluence ballTime x y players.
Proof. apply fold_influence_ge. Qed.

Lemma sumInfluence_pos (ballTime x y : R) (p : Player) (ps : list Player) :
  0 < sumInfluence ballTime x y (p :: ps).
Proof.
  unfold sumInfluence. simpl.
  pose proof (influenceOf_pos ballTime x y p).
  pose proof (fold_influence_ge ballTime x y ps (0 + influenceOf ballTime x y p)).
  lra.
Qed.

Lemma pitchControlAtPoint_range (x y : R) (team opp : list Player) (b : Point) :
  0 <= pitchControlAtPoint x y team opp b <= 1.
Proof.
  unfold pitchControlAtPoint. cbv zeta.
  set (bt := ballTravelTime b x y).
  pose proof (sumInfluence_nonneg bt x y team) as Ht.
  pose proof (sumInfluence_nonneg bt x y opp) as Ho.
  destruct (Req_dec_T _ 0) as [_|Hne]; [lra|].
  assert (Htot : 0 < sumInfluence bt x y team + sumInfluence bt x y opp) by lra.
  split.
  - apply Rmult_le_pos; [assumption|]. left. now apply Rinv_0_lt_compat.
  - apply Rmult_le_reg_r with (sumInfluence bt x y team + sumInfluence bt x y opp);
      [assumption|].
    unfold Rdiv. rewrite Rmult_assoc, Rinv_l by assumption. lra.
Qed.

(** With an empty opposing side the possessing side has all the control. *)
Lemma pitchControlAtPoint_unopposed (x y : R) (p : Player) (ps : list Player)
    (b : Point) :
  pitchControlAtPoint x y (p :: ps) [] b = 1.
Proof.
  unfold pitchControlAtPoint. cbv zeta.
  set (bt := ballTravelTime b x y).
  pose proof (sumInfluence_pos bt x y p ps) as Ht.
  change (sumInfluence bt x y []) with 0.
  destruct (Req_dec_T _ 0) as [He|Hne]; [lra|].
  field. lra.
Qed.

(** C5: the control at a point is a probability, and it is exactly 0.5 when
    neither side has a mover. *)
Theorem pitchControlAtPoint_probability (x y : R) (team opp : list Player)
    (b : Point) :
  0 <= pitchControlAtPoint x y team opp b <= 1 /\
  pitchControlAtPoint x y [] [] b = 0.5.
Proof.
  split; [apply pitchControlAtPoint_range|].
  unfold pitchControlAtPoint, sumInfluence. simpl.
  destruct (Req_dec_T (0 + 0) 0) as [_|Hne]; [reflexivity|lra].
Qed.

(** C9: one mover of the possessing side at the origin (any role, any
    velocity), nobody on the other side, ball at the origin: the mover's
    influence at the origin is 1/2, the opposing influence is 0, the sum is
    not zero, and the control is exactly 1. *)
Theorem pitchControlAtPoint_single_mover_at_origin
    (i j n pos : option string) (vel : option (R * R)) :
  let mover := mkPlayer i j n pos 0 0 vel in
  let origin := mkPoint 0 0 in
  let ballTime := ballTravelTime origin 0 0 in
  sumInfluence ballTime 0 0 [mover] = 0.5 /\
  sumInfluence ballTime 0 0 [] = 0 /\
  sumInfluence ballTime 0 0 [mover] + sumInfluence ballTime 0 0 [] <> 0 /\
  pitchControlAtPoint 0 0 [mover] [] origin = 1.
Proof.
  intros mover origin ballTime.
  assert (Hbt : ballTime = 0).
  { unfold ballTime, ballTravelTime, origin, Js.pow2, BALL_SPEED. simpl.
    replace ((0 - 0) * (0 - 0) + (0 - 0) * (0 - 0)) with 0 by ring.
    rewrite sqrt_0. lra. }
  assert (Htti : timeToIntercept mover 0 0 = 0).
  { apply timeToIntercept_near. simpl.
    replace ((0 - 0) * (0 - 0) + (0 - 0) * (0 - 0)) with 0 by ring.
    rewrite sqrt_0. lra. }
  assert (Hteam : sumInfluence ballTime 0 0 [mover] = 0.5).
  { unfold sumInfluence, influenceOf. simpl. rewrite Hbt, Htti.
    replace (- 4 * (0 - 0)) with 0 by ring. rewrite exp_0. lra. }
  assert (Hopp : sumInfluence ballTime 0 0 [] = 0) by reflexivity.
  repeat split; try assumption.
  - rewrite Hteam, Hopp. lra.
  - apply pitchControlAtPoint_unopposed.
Qed.

End ControlField.

(* ------------------------------------------------------------------ *)
(** * Properties of the grids and of the possession value *)

(** Case analysis on the real comparisons of a goal, closing each case by
    linear arithmetic where that is enough. *)
Ltac rcases :=
  repeat (match goal with
          | |- context [Rlt_dec ?a ?b] => destruct (Rlt_dec a b)
          | |- context [Rle_dec ?a ?b] => destruct (Rle_dec a b)
          | |- context [Rcase_abs ?a] => destruct (Rcase_abs a)
          | H : context [Rlt_dec ?a ?b] |- _ => destruct (Rlt_dec a b)
          | H : context [Rle_dec ?a ?b] |- _ => destruct (Rle_dec a b)
          | H : context [Rcase_abs ?a] |- _ => destruct (Rcase_abs a)
          end; try (exfalso; lra));
  try lra.

Section Grids.
Import PitchControl EpvModel.

Lemma buildGrid_length (w h : Z) (cell : nat -> nat -> R) :
  List.length (buildGrid w h cell) = Z.to_nat h.
Proof. unfold buildGrid. now rewrite length_map, length_seq. Qed.

Lemma buildGrid_row_length (w h : Z) (cell : nat -> nat -> R) (row : list R) :
  In row (buildGrid w h cell) -> List.length row = Z.to_nat w.
Proof.
  unfold buildGrid. rewrite in_map_iff. intros [yi [<- _]].
  now rewrite length_map, length_seq.
Qed.

Lemma elemAt_in_range {A} (l : list A) (i : Z) :
  (0 <= i < Z.of_nat (List.length l))%Z ->
  exists a, elemAt l i = Some a /\ In a l.
Proof.
  intros [Hlo Hhi]. unfold elemAt.
  destruct (Z.ltb_spec i 0) as [Hneg|_]; [lia|].
  destruct (nth_error l (Z.to_nat i)) as [a|] eqn:Hnth.
  - exists a. split; [reflexivity|]. eapply nth_error_In; eassumption.
  - apply nth_error_None in Hnth. lia.
Qed.

(** Outside the stored rows and columns the lookup answers the neutral
    value; it reads the first row only when there is one. *)
Lemma lookupCell_outside (g : list (list R)) (w : nat) (xi yi : Z) (neutral : R) :
  (forall row, In row g -> List.length row = w) ->
  (yi < 0 \/ yi >= Z.of_nat (List.length g) \/ xi < 0 \/ xi >= Z.of_nat w)%Z ->
  lookupCell g xi yi neutral = Some neutral.
Proof.
  intros Hrect Hout. unfold lookupCell.
  destruct (Z.ltb_spec yi 0) as [|Hy0]; [reflexivity|].
  destruct (Z.geb_spec yi (Z.of_nat (List.length g))) as [|Hy1]; [reflexivity|].
  destruct (Z.ltb_spec xi 0) as [|Hx0]; [reflexivity|].
  destruct (elemAt_in_range g 0 ltac:(lia)) as [row0 [-> Hin0]]. simpl.
  rewrite (Hrect _ Hin0).
  destruct (Z.geb_spec xi (Z.of_nat w)) as [|Hx1]; [reflexivity|lia].
Qed.

(** On a rectangular grid every lookup gives a number. *)
Lemma lookupCell_total (g : list (list R)) (w : nat) (xi yi : Z) (neutral : R) :
  (forall row, In row g -> List.length row = w) ->
  exists v, lookupCell g xi yi neutral = Some v.
Proof.
  intros Hrect. unfold lookupCell.
  destruct (Z.ltb_spec yi 0) as [|Hy0]; [eauto|].
  destruct (Z.geb_spec yi (Z.of_nat (List.length g))) as [|Hy1]; [eauto|].
  destruct (Z.ltb_spec xi 0) as [|Hx0]; [eauto|].
  destruct (elemAt_in_range g 0 ltac:(lia)) as [row0 [-> Hin0]]. simpl.
  destruct (Z.geb_spec xi (Z.of_nat (List.length row0))) as [|Hx1]; [eauto|].
  destruct (elemAt_in_range g yi ltac:(lia)) as [row [-> Hin]]. simpl.
  destruct (elemAt_in_range row xi) as [v [-> _]]; [|eauto].
  rewrite (Hrect _ Hin), <- (Hrect _ Hin0). lia.
Qed.

Lemma getPitchControlAt_generated_total (team opp : list Player) (b : Point)
    (opts : GridOptions) (x y : R) :
  exists v, getPitchControlAt (generatePitchControlSurface team opp b opts) x y = Some v.
Proof.
  unfold getPitchControlAt, generatePitchControlSurface. cbn [grid].
  eapply lookupCell_total. intros row. apply buildGrid_row_length.
Qed.

Lemma getEPVAt_generated_total (gs : GameState) (opts : GridOptions) (x y : R) :
  exists v, getEPVAt (generateEPVSurface gs opts) x y = Some v.
Proof.
  unfold getEPVAt, generateEPVSurface. cbn [egrid].
  eapply lookupCell_total. intros row. apply buildGrid_row_length.
Qed.

Lemma controlSurface_rows (team opp : list Player) (b : Point) (opts : GridOptions) :
  let cs := generatePitchControlSurface team opp b opts in
  List.length (grid cs) = Z.to_nat (gridHeight cs) /\
  forall row, In row (grid cs) -> List.length row = Z.to_nat (gridWidth cs).
Proof.
  cbv zeta. unfold generatePitchControlSurface. cbn [grid gridWidth gridHeight].
  split; [apply buildGrid_length|intros row; apply buildGrid_row_length].
Qed.

Lemma valueSurface_rows (gs : GameState) (opts : GridOptions) :
  let vs := generateEPVSurface gs opts in
  List.length (egrid vs) = Z.to_nat (egridHeight vs) /\
  forall row, In row (egrid vs) -> List.length row = Z.to_nat (egridWidth vs).
Proof.
  cbv zeta. unfold generateEPVSurface. cbn [egrid egridWidth egridHeight].
  split; [apply buildGrid_length|intros row; apply buildGrid_row_length].
Qed.

Lemma outsideGrid_stored (w h xi yi : Z) :
  outsideGrid w h xi yi ->
  (yi < 0 \/ yi >= Z.of_nat (Z.to_nat h) \/ xi < 0 \/ xi >= Z.of_nat (Z.to_nat w))%Z.
Proof. unfold outsideGrid. lia. Qed.

(** C7: on a generated control surface and on a generated value surface, a
    coordinate whose floored cell index lies outside the grid dimensions is
    answered with the neutral value (0.5, respectively 0): the lookup gives
    a number, it does not fail. *)
Theorem lookup_outside_grid_is_neutral (team opp : list Player) (b : Point)
    (gs : GameState) (opts : GridOptions) (x y : R) :
  let cs := generatePitchControlSurface team opp b opts in
  let vs := generateEPVSurface gs opts in
  default (optResolution opts) 2 <> 0 ->
  (outsideGrid (gridWidth cs) (gridHeight cs)
     (cellIndex x (pitchLength cs) (resolution cs))
     (cellIndex y (pitchWidth cs) (resolution cs)) ->
   getPitchControlAt cs x y = Some 0.5) /\
  (outsideGrid (egridWidth vs) (egridHeight vs)
     (cellIndex x (epitchLength vs) (eresolution vs))
     (cellIndex y (epitchWidth vs) (eresolution vs)) ->
   getEPVAt vs x y = Some 0).
Proof.
  intros cs vs _.
  destruct (controlSurface_rows team opp b opts) as [Hch Hcw].
  destruct (valueSurface_rows gs opts) as [Hvh Hvw].
  split; intros Hout; apply outsideGrid_stored in Hout.
  - unfold getPitchControlAt. fold cs in Hch, Hcw.
    apply lookupCell_outside with (w := Z.to_nat (gridWidth cs)); [exact Hcw|].
    rewrite Hch. exact Hout.
  - unfold getEPVAt. fold vs in Hvh, Hvw.
    apply lookupCell_outside with (w := Z.to_nat (egridWidth vs)); [exact Hvw|].
    rewrite Hvh. exact Hout.
Qed.

Lemma lookup_outside_grid_is_neutral_witness :
  getPitchControlAt
    (generatePitchControlSurface [centreCarrier] [] (mkPoint 0 0) noOptions)
    (-100) 0 = Some 0.5 /\
  getEPVAt
    (generateEPVSurface (mkGameState [centreCarrier] [] (mkPoint 0 0) true) noOptions)
    (-100) 0 = Some 0.
Proof.
  assert (Hleft : (cellIndex (-100) 105 2 < 0)%Z).
  { unfold cellIndex. apply lt_IZR.
    pose proof (Zfloor_bound ((-100 + 105 / 2) / 2)). lra. }
  destruct (lookup_outside_grid_is_neutral [centreCarrier] []
              (mkPoint 0 0) (mkGameState [centreCarrier] [] (mkPoint 0 0) true)
              noOptions (-100) 0 ltac:(simpl; lra)) as [Hc Hv].
  split; [apply Hc|apply Hv]; right; right; left; exact Hleft.
Defined.

Lemma clamp_range (epv : R) : -1 <= clamp epv <= 1.
Proof.
  unfold clamp. split; [apply Rmax_l|].
  apply Rmax_lub; [lra|apply Rmin_l].
Qed.

(** C6: without a precomputed surface, the possession value at a point is the
    progression potential times [(control - 0.5) * 2], clamped to [-1, 1];
    so it lies in [-1, 1]. *)
Theorem calculateEPV_formula_and_range (x y : R) (gs : GameState) :
  let control := pitchControlAtPoint x y (teamPlayers gs) (opponentPlayers gs)
                   (ball gs) in
  let value := Rmax (-1) (Rmin 1 (progressionValue x y (attackingRight gs) *
                                  ((control - 0.5) * 2))) in
  calculateEPV x y gs None = Some value /\ -1 <= value <= 1.
Proof.
  intros control value. split; [reflexivity|]. apply clamp_range.
Qed.

Lemma clamp_inside (v : R) : -1 <= v <= 1 -> clamp v = v.
Proof. intros Hv. unfold clamp, Rmin, Rmax. rcases. Qed.

(** Inside the pitch the progression potential is positive and below 1. *)
Lemma progressionValue_in_bounds (x y : R) (ar : bool) :
  -52.5 <= x <= 52.5 -> -34 <= y <= 34 ->
  0 < progressionValue x y ar <= 0.99.
Proof.
  intros Hx Hy. unfold progressionValue. cbv zeta.
  set (n := ((if ar then x else - x) + 105 / 2) / 105).
  assert (Hn : 0 <= n <= 1) by (unfold n; destruct ar; lra).
  match goal with
  | |- _ < Rmin 1 (?pf * ?cb) <= _ =>
      assert (Hpf : 0.05 <= pf <= 0.99) by rcases;
      assert (Hcb : 0.75 <= cb <= 1) by (unfold Rabs; rcases);
      generalize dependent pf; generalize dependent cb
  end.
  intros cb Hcb pf Hpf. unfold Rmin. destruct (Rle_dec 1 (pf * cb)); nra.
Qed.

(** So inside the pitch the clamp of [calculateEPV] leaves the product as it
    is. *)
Lemma calculateEPV_in_bounds (x y : R) (gs : GameState) :
  -52.5 <= x <= 52.5 -> -34 <= y <= 34 ->
  calculateEPV x y gs None =
  Some (progressionValue x y (attackingRight gs) *
        ((pitchControlAtPoint x y (teamPlayers gs) (opponentPlayers gs) (ball gs)
          - 0.5) * 2)).
Proof.
  intros Hx Hy. unfold calculateEPV. cbn [Js.bind]. f_equal.
  pose proof (progressionValue_in_bounds x y (attackingRight gs) Hx Hy).
  pose proof (pitchControlAtPoint_range x y (teamPlayers gs) (opponentPlayers gs)
                (ball gs)).
  apply clamp_inside. nra.
Qed.



(** The same holds when the control is read from a surface. *)
Lemma calculateEPV_with_surface (x y : R) (gs : GameState) (s : Surface) (v : R) :
  calculateEPV x y gs (Some s) = Some v ->
  exists control,
    getPitchControlAt s x y = Some control /\
    v = clamp (progressionValue x y (attackingRight gs) * ((control - 0.5) * 2)) /\
    -1 <= v <= 1.
Proof.
  unfold calculateEPV. cbv zeta.
  destruct (getPitchControlAt s x y) as [control|]; simpl; [|discriminate].
  intros [= <-]. exists control. repeat split; apply clamp_range.
Qed.

End Grids.

(* ------------------------------------------------------------------ *)
(** * Properties of the action likelihood model *)

Section ActionLikelihood.
Import ActionModel.

Lemma shotProbability_range (c : Player) (gs : GameState) :
  0.01 <= shotProbability c gs <= 0.9.
Proof.
  unfold shotProbability. cbv zeta.
  match goal with
  | |- _ <= Rmin 0.9 (Rmax 0.01 ?e) <= _ =>
      generalize e; intros e'
  end.
  split; [|apply Rmin_l].
  apply Rmin_glb; [lra|apply Rmax_l].
Qed.

Lemma driveProbability_range (c : Player) (gs : GameState) :
  0.1 <= driveProbability c gs <= 0.8.
Proof.
  unfold driveProbability. cbv zeta.
  match goal with
  | |- _ <= Rmin 0.8 (Rmax 0.1 ?e) <= _ =>
      generalize e; intros e'
  end.
  split; [|apply Rmin_l].
  apply Rmin_glb; [lra|apply Rmax_l].
Qed.

(** C8: the three probabilities of [getActionProbabilities] add up to 1, with
    and without a ball carrier. *)
Theorem getActionProbabilities_sum_to_one (carrier : option Player)
    (gs : GameState) :
  let probs := getActionProbabilities carrier gs in
  pass probs + drive probs + shot probs = 1.
Proof.
  destruct carrier as [c|]; cbv zeta; unfold getActionProbabilities.
  - cbv zeta. cbn [pass drive shot].
    pose proof (shotProbability_range c gs) as Hs.
    pose proof (driveProbability_range c gs) as Hd.
    pose proof (Rmax_l 0.15 (1 - shotProbability c gs - driveProbability c gs)) as Hp.
    field. lra.
  - cbn [pass drive shot]. lra.
Qed.

End ActionLikelihood.

(* ------------------------------------------------------------------ *)
(** * Properties of the pass evaluator *)

Section PassDirectionFactor.
Import PitchControl EpvModel PassEvaluator.



Lemma pitchControlAtPoint_empty (x y : R) (b : Point) :
  pitchControlAtPoint x y [] [] b = 0.5.
Proof.
  unfold pitchControlAtPoint, sumInfluence. simpl.
  destruct (Req_dec_T (0 + 0) 0) as [_|Hne]; [reflexivity|lra].
Qed.



Lemma calculateTurnoverEPV_total (passer rcv : Player) (opponents : list Player)
    (gs : GameState) :
  exists t, calculateTurnoverEPV passer rcv opponents gs = Some t.
Proof.
  unfold calculateTurnoverEPV. cbv zeta.
  destruct (scanInterceptors _ _ _ _ _ _) as [[scanned time] point].
  destruct scanned; cbn; eauto.
Qed.


Lemma evaluatePass_total_generated (passer rcv : Player) (gs gs' : GameState)
    (opts : GridOptions) :
  exists e, evaluatePass passer rcv gs (Some (generateEPVSurface gs' opts)) = Some e.
Proof.
  unfold evaluatePass. cbv zeta.
  destruct (getEPVAt_generated_total gs' opts (x rcv) (y rcv)) as [v ->].
  cbn [Js.bind].
  destruct (calculateTurnoverEPV_total passer rcv (opponentPlayers gs) gs) as [t ->].
  cbn [Js.bind]. eauto.
Qed.





End PassDirectionFactor.

(* ------------------------------------------------------------------ *)
(** * Properties of the pass ranking *)

Section SortByComparator.
Variable A : Type.
Variable cmp : A -> A -> R.
Variable before : A -> A -> Prop.
Hypothesis keep_order : forall a b, ~ 0 < cmp a b -> before a b.
Hypothesis swap_order : forall a b, 0 < cmp a b -> before b a.

Lemma insert_HdRel (a b : A) (l : list A) :
  before b a -> HdRel before b l -> HdRel before b (Js.insert cmp a l).
Proof.
  intros Hba Hhd. destruct l as [|c l]; simpl.
  - now constructor.
  - inversion Hhd; subst. destruct (Rlt_dec 0 (cmp a c)); now constructor.
Qed.

Lemma insert_Sorted (a : A) (l : list A) :
  Sorted before l -> Sorted before (Js.insert cmp a l).
Proof.
  induction l as [|b l IH]; intros Hs; simpl.
  - repeat constructor.
  - inversion Hs as [|? ? Hl Hhd]; subst.
    destruct (Rlt_dec 0 (cmp a b)) as [Hgt|Hle].
    + constructor; [now apply IH|].
      apply insert_HdRel; [now apply swap_order|assumption].
    + constructor; [assumption|]. constructor. now apply keep_order.
Qed.

Lemma sort_Sorted (l : list A) : Sorted before (Js.sort cmp l).
Proof.
  induction l as [|a l IH]; simpl; [constructor|now apply insert_Sorted].
Qed.

Lemma insert_length (a : A) (l : list A) :
  List.length (Js.insert cmp a l) = S (List.length l).
Proof.
  induction l as [|b l IH]; simpl; [reflexivity|].
  destruct (Rlt_dec 0 (cmp a b)); simpl; now rewrite ?IH.
Qed.

Lemma sort_length (l : list A) : List.length (Js.sort cmp l) = List.length l.
Proof.
  induction l as [|a l IH]; simpl; [reflexivity|].
  now rewrite insert_length, IH.
Qed.

End SortByComparator.

Section PassRanking.
Import PitchControl EpvModel PassEvaluator.

Lemma mapM_total {A B} (f : A -> option B) (l : list A) :
  (forall a, exists b, f a = Some b) ->
  exists bs, Js.mapM f l = Some bs /\ List.length bs = List.length l.
Proof.
  intros Hf. induction l as [|a l [bs [IH Hlen]]]; simpl.
  - exists []. split; reflexivity.
  - destruct (Hf a) as [b ->]. rewrite IH. simpl.
    exists (b :: bs). split; [reflexivity|]. simpl. now rewrite Hlen.
Qed.

Lemma passOptionFor_total (c : Player) (gs gs' : GameState) (opts : GridOptions)
    (current : R) (t : Player) :
  exists o, passOptionFor c gs (generateEPVSurface gs' opts) current t = Some o.
Proof.
  unfold passOptionFor.
  destruct (evaluatePass_total_generated c t gs gs' opts) as [e ->].
  cbn [Js.bind]. eauto.
Qed.

(** What [findPassOptions] returns when there is a carrier and a teammate:
    the options of the teammates, sorted. *)
Lemma findPassOptions_unfold (c : Player) (t : Player) (ts : list Player)
    (gs : GameState) :
  exists current options,
    calculateEPV (x c) (y c) gs None = Some current /\
    Js.mapM (passOptionFor c gs (generateEPVSurface gs noOptions) current) (t :: ts)
      = Some options /\
    List.length options = List.length (t :: ts) /\
    findPassOptions (Some c) (t :: ts) gs = Some (Js.sort byEpvAdded options).
Proof.
  unfold findPassOptions. cbn [List.length Nat.eqb].
  unfold calculateEPV at 2. cbn [Js.bind]. cbv zeta.
  match goal with
  | |- context [Js.mapM (passOptionFor c gs ?s ?cur) (t :: ts)] =>
      destruct (mapM_total (passOptionFor c gs s cur) (t :: ts)
                  (passOptionFor_total c gs gs noOptions cur))
        as [options [Hmap Hlen]];
      exists cur, options
  end.
  rewrite Hmap. cbn [Js.bind]. repeat split; assumption || reflexivity.
Qed.

(** [findPassOptions] always returns a list: the surface it reads is the one
    it has just generated, so no lookup fails. *)
Lemma findPassOptions_total (carrier : option Player) (teammates : list Player)
    (gs : GameState) :
  exists l, findPassOptions carrier teammates gs = Some l.
Proof.
  destruct carrier as [c|]; [|exists []; reflexivity].
  destruct teammates as [|t ts]; [exists []; reflexivity|].
  destruct (findPassOptions_unfold c t ts gs) as (cur & options & _ & _ & _ & ->).
  eauto.
Qed.

(** The evaluation of a pass reads the receiver's coordinates only: two
    receivers on the same spot get the same expected value. *)
Lemma evaluatePass_same_spot (p r1 r2 : Player) (gs : GameState)
    (s : option EPVSurface) (e1 e2 : PassEvaluation) :
  x r1 = x r2 -> y r1 = y r2 ->
  evaluatePass p r1 gs s = Some e1 -> evaluatePass p r2 gs s = Some e2 ->
  expectedValue e1 = expectedValue e2.
Proof.
  intros Hx Hy.
  unfold evaluatePass, calculateInterceptionProbability, calculateTurnoverEPV, closestTo.
  cbv zeta. rewrite Hx, Hy.
  match goal with
  | |- Js.bind ?m _ = _ -> _ => destruct m as [raw|]; [|discriminate]
  end.
  cbn [Js.bind].
  match goal with
  | |- context [scanInterceptors ?a ?b ?c ?d ?e ?f] =>
      destruct (scanInterceptors a b c d e f) as [[scanned time] point]
  end.
  destruct scanned; cbn; intros [= <-] [= <-]; reflexivity.
Qed.

Lemma passOptionFor_fields (c : Player) (gs : GameState) (s : EPVSurface)
    (current : R) (t : Player) (o : PassOption) :
  passOptionFor c gs s current t = Some o ->
  exists e, evaluatePass c t gs (Some s) = Some e /\
            epvAdded o = expectedValue e - current.
Proof.
  unfold passOptionFor.
  destruct (evaluatePass c t gs (Some s)) as [e|]; [|discriminate].
  cbn [Js.bind]. intros [= <-]. exists e. split; reflexivity.
Qed.

(** C2, as stated, fails: two teammates on the same spot get the same
    value-added, so the ranked list is not strictly descending. *)
Lemma ranking_ties_between_teammates_on_one_spot :
  exists o1 o2,
    findPassOptions (Some centreCarrier) [aheadReceiver; aheadTwin] twinPitch
      = Some [o1; o2] /\
    target o1 = aheadReceiver /\ target o2 = aheadTwin /\
    epvAdded o1 = epvAdded o2 /\
    ~ strictlyDescending [o1; o2].
Proof.
  destruct (findPassOptions_unfold centreCarrier aheadReceiver [aheadTwin] twinPitch)
    as (cur & options & _ & Hmap & _ & ->).
  cbn [Js.mapM] in Hmap.
  destruct (passOptionFor _ _ _ cur aheadReceiver) as [o1|] eqn:H1; [|discriminate].
  destruct (passOptionFor _ _ _ cur aheadTwin) as [o2|] eqn:H2; [|discriminate].
  cbn [Js.bind] in Hmap. injection Hmap as <-.
  assert (Ht1 : target o1 = aheadReceiver).
  { unfold passOptionFor in H1.
    destruct (evaluatePass _ aheadReceiver _ _); [|discriminate].
    cbn [Js.bind] in H1. now injection H1 as <-. }
  assert (Ht2 : target o2 = aheadTwin).
  { unfold passOptionFor in H2.
    destruct (evaluatePass _ aheadTwin _ _); [|discriminate].
    cbn [Js.bind] in H2. now injection H2 as <-. }
  destruct (passOptionFor_fields _ _ _ _ _ _ H1) as (e1 & He1 & Ha1).
  destruct (passOptionFor_fields _ _ _ _ _ _ H2) as (e2 & He2 & Ha2).
  assert (Heq : epvAdded o1 = epvAdded o2).
  { rewrite Ha1, Ha2. f_equal.
    apply (evaluatePass_same_spot centreCarrier aheadReceiver aheadTwin twinPitch
             _ e1 e2 eq_refl eq_refl He1 He2). }
  exists o1, o2. cbn [Js.sort Js.insert]. unfold byEpvAdded.
  destruct (Rlt_dec 0 (epvAdded o2 - epvAdded o1)) as [Hlt|_]; [lra|].
  repeat split; try assumption.
  unfold strictlyDescending. intros Hs.
  inversion Hs as [|? ? _ Hhd]; subst. inversion Hhd; subst. lra.
Qed.

(** C2, amended: the ranked list is returned for every carrier and teammate
    list, and it is in descending order of value-added, each option's
    value-added being at least the next one's. *)
Theorem findPassOptions_descending (carrier : option Player)
    (teammates : list Player) (gs : GameState) :
  exists l, findPassOptions carrier teammates gs = Some l /\ descending l.
Proof.
  destruct carrier as [c|]; [|exists []; split; [reflexivity|constructor]].
  destruct teammates as [|t ts]; [exists []; split; [reflexivity|constructor]|].
  destruct (findPassOptions_unfold c t ts gs) as (cur & options & _ & _ & _ & ->).
  eexists. split; [reflexivity|].
  apply sort_Sorted; unfold byEpvAdded; intros a b H; lra.
Qed.

End PassRanking.

(* ------------------------------------------------------------------ *)
(** * Properties of the formation line detector *)

Section FormationLines.
Import DefensiveLines.
Local Open Scope Q_scope.

Lemma Qltb_true (a b : Q) : Qltb a b = true -> a < b.
Proof.
  unfold Qltb. intros H. apply negb_true_iff in H.
  apply Qnot_le_lt. intros Hle. apply Qle_bool_iff in Hle. congruence.
Qed.

Lemma Qltb_false (a b : Q) : Qltb a b = false -> b <= a.
Proof.
  unfold Qltb. intros H. apply negb_false_iff in H. now apply Qle_bool_iff.
Qed.

Lemma insert_HdRel_Q (a b : Q) (l : list Q) :
  b <= a -> HdRel Qle b l -> HdRel Qle b (insert a l).
Proof.
  intros Hba Hhd. destruct l as [|c l]; simpl.
  - now constructor.
  - inversion Hhd; subst. destruct (Qltb 0 (a - c)); now constructor.
Qed.

Lemma insert_Sorted_Q (a : Q) (l : list Q) :
  Sorted Qle l -> Sorted Qle (insert a l).
Proof.
  induction l as [|b l IH]; intros Hs; simpl.
  - repeat constructor.
  - inversion Hs as [|? ? Hl Hhd]; subst.
    destruct (Qltb 0 (a - b)) eqn:Hcmp.
    + apply Qltb_true in Hcmp.
      constructor; [now apply IH|].
      apply insert_HdRel_Q; [Lqa.lra|assumption].
    + apply Qltb_false in Hcmp.
      constructor; [assumption|]. constructor. Lqa.lra.
Qed.

Lemma sort_Sorted_Q (l : list Q) : Sorted Qle (sort l).
Proof.
  induction l as [|a l IH]; simpl; [constructor|now apply insert_Sorted_Q].
Qed.

Lemma insert_length_Q (a : Q) (l : list Q) :
  List.length (insert a l) = S (List.length l).
Proof.
  induction l as [|b l IH]; simpl; [reflexivity|].
  destruct (Qltb 0 (a - b)); simpl; now rewrite ?IH.
Qed.

Lemma sort_length_Q (l : list Q) : List.length (sort l) = List.length l.
Proof.
  induction l as [|a l IH]; simpl; [reflexivity|].
  now rewrite insert_length_Q, IH.
Qed.

Lemma pushAt_length (clusters : list (list Q)) (i : nat) (pos : Q) :
  List.length (pushAt clusters i pos) = List.length clusters.
Proof.
  revert i. induction clusters as [|c cs IH]; intros [|i]; simpl;
    try reflexivity. now rewrite IH.
Qed.

Lemma assign_length (centroids positions : list Q) (k : nat) :
  List.length (assign centroids positions k) = k.
Proof.
  unfold assign.
  assert (H : forall clusters,
             List.length (fold_left (fun clusters pos =>
                pushAt clusters (nearest centroids pos) pos) positions clusters)
             = List.length clusters).
  { induction positions as [|p ps IH]; intros clusters; simpl; [reflexivity|].
    now rewrite IH, pushAt_length. }
  now rewrite H, repeat_length.
Qed.

Lemma update_length (clusters : list (list Q)) (centroids : list Q) :
  List.length clusters = List.length centroids ->
  List.length (update clusters centroids) = List.length centroids.
Proof.
  intros H. unfold update. rewrite length_map, length_combine, H.
  apply Nat.min_id.
Qed.

(** The loop keeps [k] centroids, whether it stops by convergence or by the
    iteration cap. *)
Lemma iterate_length (fuel : nat) (positions centroids : list Q) (k : nat) :
  List.length centroids = k ->
  List.length (iterate fuel positions centroids k) = k.
Proof.
  revert centroids. induction fuel as [|fuel IH]; intros centroids Hk; simpl;
    [assumption|].
  assert (Hnew : List.length (update (assign centroids positions k) centroids) = k).
  { rewrite update_length; [assumption|]. now rewrite assign_length. }
  destruct (maxOf _) as [m|]; [|assumption].
  destruct (Qltb m (1 # 2)); [assumption|now apply IH].
Qed.

Lemma kMeans1D_three (positions : list Q) :
  (3 <= List.length positions)%nat ->
  exists l1 l2 l3, kMeans1D positions 3 50 = [l1; l2; l3] /\ l1 <= l2 /\ l2 <= l3.
Proof.
  intros Hlen.
  assert (Hsorted : Sorted Qle (kMeans1D positions 3 50)).
  { unfold kMeans1D. destruct (Nat.ltb _ 3); [apply sort_Sorted_Q|].
    destruct positions; [constructor|apply sort_Sorted_Q]. }
  assert (Hthree : List.length (kMeans1D positions 3 50) = 3%nat).
  { unfold kMeans1D. destruct (Nat.ltb_spec (List.length positions) 3); [lia|].
    destruct positions as [|p ps]; [simpl in Hlen; lia|].
    rewrite sort_length_Q. apply iterate_length.
    now rewrite length_map, length_seq. }
  destruct (kMeans1D positions 3 50) as [|l1 [|l2 [|l3 [|l4 rest]]]];
    try discriminate.
  exists l1, l2, l3. split; [reflexivity|].
  inversion Hsorted as [|? ? Hs1 Hh1]; subst.
  inversion Hs1 as [|? ? _ Hh2]; subst.
  inversion Hh1; subst. inversion Hh2; subst. split; assumption.
Qed.

(** With at least three defenders and an attack towards positive [x] the
    three lines are reported and increase along the attack axis. *)
Lemma lines_ordered_attacking_right (defenders : list Defender) :
  (3 <= List.length defenders)%nat ->
  linesOrdered true (detectDefensiveLines (Some defenders) true).
Proof.
  intros Hlen. unfold detectDefensiveLines.
  destruct defenders as [|d ds]; [simpl in Hlen; lia|].
  destruct (kMeans1D_three (map (fun d => dx d) (d :: ds)))
    as (l1 & l2 & l3 & Hk & H12 & H23); [now rewrite length_map|].
  cbv zeta. rewrite Hk. exists l1, l2, l3. simpl. repeat split; assumption.
Qed.

(** With at least three defenders and an attack towards negative [x] the
    three lines are reported in increasing raw [x], which is the decreasing
    order along the attack axis. *)
Lemma lines_reversed_attacking_left (defenders : list Defender) :
  (3 <= List.length defenders)%nat ->
  exists l1 l2 l3,
    let r := detectDefensiveLines (Some defenders) false in
    firstLine r = Some l1 /\ secondLine r = Some l2 /\ thirdLine r = Some l3 /\
    alongAttack false l3 <= alongAttack false l2 /\
    alongAttack false l2 <= alongAttack false l1.
Proof.
  intros Hlen. unfold detectDefensiveLines.
  destruct defenders as [|d ds]; [simpl in Hlen; lia|].
  destruct (kMeans1D_three (map (fun d => - dx d) (d :: ds)))
    as (l1 & l2 & l3 & Hk & H12 & H23); [now rewrite length_map|].
  cbv zeta. rewrite Hk. exists (- l3), (- l2), (- l1). simpl.
  repeat split; rewrite !Qopp_involutive; assumption.
Qed.

(** With one or two defenders fewer than three lines are reported. *)
Lemma third_line_missing (defenders : list Defender) (attackingRight : bool) :
  (1 <= List.length defenders < 3)%nat ->
  thirdLine (detectDefensiveLines (Some defenders) attackingRight) = None.
Proof.
  intros [Hlo Hhi]. unfold detectDefensiveLines.
  destruct defenders as [|d ds]; [simpl in Hlo; lia|]. cbv zeta.
  set (xs := map _ (d :: ds)).
  assert (Hxs : List.length xs = List.length (d :: ds)) by apply length_map.
  assert (Hk : (List.length (kMeans1D xs 3 50) < 3)%nat).
  { unfold kMeans1D. destruct (Nat.ltb_spec (List.length xs) 3); [|lia].
    rewrite sort_length_Q. lia. }
  cbn [thirdLine]. apply nth_error_None.
  destruct attackingRight; [lia|]. rewrite length_rev, length_map. lia.
Qed.

(** C1 at a sample input: a side that defends the goal at negative [x] with
    its forward line at -10, its midfield at -20 and its back line at -30.
    The reported lines run -30, -20, -10, so along the attack axis they
    decrease (30, 20, 10), while the same call assigns the forward to line
    1, and [getRelativeZone] puts a point between the forward and the
    midfield line behind the first line. *)
Theorem lines_not_ordered_attacking_left :
  let r := detectDefensiveLines (Some threeLines) false in
  firstLine r = Some (-30 # 1) /\
  secondLine r = Some (-20 # 1) /\
  thirdLine r = Some (-10 # 1) /\
  assignments r = [("fw"%string, 1%nat); ("mf"%string, 2%nat); ("cb"%string, 3%nat)] /\
  getRelativeZone (-15 # 1) 0 r false = Z1 /\
  ~ linesOrdered false r.
Proof.
  cbv zeta.
  assert (Hr : detectDefensiveLines (Some threeLines) false =
               mkLines [-30 # 1; -20 # 1; -10 # 1]
                 (Some (-30 # 1)) (Some (-20 # 1)) (Some (-10 # 1))
                 [("fw"%string, 1%nat); ("mf"%string, 2%nat); ("cb"%string, 3%nat)])
    by (vm_compute; reflexivity).
  rewrite Hr. cbn [firstLine secondLine thirdLine assignments].
  repeat split.
  intros (l1 & l2 & l3 & H1 & H2 & H3 & H12 & H23).
  cbn [firstLine secondLine thirdLine] in H1, H2, H3.
  injection H1 as <-. injection H2 as <-.
  unfold alongAttack, Qle in H12. simpl in H12. lia.
Qed.

End FormationLines.

(* ------------------------------------------------------------------ *)
(** * Further properties: interception risk and shot quality *)

Section InterceptionRisk.
Import PitchControl EpvModel.

Lemma exp_le_1 (r : R) : r <= 0 -> exp r <= 1.
Proof.
  intros [Hlt|Heq].
  - rewrite <- exp_0. left. now apply exp_increasing.
  - subst. rewrite exp_0. lra.
Qed.

(** The scan over the opponents never lowers the running maximum. *)
Lemma fold_interception_ge (f : R -> Player -> R) (opponents : list Player)
    (acc : R) :
  (forall a o, a <= f a o) -> acc <= fold_left f opponents acc.
Proof.
  intros Hf. revert acc.
  induction opponents as [|o os IH]; intros acc; simpl; [lra|].
  eapply Rle_trans; [apply (Hf acc o)|apply IH].
Qed.

Lemma interceptionProbability_bounds (passer receiver : Player)
    (opponents : list Player) :
  0 <= calculateInterceptionProbability passer receiver opponents <= 0.95 /\
  calculateInterceptionProbability passer receiver [] < 0.1.
Proof.
  assert (Hrisk : forall d, 0 <= d -> 0 <= 1 - exp (- d / 40) < 1).
  { intros d Hd. pose proof (exp_pos (- d / 40)).
    pose proof (exp_le_1 (- d / 40) ltac:(lra)). lra. }
  split.
  - unfold calculateInterceptionProbability. cbv zeta.
    match goal with
    | |- _ <= Rmin 0.95 (fold_left ?f opponents 0 + (1 - exp (- ?d / 40)) * 0.1) <= _ =>
        pose proof (fold_interception_ge f opponents 0) as Hmax;
        pose proof (Hrisk d (sqrt_pos _)) as Hd;
        set (m := fold_left f opponents 0) in *;
        set (risk := 1 - exp (- d / 40)) in *
    end.
    assert (Hm : 0 <= m).
    { apply Hmax. intros a o. cbv beta.
      repeat match goal with
             | |- context [Rlt_dec ?u ?v] => destruct (Rlt_dec u v)
             end; try lra; apply Rmax_l. }
    split; [apply Rmin_glb; lra|apply Rmin_l].
  - unfold calculateInterceptionProbability. cbv zeta. simpl fold_left.
    match goal with
    | |- Rmin 0.95 (0 + (1 - exp (- ?d / 40)) * 0.1) < _ =>
        pose proof (Hrisk d (sqrt_pos _)) as Hd
    end.
    eapply Rle_lt_trans; [apply Rmin_r|lra].
Qed.

(** X1: the interception probability of a pass lies in [0, 0.95], and it is
    never below the long-pass risk of the pass capped at 0.95; without
    opponents it is exactly that risk, 0.1 * (1 - exp (- d / 40)) for a pass
    of length d, which stays below 0.1. *)
Theorem calculateInterceptionProbability_range (passer receiver : Player)
    (opponents : list Player) :
  let d := sqrt (Js.pow2 (x receiver - x passer) +
                 Js.pow2 (y receiver - y passer)) in
  let risk := (1 - exp (- d / 40)) * 0.1 in
  0 <= calculateInterceptionProbability passer receiver opponents <= 0.95 /\
  risk <= calculateInterceptionProbability passer receiver opponents /\
  calculateInterceptionProbability passer receiver [] = risk /\
  0 <= risk < 0.1.
Proof.
  cbv zeta.
  assert (Hrisk : forall d, 0 <= d -> 0 <= 1 - exp (- d / 40) < 1).
  { intros d Hd. pose proof (exp_pos (- d / 40)).
    pose proof (exp_le_1 (- d / 40) ltac:(lra)). lra. }
  split; [apply interceptionProbability_bounds|].
  match goal with
  | |- (1 - exp (- ?d / 40)) * 0.1 <= _ /\ _ =>
      pose proof (Hrisk d (sqrt_pos _)) as Hd
  end.
  split; [|split; [|lra]].
  - unfold calculateInterceptionProbability. cbv zeta.
    match goal with
    | |- _ <= Rmin 0.95 (fold_left ?f opponents 0 + _) =>
        pose proof (fold_interception_ge f opponents 0) as Hmax;
        set (m := fold_left f opponents 0) in *
    end.
    assert (Hm : 0 <= m).
    { apply Hmax. intros a o. cbv beta.
      repeat match goal with
             | |- context [Rlt_dec ?u ?v] => destruct (Rlt_dec u v)
             end; try lra; apply Rmax_l. }
    apply Rmin_glb; lra.
  - unfold calculateInterceptionProbability. cbv zeta. simpl fold_left.
    rewrite Rmin_right by lra. lra.
Qed.

(** X2: the shot quality is positive and at most 0.8, and it is the
    baseline 0.01 for every location more than 30 m from the goal centre. *)
Theorem shotXG_range (x y : R) (attackingRight : bool) :
  0 < shotXG x y attackingRight <= 0.8 /\
  (30 < sqrt (Js.pow2 (x - (if attackingRight then 52.5 else - 52.5)) + Js.pow2 y) ->
   shotXG x y attackingRight = 0.01).
Proof.
  unfold shotXG. cbv zeta.
  set (d := sqrt (Js.pow2 (x - (if attackingRight then 52.5 else - 52.5)) + Js.pow2 y)).
  destruct (Rlt_dec 30 d) as [Hfar|Hnear].
  - split; [lra|reflexivity].
  - split; [|intros; contradiction].
    pose proof (exp_pos (- d / 12)). pose proof (exp_pos (- Js.pow2 y / 150)).
    split; [|apply Rmin_l].
    apply Rmin_glb_lt; [lra|]. now apply Rmult_lt_0_compat.
Qed.

Lemma shotXG_range_witness : shotXG (-52.5) 0 true = 0.01.
Proof.
  apply (proj2 (shotXG_range (-52.5) 0 true)).
  unfold Js.pow2.
  replace ((-52.5 - 52.5) * (-52.5 - 52.5) + 0 * 0) with (105 * 105) by lra.
  rewrite sqrt_square; lra.
Defined.

End InterceptionRisk.

(* ------------------------------------------------------------------ *)
(** * Further properties: symmetry under a change of ends *)

Section MirrorSymmetry.
Import PitchControl EpvModel Mirror.

Lemma or_else_opp (a : option R) :
  Js.or_else (option_map Ropp a) 0 = - Js.or_else a 0.
Proof.
  destruct a as [r|]; simpl; [|lra].
  destruct (Req_dec_T (- r) 0), (Req_dec_T r 0); lra.
Qed.

Lemma vx_mirror (p : Player) : vx (mirrorPlayer p) = option_map Ropp (vx p).
Proof. unfold vx, mirrorPlayer. simpl. now destruct (velocity p) as [[a b]|]. Qed.

Lemma vy_mirror (p : Player) : vy (mirrorPlayer p) = vy p.
Proof. unfold vy, mirrorPlayer. simpl. now destruct (velocity p) as [[a b]|]. Qed.

Lemma distance_mirror (px0 tx dy : R) :
  (- tx - - px0) * (- tx - - px0) + dy * dy = (tx - px0) * (tx - px0) + dy * dy.
Proof. ring. Qed.

Lemma timeToIntercept_mirror (p : Player) (tx ty : R) :
  timeToIntercept (mirrorPlayer p) (- tx) ty = timeToIntercept p tx ty.
Proof.
  set (d := sqrt ((tx - x p) * (tx - x p) + (ty - y p) * (ty - y p))).
  assert (Hd : sqrt ((- tx - x (mirrorPlayer p)) * (- tx - x (mirrorPlayer p)) +
                     (ty - y (mirrorPlayer p)) * (ty - y (mirrorPlayer p))) = d).
  { unfold d. simpl. now rewrite distance_mirror. }
  destruct (Rlt_dec d 0.5) as [Hnear|Hfar].
  - rewrite !timeToIntercept_near; [reflexivity|assumption|now rewrite Hd].
  - rewrite (timeToIntercept_far p) by assumption.
    rewrite (timeToIntercept_far (mirrorPlayer p)) by now rewrite Hd.
    rewrite Hd. fold d. rewrite vx_mirror, vy_mirror, or_else_opp.
    simpl position. simpl x. simpl y. f_equal. f_equal.
    unfold Rdiv. ring.
Qed.

Lemma ballTravelTime_mirror (b : Point) (tx ty : R) :
  ballTravelTime (mirrorPoint b) (- tx) ty = ballTravelTime b tx ty.
Proof.
  unfold ballTravelTime, mirrorPoint, Js.pow2. simpl.
  now rewrite distance_mirror.
Qed.

Lemma sumInfluence_mirror (ballTime tx ty : R) (players : list Player) :
  sumInfluence ballTime (- tx) ty (map mirrorPlayer players) =
  sumInfluence ballTime tx ty players.
Proof.
  unfold sumInfluence. generalize 0 as acc.
  induction players as [|p ps IH]; intros acc; simpl; [reflexivity|].
  rewrite IH. do 2 f_equal. unfold influenceOf.
  now rewrite timeToIntercept_mirror.
Qed.

Lemma pitchControlAtPoint_mirror (tx ty : R) (team opp : list Player) (b : Point) :
  pitchControlAtPoint (- tx) ty (map mirrorPlayer team) (map mirrorPlayer opp)
    (mirrorPoint b) = pitchControlAtPoint tx ty team opp b.
Proof.
  unfold pitchControlAtPoint.
  now rewrite ballTravelTime_mirror, !sumInfluence_mirror.
Qed.

Lemma progressionValue_mirror (tx ty : R) (ar : bool) :
  progressionValue (- tx) ty (negb ar) = progressionValue tx ty ar.
Proof.
  unfold progressionValue. destruct ar; simpl; now rewrite ?Ropp_involutive.
Qed.

(** X3: interception times, control and possession value do not depend on
    the end a side attacks: reflecting every mover (position and velocity),
    the ball and the point in the halfway line and reversing the attack
    direction leaves them unchanged. *)
Theorem calculateEPV_mirror (tx ty : R) (gs : GameState) :
  (forall p, timeToIntercept (mirrorPlayer p) (- tx) ty = timeToIntercept p tx ty) /\
  pitchControlAtPoint (- tx) ty (teamPlayers (mirrorState gs))
    (opponentPlayers (mirrorState gs)) (ball (mirrorState gs)) =
  pitchControlAtPoint tx ty (teamPlayers gs) (opponentPlayers gs) (ball gs) /\
  calculateEPV (- tx) ty (mirrorState gs) None = calculateEPV tx ty gs None.
Proof.
  split; [intros p; apply timeToIntercept_mirror|].
  split; [apply pitchControlAtPoint_mirror|].
  unfold calculateEPV, mirrorState. cbn [teamPlayers opponentPlayers ball attackingRight].
  now rewrite pitchControlAtPoint_mirror, progressionValue_mirror.
Qed.

End MirrorSymmetry.

(* ------------------------------------------------------------------ *)
(** * Further properties: the surfaces against the point evaluations *)

Section SurfaceCells.
Import PitchControl EpvModel.

Lemma nth_error_seq_lt (a n i : nat) :
  (i < n)%nat -> nth_error (seq a n) i = Some (a + i)%nat.
Proof.
  revert a i. induction n as [|n IH]; intros a i Hi; [lia|].
  destruct i as [|i]; simpl; [f_equal; lia|].
  rewrite IH by lia. f_equal. lia.
Qed.

Lemma buildGrid_nth_error (w h : Z) (cell : nat -> nat -> R) (yi xi : nat) :
  (yi < Z.to_nat h)%nat -> (xi < Z.to_nat w)%nat ->
  exists row, nth_error (buildGrid w h cell) yi = Some row /\
              nth_error row xi = Some (cell yi xi).
Proof.
  intros Hy Hx. unfold buildGrid.
  rewrite nth_error_map, nth_error_seq_lt by assumption. simpl.
  eexists. split; [reflexivity|].
  now rewrite nth_error_map, nth_error_seq_lt by assumption.
Qed.

(** Inside a rectangular grid the lookup reads the stored cell. *)
Lemma lookupCell_inside (g : list (list R)) (w : nat) (xi yi : Z) (neutral : R)
    (row : list R) (v : R) :
  (forall r, In r g -> List.length r = w) ->
  (0 <= yi)%Z -> (0 <= xi)%Z ->
  nth_error g (Z.to_nat yi) = Some row ->
  nth_error row (Z.to_nat xi) = Some v ->
  lookupCell g xi yi neutral = Some v.
Proof.
  intros Hrect Hy Hx Hrow Hv. unfold lookupCell.
  assert (Hylen : (Z.to_nat yi < List.length g)%nat)
    by (apply nth_error_Some; congruence).
  assert (Hxlen : (Z.to_nat xi < List.length row)%nat)
    by (apply nth_error_Some; congruence).
  destruct (Z.ltb_spec yi 0) as [|_]; [lia|].
  destruct (Z.geb_spec yi (Z.of_nat (List.length g))) as [|_]; [lia|].
  destruct (Z.ltb_spec xi 0) as [|_]; [lia|].
  destruct (elemAt_in_range g 0 ltac:(lia)) as [row0 [-> Hin0]]. simpl.
  rewrite (Hrect _ Hin0), <- (Hrect row (nth_error_In _ _ Hrow)).
  destruct (Z.geb_spec xi (Z.of_nat (List.length row))) as [|_]; [lia|].
  unfold elemAt.
  destruct (Z.ltb_spec yi 0) as [|_]; [lia|]. rewrite Hrow. simpl.
  destruct (Z.ltb_spec xi 0) as [|_]; [lia|]. exact Hv.
Qed.

(** A coordinate lies within half a cell of the centre of its cell. *)
Lemma cellCentre_near (v extent resolution : R) :
  0 < resolution -> (0 <= cellIndex v extent resolution)%Z ->
  let centre := cellCentre (Z.to_nat (cellIndex v extent resolution))
                  resolution extent in
  centre - resolution / 2 <= v < centre + resolution / 2.
Proof.
  intros Hres Hi. cbv zeta. unfold cellCentre.
  rewrite INR_IZR_INZ, Z2Nat.id by assumption.
  unfold cellIndex in *.
  pose proof (Zfloor_bound ((v + extent / 2) / resolution)) as [Hlo Hhi].
  set (q := (v + extent / 2) / resolution) in *.
  assert (Hq : q * resolution = v + extent / 2) by (unfold q; field; lra).
  set (i := IZR (Zfloor q)) in *. nra.
Qed.

(** X4: inside the grid, the lookup on a generated control surface gives the
    control computed at the centre of the cell of the coordinate, and (for a
    positive resolution) that centre is within half a cell of the
    coordinate. *)
Theorem getPitchControlAt_generated_cell (team opp : list Player) (b : Point)
    (opts : GridOptions) (x y : R) :
  let cs := generatePitchControlSurface team opp b opts in
  let xi := cellIndex x (pitchLength cs) (resolution cs) in
  let yi := cellIndex y (pitchWidth cs) (resolution cs) in
  let cx := cellCentre (Z.to_nat xi) (resolution cs) (pitchLength cs) in
  let cy := cellCentre (Z.to_nat yi) (resolution cs) (pitchWidth cs) in
  (0 <= xi < gridWidth cs)%Z -> (0 <= yi < gridHeight cs)%Z ->
  getPitchControlAt cs x y = Some (pitchControlAtPoint cx cy team opp b) /\
  (0 < resolution cs ->
   cx - resolution cs / 2 <= x < cx + resolution cs / 2 /\
   cy - resolution cs / 2 <= y < cy + resolution cs / 2).
Proof.
  intros cs xi yi cx cy Hx Hy. split.
  - destruct (buildGrid_nth_error (gridWidth cs) (gridHeight cs)
                (fun yi xi =>
                   pitchControlAtPoint
                     (cellCentre xi (resolution cs) (pitchLength cs))
                     (cellCentre yi (resolution cs) (pitchWidth cs)) team opp b)
                (Z.to_nat yi) (Z.to_nat xi) ltac:(lia) ltac:(lia))
      as (row & Hrow & Hcell).
    unfold getPitchControlAt. fold xi yi.
    eapply lookupCell_inside with (w := Z.to_nat (gridWidth cs)) (row := row);
      try exact Hrow; try exact Hcell; try apply Hy; try apply Hx.
    apply (proj2 (controlSurface_rows team opp b opts)).
  - intros Hres. split; apply cellCentre_near; assumption || lia.
Qed.

Lemma Zceil_default_width : Zceil (105 / 2) = 53%Z.
Proof. apply Zceil_eq. simpl. lra. Qed.

Lemma Zceil_default_height : Zceil (68 / 2) = 34%Z.
Proof. apply Zceil_eq. simpl. lra. Qed.

Lemma getPitchControlAt_generated_cell_witness :
  getPitchControlAt
    (generatePitchControlSurface [centreCarrier] [] (mkPoint 0 0) noOptions) 0 0
  = Some (pitchControlAtPoint (cellCentre 26 2 105) (cellCentre 17 2 68)
            [centreCarrier] [] (mkPoint 0 0)).
Proof.
  assert (Hx : cellIndex 0 105 2 = 26%Z)
    by (unfold cellIndex; apply Zfloor_eq; simpl; lra).
  assert (Hy : cellIndex 0 68 2 = 17%Z)
    by (unfold cellIndex; apply Zfloor_eq; simpl; lra).
  pose proof (getPitchControlAt_generated_cell [centreCarrier] [] (mkPoint 0 0)
                noOptions 0 0) as H.
  cbv zeta in H.
  cbn [generatePitchControlSurface pitchLength pitchWidth resolution gridWidth
       gridHeight default optPitchLength optPitchWidth optResolution noOptions] in H.
  rewrite Hx, Hy, Zceil_default_width, Zceil_default_height in H.
  apply H; lia.
Defined.

End SurfaceCells.

Section ValueSurface.
Import PitchControl EpvModel.

Lemma fold_Rmax_bounds (l : list R) (a : R) :
  a <= fold_left Rmax l a /\ Forall (fun v => v <= fold_left Rmax l a) l.
Proof.
  revert a. induction l as [|v l IH]; intros a; simpl.
  - split; [lra|constructor].
  - destruct (IH (Rmax a v)) as [Hacc Hall].
    pose proof (Rmax_l a v). pose proof (Rmax_r a v).
    split; [lra|]. constructor; [lra|assumption].
Qed.

Lemma fold_Rmin_bounds (l : list R) (a : R) :
  fold_left Rmin l a <= a /\ Forall (fun v => fold_left Rmin l a <= v) l.
Proof.
  revert a. induction l as [|v l IH]; intros a; simpl.
  - split; [lra|constructor].
  - destruct (IH (Rmin a v)) as [Hacc Hall].
    pose proof (Rmin_l a v). pose proof (Rmin_r a v).
    split; [lra|]. constructor; [lra|assumption].
Qed.

(** X5: the running extrema of a generated value surface bracket every cell
    of its grid; the maximum is never below its start -1 and the minimum
    never above its start 1. *)
Theorem generateEPVSurface_extrema (gs : GameState) (opts : GridOptions) :
  let vs := generateEPVSurface gs opts in
  -1 <= maxEPV vs /\ minEPV vs <= 1 /\
  Forall (Forall (fun v => minEPV vs <= v <= maxEPV vs)) (egrid vs).
Proof.
  cbv zeta. unfold generateEPVSurface. cbv zeta. cbn [maxEPV minEPV egrid].
  match goal with
  | |- context [fold_left Rmax (List.concat ?g) (-1)] => set (cells := g)
  end.
  destruct (fold_Rmax_bounds (List.concat cells) (-1)) as [Hmax Hmaxall].
  destruct (fold_Rmin_bounds (List.concat cells) 1) as [Hmin Hminall].
  repeat split; try assumption.
  rewrite Forall_forall in Hmaxall, Hminall.
  apply Forall_forall. intros row Hrow. apply Forall_forall. intros v Hv.
  assert (Hin : In v (List.concat cells))
    by (apply in_concat; exists row; split; assumption).
  split; [now apply Hminall|now apply Hmaxall].
Qed.

(** The control cell that the value generator reads is the control computed
    at the same cell centre. *)
Lemma controlCell_read (team opp : list Player) (b : Point) (opts : GridOptions)
    (yi xi : nat) :
  let cs := generatePitchControlSurface team opp b opts in
  (yi < Z.to_nat (gridHeight cs))%nat -> (xi < Z.to_nat (gridWidth cs))%nat ->
  cellOf (grid cs) yi xi =
  pitchControlAtPoint (cellCentre xi (resolution cs) (pitchLength cs))
    (cellCentre yi (resolution cs) (pitchWidth cs)) team opp b.
Proof.
  intros cs Hy Hx. unfold cellOf.
  destruct (buildGrid_nth_error (gridWidth cs) (gridHeight cs)
              (fun yi xi =>
                 pitchControlAtPoint
                   (cellCentre xi (resolution cs) (pitchLength cs))
                   (cellCentre yi (resolution cs) (pitchWidth cs)) team opp b)
              yi xi Hy Hx) as (row & Hrow & Hcell).
  change (grid cs) with
    (buildGrid (gridWidth cs) (gridHeight cs)
       (fun yi xi =>
          pitchControlAtPoint
            (cellCentre xi (resolution cs) (pitchLength cs))
            (cellCentre yi (resolution cs) (pitchWidth cs)) team opp b)).
  rewrite (nth_error_nth _ _ [] Hrow). now apply nth_error_nth.
Qed.

(** X6: with the default grid (105 m by 68 m, 2 m cells, 53 by 34 cells) the
    lookup on the generated value surface agrees with the direct evaluation
    at the centre of the cell: the surface stores the product unclamped, and
    at a cell centre the clamp of [calculateEPV] changes nothing. *)
Theorem getEPVAt_agrees_with_calculateEPV (gs : GameState) (x y : R) :
  let vs := generateEPVSurface gs noOptions in
  let xi := cellIndex x (epitchLength vs) (eresolution vs) in
  let yi := cellIndex y (epitchWidth vs) (eresolution vs) in
  egridWidth vs = 53%Z /\ egridHeight vs = 34%Z /\
  ((0 <= xi < egridWidth vs)%Z -> (0 <= yi < egridHeight vs)%Z ->
   getEPVAt vs x y =
   calculateEPV (cellCentre (Z.to_nat xi) 2 105) (cellCentre (Z.to_nat yi) 2 68)
     gs None).
Proof.
  intros vs xi yi.
  assert (Hw : egridWidth vs = 53%Z) by apply Zceil_default_width.
  assert (Hh : egridHeight vs = 34%Z) by apply Zceil_default_height.
  split; [assumption|]. split; [assumption|].
  rewrite Hw, Hh. intros Hx Hy.
  assert (Hxn : (Z.to_nat xi < 53)%nat) by lia.
  assert (Hyn : (Z.to_nat yi < 34)%nat) by lia.
  assert (Hcx : -52.5 <= cellCentre (Z.to_nat xi) 2 105 <= 52.5).
  { unfold cellCentre. pose proof (pos_INR (Z.to_nat xi)).
    assert (INR (Z.to_nat xi) <= 52).
    { replace 52 with (INR 52) by (simpl; lra). apply le_INR. lia. }
    lra. }
  assert (Hcy : -34 <= cellCentre (Z.to_nat yi) 2 68 <= 34).
  { unfold cellCentre. pose proof (pos_INR (Z.to_nat yi)).
    assert (INR (Z.to_nat yi) <= 33).
    { replace 33 with (INR 33) by (simpl; lra). apply le_INR. lia. }
    lra. }
  rewrite (calculateEPV_in_bounds _ _ gs Hcx Hcy).
  pose proof (controlCell_read (teamPlayers gs) (opponentPlayers gs) (ball gs)
                (mkGridOptions (Some 105) (Some 68) (Some 2))
                (Z.to_nat yi) (Z.to_nat xi)) as Hread.
  cbv zeta in Hread.
  cbn [generatePitchControlSurface gridWidth gridHeight resolution pitchLength
       pitchWidth default optPitchLength optPitchWidth optResolution] in Hread.
  rewrite Zceil_default_width, Zceil_default_height in Hread.
  specialize (Hread ltac:(simpl; lia) ltac:(simpl; lia)).
  destruct (buildGrid_nth_error 53 34
              (fun yi xi =>
                 progressionValue (cellCentre xi 2 105) (cellCentre yi 2 68)
                   (attackingRight gs) *
                 ((cellOf (grid (generatePitchControlSurface (teamPlayers gs)
                                   (opponentPlayers gs) (ball gs)
                                   (mkGridOptions (Some 105) (Some 68) (Some 2))))
                     yi xi - 0.5) * 2))
              (Z.to_nat yi) (Z.to_nat xi) ltac:(simpl; lia) ltac:(simpl; lia))
    as (row & Hrow & Hcell).
  rewrite <- Zceil_default_width in Hrow at 1.
  rewrite <- Zceil_default_height in Hrow at 1.
  unfold getEPVAt.
  eapply lookupCell_inside with (w := Z.to_nat (egridWidth vs)) (row := row);
    try apply Hy; try apply Hx.
  - apply (proj2 (valueSurface_rows gs noOptions)).
  - exact Hrow.
  - change (nth_error row (Z.to_nat xi) =
            Some (progressionValue (cellCentre (Z.to_nat xi) 2 105)
                    (cellCentre (Z.to_nat yi) 2 68) (attackingRight gs) *
                  ((pitchControlAtPoint (cellCentre (Z.to_nat xi) 2 105)
                      (cellCentre (Z.to_nat yi) 2 68) (teamPlayers gs)
                      (opponentPlayers gs) (ball gs) - 0.5) * 2))).
    rewrite Hcell. f_equal. cbn [generatePitchControlSurface grid default
      optPitchLength optPitchWidth optResolution] in Hread |- *.
    rewrite Hread. reflexivity.
Qed.

Lemma getEPVAt_agrees_with_calculateEPV_witness :
  getEPVAt (generateEPVSurface unopposedPitchState noOptions) 0 0 =
  calculateEPV (cellCentre 26 2 105) (cellCentre 17 2 68) unopposedPitchState None.
Proof.
  assert (Hx : cellIndex 0 105 2 = 26%Z)
    by (unfold cellIndex; apply Zfloor_eq; simpl; lra).
  assert (Hy : cellIndex 0 68 2 = 17%Z)
    by (unfold cellIndex; apply Zfloor_eq; simpl; lra).
  destruct (getEPVAt_agrees_with_calculateEPV unopposedPitchState 0 0)
    as (Hw & Hh & H).
  cbn [generateEPVSurface epitchLength epitchWidth eresolution default
       optPitchLength optPitchWidth optResolution noOptions] in H.
  rewrite Hx, Hy in H. apply H; rewrite ?Hw, ?Hh; lia.
Defined.

End ValueSurface.

(* ------------------------------------------------------------------ *)
(** * Further properties: the evaluation of a pass *)

Section PassValue.
Import PitchControl EpvModel PassEvaluator.

(** X7: the direction multiplier never decreases as the pass advances
    further along the attack axis; it stays within [0.3, 1.5] and is exactly
    1 for a pass square to the axis. *)
Theorem directionFactorOf_monotone (d1 d2 : R) :
  d1 <= d2 ->
  0.3 <= directionFactorOf d1 /\
  directionFactorOf d1 <= directionFactorOf d2 /\
  directionFactorOf d2 <= 1.5 /\
  directionFactorOf 0 = 1.
Proof.
  intros Hd. repeat split; unfold directionFactorOf, Rmin, Rmax; rcases.
Qed.

Lemma directionFactorOf_monotone_witness :
  directionFactorOf (-20) <= directionFactorOf 20.
Proof.
  apply (directionFactorOf_monotone (-20) 20 ltac:(lra)).
Defined.

Lemma directionFactorOf_range (d : R) : 0.3 <= directionFactorOf d <= 1.5.
Proof. unfold directionFactorOf, Rmin, Rmax. rcases. Qed.

Lemma calculateEPV_range (x y : R) (gs : GameState) (v : R) :
  calculateEPV x y gs None = Some v -> -1 <= v <= 1.
Proof.
  unfold calculateEPV. cbn [Js.bind]. intros [= <-]. apply clamp_range.
Qed.

(** The scan for an interceptor keeps an opponent of the list, if any. *)
Lemma scanInterceptors_member (passer : Player) (dirX dirY passDistance : R)
    (opponents : list Player) (start : Point) (o : Player) :
  fst (fst (scanInterceptors passer dirX dirY passDistance opponents start))
    = Some o -> In o opponents.
Proof.
  unfold scanInterceptors.
  assert (H : forall st,
             (forall o', fst (fst st) = Some o' -> In o' opponents) ->
             forall l, incl l opponents ->
             fst (fst (fold_left
               (fun st opponent =>
                  let '(bestInterceptor, bestInterceptTime, point) := st in
                  let toOppX := x opponent - x passer in
                  let toOppY := y opponent - y passer in
                  let projDist := toOppX * dirX + toOppY * dirY in
                  if Rlt_dec 0 projDist then
                    if Rlt_dec projDist passDistance then
                      let interceptX := x passer + projDist * dirX in
                      let interceptY := y passer + projDist * dirY in
                      let ballTime := projDist / PassEvaluator.BALL_SPEED in
                      let oppTime := timeToIntercept opponent interceptX interceptY in
                      if Rlt_dec oppTime (ballTime + 0.3) then
                        if Js.lt_inf oppTime bestInterceptTime then
                          (Some opponent, Some oppTime, mkPoint interceptX interceptY)
                        else st
                      else st
                    else st
                  else st) l st)) = Some o -> In o opponents).
  { intros st Hst l. revert st Hst.
    induction l as [|a l IH]; intros st Hst Hincl; simpl; [apply Hst|].
    apply IH; [|intros z Hz; apply Hincl; now right].
    destruct st as [[best time] point]. cbv zeta.
    repeat match goal with
           | |- context [Rlt_dec ?u ?v] => destruct (Rlt_dec u v)
           end; try exact Hst.
    destruct (Js.lt_inf _ time); [|exact Hst].
    simpl. intros o' [= <-]. apply Hincl. now left. }
  apply (H (None, None, start)); [simpl; discriminate|apply incl_refl].
Qed.

(** The closest opponent to the receiver is an opponent of the list, and
    there is one unless the list is empty. *)
Lemma closestTo_member (rcv : Player) (opponents : list Player) :
  (fst (closestTo rcv opponents) = None <-> opponents = []) /\
  forall o, fst (closestTo rcv opponents) = Some o -> In o opponents.
Proof.
  unfold closestTo.
  assert (H : forall l st,
             incl l opponents ->
             (forall o, fst st = Some o -> In o opponents) ->
             (fst st = None -> snd st = None) ->
             let r := fold_left
               (fun st opp =>
                  let '(best, minDist) := st in
                  let dist := sqrt (Js.pow2 (x opp - x rcv) +
                                    Js.pow2 (y opp - y rcv)) in
                  if Js.lt_inf dist minDist then (Some opp, Some dist) else st)
               l st in
             (forall o, fst r = Some o -> In o opponents) /\
             (fst r = None -> fst st = None /\ l = [])).
  { induction l as [|a l IH]; intros st Hincl Hst Hnone; simpl.
    - split; [assumption|]. intros Hr. split; [assumption|reflexivity].
    - destruct st as [best minDist]. cbv zeta.
      set (dist := sqrt (Js.pow2 (x a - x rcv) + Js.pow2 (y a - y rcv))).
      destruct (Js.lt_inf dist minDist) eqn:Hlt.
      + destruct (IH (Some a, Some dist)) as [Hin Hno].
        * intros z Hz. apply Hincl. now right.
        * simpl. intros o [= <-]. apply Hincl. now left.
        * simpl. discriminate.
        * split; [exact Hin|]. intros Hr. apply Hno in Hr.
          destruct Hr as [Hr _]. discriminate.
      + destruct (IH (best, minDist)) as [Hin Hno].
        * intros z Hz. apply Hincl. now right.
        * exact Hst.
        * exact Hnone.
        * split; [exact Hin|]. intros Hr. apply Hno in Hr.
          destruct Hr as [Hb _]. simpl in Hb. specialize (Hnone Hb).
          simpl in Hnone. subst. simpl in Hlt. discriminate. }
  destruct (H opponents (None, None) (incl_refl _)) as [Hin Hno];
    [simpl; discriminate|reflexivity|].
  split; [|exact Hin]. split.
  - intros Hr. now destruct (Hno Hr).
  - intros ->. reflexivity.
Qed.

Lemma calculateTurnoverEPV_facts (passer rcv : Player) (opponents : list Player)
    (gs : GameState) :
  exists t,
    calculateTurnoverEPV passer rcv opponents gs = Some t /\
    calculateEPV (px (interceptionPoint t)) (py (interceptionPoint t))
      (mkGameState (opponentPlayers gs) (teamPlayers gs) (interceptionPoint t)
         (negb (attackingRight gs))) None = Some (- turnoverEPV t) /\
    -1 <= turnoverEPV t <= 1 /\
    (interceptor t = None <-> opponents = []) /\
    (forall o, interceptor t = Some o -> In o opponents).
Proof.
  unfold calculateTurnoverEPV. cbv zeta.
  match goal with
  | |- context [scanInterceptors ?a ?b ?c ?d ?e ?f] =>
      pose proof (scanInterceptors_member a b c d e f) as Hscan;
      destruct (scanInterceptors a b c d e f) as [[scanned time] point]
  end.
  simpl in Hscan.
  destruct (closestTo_member rcv opponents) as [Hnone Hmem].
  destruct scanned as [o|].
  - match goal with
    | |- context [calculateEPV ?a ?b ?g None] =>
        destruct (calculateEPV a b g None) as [v|] eqn:Hv; [|discriminate Hv]
    end.
    pose proof (calculateEPV_range _ _ _ _ Hv) as Hr.
    eexists. split; [reflexivity|]. cbn.
    rewrite Ropp_involutive. repeat split; try lra; try exact Hv.
    + discriminate.
    + intros ->. specialize (Hscan o eq_refl). contradiction.
    + intros o' [= <-]. now apply Hscan.
  - match goal with
    | |- context [calculateEPV ?a ?b ?g None] =>
        destruct (calculateEPV a b g None) as [v|] eqn:Hv; [|discriminate Hv]
    end.
    pose proof (calculateEPV_range _ _ _ _ Hv) as Hr.
    eexists. split; [reflexivity|]. cbn.
    rewrite Ropp_involutive. repeat split; try lra; try exact Hv;
      try apply Hnone; try apply Hmem.
Qed.

(** X8: the turnover evaluation of a pass always gives a result.  Its value
    is the negated value, for the other side, of the interception point with
    the ball placed there, so it lies in [-1, 1]; the named interceptor is
    one of the opponents and is missing only when there are none. *)
Theorem calculateTurnoverEPV_result (passer rcv : Player) (opponents : list Player)
    (gs : GameState) :
  exists t,
    calculateTurnoverEPV passer rcv opponents gs = Some t /\
    calculateEPV (px (interceptionPoint t)) (py (interceptionPoint t))
      (mkGameState (opponentPlayers gs) (teamPlayers gs) (interceptionPoint t)
         (negb (attackingRight gs))) None = Some (- turnoverEPV t) /\
    -1 <= turnoverEPV t <= 1 /\
    (interceptor t = None <-> opponents = []) /\
    (forall o, interceptor t = Some o -> In o opponents).
Proof. apply calculateTurnoverEPV_facts. Qed.

(** X9: without a precomputed surface every pass gets an evaluation.  Success
    and interception probability add up to 1 and the success probability is
    at least 0.05; the unadjusted receiver value and the turnover value lie
    in [-1, 1], the adjusted receiver value and the expected value in
    [-1.5, 1.5]. *)
Theorem evaluatePass_bounds (passer rcv : Player) (gs : GameState) :
  exists e,
    evaluatePass passer rcv gs None = Some e /\
    successProbability e + interceptProbability e = 1 /\
    0.05 <= successProbability e <= 1 /\
    -1 <= rawReceiverEPV e <= 1 /\
    -1 <= evalTurnoverEPV e <= 1 /\
    -1.5 <= receiverEPV e <= 1.5 /\
    -1.5 <= expectedValue e <= 1.5.
Proof.
  unfold evaluatePass. cbv zeta.
  match goal with
  | |- context [Js.bind (calculateEPV ?a ?b ?g None) _] =>
      destruct (calculateEPV a b g None) as [raw|] eqn:Hraw; [|discriminate Hraw]
  end.
  pose proof (calculateEPV_range _ _ _ _ Hraw) as Hr.
  destruct (calculateTurnoverEPV_facts passer rcv (opponentPlayers gs) gs)
    as (t & -> & _ & Ht & _).
  cbn [Js.bind]. eexists. split; [reflexivity|]. cbn.
  pose proof (proj1 (interceptionProbability_bounds passer rcv (opponentPlayers gs)))
    as Hi.
  set (i := calculateInterceptionProbability passer rcv (opponentPlayers gs)) in *.
  match goal with
  | |- context [directionFactorOf ?d] =>
      pose proof (directionFactorOf_range d) as Hf;
      set (f := directionFactorOf d) in *
  end.
  set (tv := turnoverEPV t) in *.
  assert (Hadj : -1.5 <= raw * f <= 1.5).
  { destruct (Rle_dec 0 raw); split; nra. }
  set (adj := raw * f) in *.
  assert (Hs : -1.5 * (1 - i) <= (1 - i) * adj <= 1.5 * (1 - i)) by (split; nra).
  assert (Hl : - i <= i * tv <= i) by (split; nra).
  repeat split; lra.
Qed.

End PassValue.

(* ------------------------------------------------------------------ *)
(** * Further properties: the ranked options and the best pass *)

Section BestPass.
Import PitchControl EpvModel PassEvaluator.

Lemma insert_Permutation {A} (cmp : A -> A -> R) (a : A) (l : list A) :
  Permutation (Js.insert cmp a l) (a :: l).
Proof.
  induction l as [|b l IH]; simpl; [reflexivity|].
  destruct (Rlt_dec 0 (cmp a b)); [|reflexivity].
  rewrite IH. apply perm_swap.
Qed.

Lemma sort_Permutation {A} (cmp : A -> A -> R) (l : list A) :
  Permutation (Js.sort cmp l) l.
Proof.
  induction l as [|a l IH]; simpl; [reflexivity|].
  rewrite insert_Permutation. now constructor.
Qed.

Lemma passOptionFor_target (c : Player) (gs : GameState) (s : EPVSurface)
    (current : R) (t : Player) (o : PassOption) :
  passOptionFor c gs s current t = Some o -> target o = t.
Proof.
  unfold passOptionFor.
  destruct (evaluatePass c t gs (Some s)) as [e|]; [|discriminate].
  cbn [Js.bind]. now intros [= <-].
Qed.

Lemma mapM_targets (c : Player) (gs : GameState) (s : EPVSurface) (current : R)
    (teammates : list Player) (options : list PassOption) :
  Js.mapM (passOptionFor c gs s current) teammates = Some options ->
  map target options = teammates.
Proof.
  revert options. induction teammates as [|t ts IH]; intros options; simpl.
  - now intros [= <-].
  - destruct (passOptionFor c gs s current t) as [o|] eqn:Ho; [|discriminate].
    destruct (Js.mapM (passOptionFor c gs s current) ts) as [os|]; [|discriminate].
    cbn [Js.bind]. intros [= <-]. simpl.
    now rewrite (passOptionFor_target _ _ _ _ _ _ Ho), (IH os eq_refl).
Qed.

Lemma findPassOptions_targets (c : Player) (teammates : list Player)
    (gs : GameState) :
  exists l, findPassOptions (Some c) teammates gs = Some l /\
            Permutation (map target l) teammates.
Proof.
  destruct teammates as [|t ts]; [exists []; split; [reflexivity|constructor]|].
  destruct (findPassOptions_unfold c t ts gs) as (cur & options & _ & Hmap & _ & ->).
  eexists. split; [reflexivity|].
  rewrite <- (mapM_targets _ _ _ _ _ _ Hmap).
  apply Permutation_map, sort_Permutation.
Qed.

(** X10: with a carrier, the ranked list holds exactly one option per
    teammate: its targets are a rearrangement of the teammates, none dropped
    and none repeated.  Without a carrier the list is empty. *)
Theorem findPassOptions_ranks_every_teammate (c : Player) (teammates : list Player)
    (gs : GameState) :
  (exists l, findPassOptions (Some c) teammates gs = Some l /\
             Permutation (map target l) teammates) /\
  findPassOptions None teammates gs = Some [].
Proof. split; [apply findPassOptions_targets|reflexivity]. Qed.

Lemma descending_head_is_max (first : PassOption) (rest : list PassOption) :
  descending (first :: rest) ->
  Forall (fun o => epvAdded o <= epvAdded first) (first :: rest).
Proof.
  intros Hs. constructor; [lra|].
  apply Sorted_StronglySorted in Hs.
  - now inversion Hs.
  - intros a b c Hab Hbc. lra.
Qed.

(** X11: [getOptimalPass] always answers.  It answers [null] exactly when
    there is no carrier or no teammate; otherwise its answer is one of the
    ranked options and no ranked option has a larger value-added. *)
Theorem getOptimalPass_is_best (carrier : option Player) (teammates : list Player)
    (gs : GameState) :
  exists r,
    getOptimalPass carrier teammates gs = Some r /\
    (r = None <-> carrier = None \/ teammates = []) /\
    (forall best, r = Some best ->
       exists l, findPassOptions carrier teammates gs = Some l /\
                 In best l /\
                 Forall (fun o => epvAdded o <= epvAdded best) l).
Proof.
  unfold getOptimalPass.
  destruct carrier as [c|].
  2:{ exists None. repeat split; auto; discriminate. }
  destruct teammates as [|t ts].
  { exists None. repeat split; auto; discriminate. }
  destruct (findPassOptions_unfold c t ts gs)
    as (cur & options & _ & _ & Hlen & Hfind).
  pose proof (sort_Sorted PassOption byEpvAdded
                (fun a b => epvAdded b <= epvAdded a)
                ltac:(unfold byEpvAdded; intros; lra)
                ltac:(unfold byEpvAdded; intros; lra) options) as Hsorted.
  pose proof (sort_length PassOption byEpvAdded options) as Hsl.
  rewrite Hfind. cbn [Js.bind].
  destruct (Js.sort byEpvAdded options) as [|first rest] eqn:Hs;
    [simpl in Hsl, Hlen; lia|].
  exists (Some first). repeat split.
  - discriminate.
  - intros [H|H]; discriminate.
  - intros best [= <-]. eexists. split; [reflexivity|].
    split; [now left|]. now apply descending_head_is_max.
Qed.

(** X12: the direction label of a pass is reversed by exchanging passer and
    receiver (forward becomes backward, lateral stays lateral), and
    reversing the attack direction has the same effect as that exchange. *)
Theorem getPassDirection_reversal (p r : Player) (ar : bool) :
  (getPassDirection p r ar = forward <-> getPassDirection r p ar = backward) /\
  (getPassDirection p r ar = lateral <-> getPassDirection r p ar = lateral) /\
  getPassDirection p r (negb ar) = getPassDirection r p ar.
Proof.
  assert (Hdy : Rabs (y r - y p) = Rabs (y p - y r)) by apply Rabs_minus_sym.
  pose proof (Rabs_pos (y p - y r)) as Hpos.
  unfold getPassDirection. cbv zeta. rewrite Hdy.
  set (dy := Rabs (y p - y r)) in *.
  split; [|split].
  - destruct ar; rcases; split; intros H; discriminate H || reflexivity || lra.
  - destruct ar; rcases; split; intros H; discriminate H || reflexivity || lra.
  - destruct ar; reflexivity.
Qed.

Lemma round_monotone (a b : R) : a <= b -> (round a <= round b)%Z.
Proof. intros H. unfold round. apply Zfloor_le. lra. Qed.

Lemma round_near (a : R) : IZR (round a) - 0.5 <= a < IZR (round a) + 0.5.
Proof. unfold round. pose proof (Zfloor_bound (a + 0.5)). lra. Qed.

Lemma formatSuccessProbability_percent (p : R) :
  percent (formatSuccessProbability p) = round (p * 100).
Proof.
  unfold formatSuccessProbability. cbv zeta.
  repeat match goal with
         | |- context [(?a >=? ?b)%Z] => destruct (a >=? b)%Z
         end; reflexivity.
Qed.

(** X13: the displayed success percentage is the probability times 100
    rounded to the nearest integer (within 0.5, between 0 and 100 for a
    probability); the percentage and the level never go down when the
    probability goes up. *)
Theorem formatSuccessProbability_monotone (p1 p2 : R) :
  p1 <= p2 ->
  (percent (formatSuccessProbability p1) <= percent (formatSuccessProbability p2))%Z /\
  (levelRank (level (formatSuccessProbability p1)) <=
   levelRank (level (formatSuccessProbability p2)))%nat /\
  IZR (percent (formatSuccessProbability p1)) - 0.5 <= p1 * 100
    < IZR (percent (formatSuccessProbability p1)) + 0.5 /\
  (0 <= p1 <= 1 -> (0 <= percent (formatSuccessProbability p1) <= 100)%Z).
Proof.
  intros Hp.
  assert (Hm : (round (p1 * 100) <= round (p2 * 100))%Z)
    by (apply round_monotone; lra).
  rewrite !formatSuccessProbability_percent.
  split; [exact Hm|]. split; [|split].
  - unfold formatSuccessProbability. cbv zeta.
    repeat match goal with
           | |- context [(?a >=? ?b)%Z] => destruct (Z.geb_spec a b)
           end; simpl; lia.
  - apply round_near.
  - intros [H0 H1]. pose proof (round_near (p1 * 100)) as Hn.
    split.
    + apply le_IZR. apply Rnot_lt_le. intros Hneg.
      assert (IZR (round (p1 * 100)) <= -1).
      { apply IZR_le. apply lt_IZR in Hneg. lia. }
      lra.
    + apply le_IZR. apply Rnot_lt_le. intros Hbig.
      assert (101 <= IZR (round (p1 * 100))).
      { apply IZR_le. apply lt_IZR in Hbig. lia. }
      lra.
Qed.

Lemma formatSuccessProbability_monotone_witness :
  (percent (formatSuccessProbability 0.2) <= percent (formatSuccessProbability 0.9))%Z.
Proof.
  apply (formatSuccessProbability_monotone 0.2 0.9 ltac:(lra)).
Defined.

End BestPass.

(* ------------------------------------------------------------------ *)
(** * Further properties: pressure on the carrier and the ball drive *)

Section Pressure.
Import PitchControl EpvModel BallDriveModel.

(** One step of the scan of [calculatePressure]. *)
Lemma scanOpponents_snoc (c : Player) (l : list Player) (a : Player) :
  scanOpponents c (l ++ [a]) =
  (let '(closestDist, closestOpponent, inRadius, inHigh) := scanOpponents c l in
   let dist := distanceFrom c a in
   let '(closestDist, closestOpponent) :=
     if Js.lt_inf dist closestDist then (Some dist, Some a)
     else (closestDist, closestOpponent) in
   let inRadius := if Rlt_dec dist PRESSURE_RADIUS then S inRadius else inRadius in
   let inHigh := if Rlt_dec dist HIGH_PRESSURE_RADIUS then S inHigh else inHigh in
   (closestDist, closestOpponent, inRadius, inHigh)).
Proof. unfold scanOpponents. now rewrite fold_left_app. Qed.

(** What the scan has found after the whole list: the minimum distance with
    an opponent at that distance, and the two counts. *)
Lemma scanOpponents_invariant (c : Player) (l : list Player) :
  let '(closestDist, closestOpponent, inRadius, inHigh) := scanOpponents c l in
  (closestDist = None -> l = [] /\ closestOpponent = None) /\
  (forall m, closestDist = Some m ->
     (exists o, closestOpponent = Some o /\ In o l /\ distanceFrom c o = m) /\
     Forall (fun o => m <= distanceFrom c o) l) /\
  ((0 < inHigh)%nat <->
   exists o, In o l /\ distanceFrom c o < HIGH_PRESSURE_RADIUS) /\
  (inRadius <= List.length l)%nat.
Proof.
  induction l as [|a l IH] using rev_ind.
  - simpl. repeat split; try discriminate; try lia.
    + intros [o [[] _]].
  - rewrite scanOpponents_snoc.
    destruct (scanOpponents c l) as [[[cd co] inRadius] inHigh].
    destruct IH as (Hnone & Hsome & Hhigh & Hrad).
    cbv zeta. set (dist := distanceFrom c a).
    assert (Hcount : ((if Rlt_dec dist PRESSURE_RADIUS then S inRadius else inRadius)
                      <= List.length (l ++ [a]))%nat).
    { rewrite length_app. simpl. destruct (Rlt_dec dist PRESSURE_RADIUS); lia. }
    assert (Hhigh' : (0 < (if Rlt_dec dist HIGH_PRESSURE_RADIUS then S inHigh
                           else inHigh))%nat
                     <-> exists o, In o (l ++ [a]) /\
                                   distanceFrom c o < HIGH_PRESSURE_RADIUS).
    { destruct (Rlt_dec dist HIGH_PRESSURE_RADIUS) as [Hlt|Hge].
      - split; [|lia]. intros _. exists a. split; [|exact Hlt].
        apply in_or_app. right. now left.
      - rewrite Hhigh. split.
        + intros [o [Hin Ho]]. exists o. split; [|exact Ho].
          apply in_or_app. now left.
        + intros [o [Hin Ho]]. apply in_app_or in Hin.
          destruct Hin as [Hin|[<-|[]]]; [now exists o|contradiction]. }
    destruct (Js.lt_inf dist cd) eqn:Hlt.
    + split; [discriminate|]. split; [|split; [exact Hhigh'|exact Hcount]].
      intros m' [= <-]. split.
      * exists a. split; [reflexivity|]. split; [|reflexivity].
        apply in_or_app. right. now left.
      * apply Forall_app. split.
        -- destruct cd as [m0|].
           ++ destruct (Hsome m0 eq_refl) as [_ Hall].
              simpl in Hlt. destruct (Rlt_dec dist m0); [|discriminate].
              eapply Forall_impl; [|exact Hall]. intros o Ho. simpl in Ho. lra.
           ++ destruct (Hnone eq_refl) as [-> _]. constructor.
        -- constructor; [unfold dist; lra|constructor].
    + destruct cd as [m0|]; [|simpl in Hlt; discriminate].
      simpl in Hlt. destruct (Rlt_dec dist m0); [discriminate|].
      destruct (Hsome m0 eq_refl) as [(o & Hco & Hin & Hdo) Hall].
      split; [discriminate|]. split; [|split; [exact Hhigh'|exact Hcount]].
      intros m' [= <-]. split.
      * exists o. split; [assumption|]. split; [|assumption].
        apply in_or_app. now left.
      * apply Forall_app. split; [assumption|].
        constructor; [fold dist; lra|constructor].
Qed.

Lemma pressureScore_bounds (c : Player) (opponents : list Player) :
  0 <= pressureScore (calculatePressure c opponents) <= 1.
Proof.
  unfold calculatePressure.
  destruct (scanOpponents c opponents) as [[[cd co] inRadius] inHigh].
  cbn [pressureScore]. split; [|apply Rmin_l].
  apply Rmin_glb; [lra|].
  destruct cd as [m|]; [|lra].
  pose proof (pos_INR inHigh).
  unfold HIGH_PRESSURE_RADIUS, PRESSURE_RADIUS. rcases.
Qed.

Lemma calculatePressure_properties (c : Player) (opponents : list Player) :
  let p := calculatePressure c opponents in
  0 <= pressureScore p <= 1 /\
  (underHighPressure p = true <->
   exists o, In o opponents /\ distanceFrom c o < 1.5) /\
  (underHighPressure p = true -> 0.9 <= pressureScore p) /\
  (Forall (fun o => 6 <= distanceFrom c o) opponents -> pressureScore p = 0) /\
  (forall m, closestOpponentDistance p = Some m ->
     Forall (fun o => m <= distanceFrom c o) opponents /\
     exists o, closestOpponent p = Some o /\ In o opponents /\
               distanceFrom c o = m) /\
  (closestOpponent p = None <-> opponents = []) /\
  (opponentsNearby p <= List.length opponents)%nat.
Proof.
  cbv zeta. split; [apply pressureScore_bounds|].
  pose proof (scanOpponents_invariant c opponents) as Hinv.
  unfold calculatePressure.
  destruct (scanOpponents c opponents) as [[[cd co] inRadius] inHigh] eqn:Hscan.
  destruct Hinv as (Hnone & Hsome & Hhigh & Hrad).
  cbn [pressureScore underHighPressure closestOpponentDistance closestOpponent
       opponentsNearby].
  unfold HIGH_PRESSURE_RADIUS, PRESSURE_RADIUS in *.
  split; [|split; [|split; [|split; [|split]]]].
  - rewrite Nat.ltb_lt. exact Hhigh.
  - intros H. apply Nat.ltb_lt in H.
    destruct (proj1 Hhigh H) as (o & Hin & Ho).
    destruct cd as [m|]; [|destruct (Hnone eq_refl) as [-> _]; destruct Hin].
    destruct (Hsome m eq_refl) as [_ Hall].
    rewrite Forall_forall in Hall. specialize (Hall o Hin).
    assert (1 <= INR inHigh) by (change 1 with (INR 1); apply le_INR; lia).
    apply Rmin_glb; [lra|]. rcases.
  - intros Hfar. destruct cd as [m|].
    + destruct (Hsome m eq_refl) as [(o & _ & Hin & Ho) _].
      rewrite Forall_forall in Hfar. specialize (Hfar o Hin).
      unfold Rmin. rcases.
    + unfold Rmin. rcases.
  - intros m Hm. destruct (Hsome m Hm) as [Hex Hall]. split; assumption.
  - split.
    + intros ->. destruct cd as [m|].
      * destruct (Hsome m eq_refl) as [(o & Hco & _) _]. discriminate.
      * now destruct (Hnone eq_refl).
    + intros ->. simpl in Hscan. now injection Hscan as <- <- <- <-.
  - assumption.
Qed.

(** X14: the pressure score lies in [0, 1].  The carrier is under high
    pressure exactly when some opponent is closer than 1.5 m, and then the
    score is at least 0.9; the score is 0 when no opponent is closer than
    6 m.  The reported closest distance is the minimum of the opponents'
    distances, and a closest opponent is missing only without opponents. *)
Theorem calculatePressure_facts (c : Player) (opponents : list Player) :
  let p := calculatePressure c opponents in
  0 <= pressureScore p <= 1 /\
  (underHighPressure p = true <->
   exists o, In o opponents /\ distanceFrom c o < 1.5) /\
  (underHighPressure p = true -> 0.9 <= pressureScore p) /\
  (Forall (fun o => 6 <= distanceFrom c o) opponents -> pressureScore p = 0) /\
  (forall m, closestOpponentDistance p = Some m ->
     Forall (fun o => m <= distanceFrom c o) opponents /\
     exists o, closestOpponent p = Some o /\ In o opponents /\
               distanceFrom c o = m) /\
  (closestOpponent p = None <-> opponents = []) /\
  (opponentsNearby p <= List.length opponents)%nat.
Proof. apply calculatePressure_properties. Qed.

End Pressure.

Section BallDrive.
Import PitchControl EpvModel BallDriveModel.

Lemma driveTurnover_form (c : Player) (opponents : list Player) (t : option R) :
  driveTurnoverProbability c opponents t =
  Rmin 0.95 (Rmax 0 (1 - Rpower (1 - driveBaseRate c opponents)
                           (default t DRIVE_EVALUATION_INTERVAL /
                            DRIVE_EVALUATION_INTERVAL))).
Proof. reflexivity. Qed.

Lemma driveBaseRate_bounds (c : Player) (opponents : list Player) :
  0 <= driveBaseRate c opponents <= 0.468 /\
  (Forall (fun o => 6 <= distanceFrom c o) opponents ->
   driveBaseRate c opponents = 0).
Proof.
  destruct (calculatePressure_properties c opponents) as (Hs & _ & _ & Hfar & _).
  unfold driveBaseRate. cbv zeta.
  set (score := pressureScore (calculatePressure c opponents)) in *.
  split.
  - destruct (closestOpponent (calculatePressure c opponents)); rcases; nra.
  - intros H. rewrite (Hfar H).
    destruct (closestOpponent (calculatePressure c opponents)); rcases.
Qed.

Lemma ln_nonpos (b : R) : 0 < b <= 1 -> ln b <= 0.
Proof.
  intros [Hb0 [Hlt| ->]]; [|rewrite ln_1; lra].
  left. rewrite <- ln_1. now apply ln_increasing.
Qed.

Lemma Rpower_le_1 (b e : R) : 0 < b <= 1 -> 0 <= e -> Rpower b e <= 1.
Proof.
  intros Hb He. unfold Rpower. apply exp_le_1.
  pose proof (ln_nonpos b Hb). nra.
Qed.

Lemma Rpower_antitone (b e1 e2 : R) :
  0 < b <= 1 -> e1 <= e2 -> Rpower b e2 <= Rpower b e1.
Proof.
  intros Hb He. unfold Rpower. pose proof (ln_nonpos b Hb).
  destruct (Req_dec_T (e2 * ln b) (e1 * ln b)) as [->|Hne]; [lra|].
  left. apply exp_increasing. nra.
Qed.

(** X15: the turnover probability of a drive lies in [0, 0.95] and does not
    decrease with the drive time; over the default interval it is at most
    0.468, and it is 0 for every drive time when no opponent is closer than
    6 m. *)
Theorem driveTurnoverProbability_facts (c : Player) (opponents : list Player)
    (t1 t2 : R) :
  0 <= t1 -> t1 <= t2 ->
  0 <= driveTurnoverProbability c opponents (Some t1) /\
  driveTurnoverProbability c opponents (Some t1) <=
  driveTurnoverProbability c opponents (Some t2) /\
  driveTurnoverProbability c opponents (Some t2) <= 0.95 /\
  driveTurnoverProbability c opponents None <= 0.468 /\
  (Forall (fun o => 6 <= distanceFrom c o) opponents ->
   driveTurnoverProbability c opponents (Some t1) = 0).
Proof.
  intros Ht1 Ht12.
  destruct (driveBaseRate_bounds c opponents) as [Hb Hfar].
  rewrite !driveTurnover_form. cbn [default]. unfold DRIVE_EVALUATION_INTERVAL.
  set (b := driveBaseRate c opponents) in *.
  assert (Hbase : 0 < 1 - b <= 1) by lra.
  pose proof (Rpower_antitone (1 - b) (t1 / 0.25) (t2 / 0.25) Hbase ltac:(lra))
    as Hpow.
  split; [apply Rmin_glb; [lra|apply Rmax_l]|].
  split; [|split; [apply Rmin_l|split]].
  - apply Rle_min_compat_l. apply Rle_max_compat_l. lra.
  - replace (0.25 / 0.25) with 1 by lra. rewrite Rpower_1 by lra.
    eapply Rle_trans; [apply Rmin_r|]. apply Rmax_lub; lra.
  - intros H. rewrite (Hfar H). replace (1 - 0) with 1 by lra.
    unfold Rpower. rewrite ln_1, Rmult_0_r, exp_0.
    unfold Rmin, Rmax. rcases.
Qed.

Lemma driveTurnoverProbability_facts_witness :
  driveTurnoverProbability centreCarrier [] (Some 1) <=
  driveTurnoverProbability centreCarrier [] (Some 2).
Proof.
  apply (driveTurnoverProbability_facts centreCarrier [] 1 2 ltac:(lra) ltac:(lra)).
Defined.

Lemma driveTurnoverProbability_default_range (c : Player) (opponents : list Player) :
  0 <= driveTurnoverProbability c opponents None <= 0.95.
Proof.
  rewrite driveTurnover_form. split; [|apply Rmin_l].
  apply Rmin_glb; [lra|apply Rmax_l].
Qed.

Lemma projectDrivePosition_bounds (c : Player) :
  let q := projectDrivePosition c None noOptions in
  -52.5 <= px q <= 52.5 /\ -34 <= py q <= 34.
Proof.
  cbv zeta. unfold projectDrivePosition.
  cbn [default optPitchLength optPitchWidth noOptions px py].
  repeat split; unfold Rmax, Rmin; rcases.
Qed.

(** X16: the projected position of a drive lies on the default pitch, and it
    is the linear extrapolation of the carrier's position whenever that
    extrapolation lies on the pitch. *)
Theorem projectDrivePosition_on_pitch (c : Player) (t : R) :
  let q := projectDrivePosition c (Some t) noOptions in
  let newX := x c + Js.or_else (vx c) 0 * t in
  let newY := y c + Js.or_else (vy c) 0 * t in
  -52.5 <= px q <= 52.5 /\ -34 <= py q <= 34 /\
  (-52.5 <= newX <= 52.5 -> px q = newX) /\
  (-34 <= newY <= 34 -> py q = newY).
Proof.
  cbv zeta. unfold projectDrivePosition. cbn [default optPitchLength optPitchWidth
    noOptions px py].
  repeat split; try intros H; unfold Rmax, Rmin; rcases.
Qed.

Lemma projectDrivePosition_on_pitch_witness :
  px (projectDrivePosition centreCarrier (Some 1) noOptions) = 0 /\
  py (projectDrivePosition centreCarrier (Some 1) noOptions) = 0.
Proof.
  destruct (projectDrivePosition_on_pitch centreCarrier 1) as (_ & _ & Hx & Hy).
  split.
  - rewrite Hx; simpl; lra.
  - rewrite Hy; simpl; lra.
Defined.

End BallDrive.

Section DriveDecision.
Import PitchControl EpvModel BallDriveModel.

(** X17: without a precomputed surface the drive evaluation always gives a
    result.  The drive value lies in [-1, 1] and the value added in [-2, 2];
    without a carrier the value is 0 and the turnover probability 1; with a
    carrier the turnover probability is at most 0.468, the projected
    position lies on the pitch, and with no opponent closer than 6 m the
    drive value is the value at the projected position. *)
Theorem evaluateBallDrive_bounds (carrier : option Player) (gs : GameState) :
  exists d,
    evaluateBallDrive carrier gs None = Some d /\
    -1 <= driveEPV d <= 1 /\
    -2 <= driveEpvAdded d <= 2 /\
    (carrier = None -> driveEPV d = 0 /\ turnoverProbability d = 1) /\
    (forall c, carrier = Some c ->
       0 <= turnoverProbability d <= 0.468 /\
       -52.5 <= px (projectedPosition d) <= 52.5 /\
       -34 <= py (projectedPosition d) <= 34 /\
       (Forall (fun o => 6 <= distanceFrom c o) (opponentPlayers gs) ->
        projectedEPV d = Some (driveEPV d))).
Proof.
  destruct carrier as [c|].
  2:{ eexists. split; [reflexivity|]. cbn.
      repeat split; try lra; discriminate. }
  unfold evaluateBallDrive. cbv zeta.
  match goal with
  | |- context [Js.bind (calculateEPV ?a ?b ?g None) _] =>
      destruct (calculateEPV a b g None) as [cur|] eqn:Hcur; [|discriminate Hcur]
  end.
  cbn [Js.bind].
  match goal with
  | |- context [Js.bind (calculateEPV ?a ?b ?g None) _] =>
      destruct (calculateEPV a b g None) as [proj|] eqn:Hproj; [|discriminate Hproj]
  end.
  cbn [Js.bind].
  match goal with
  | |- context [Js.bind (calculateEPV ?a ?b ?g None) _] =>
      destruct (calculateEPV a b g None) as [opp|] eqn:Hopp; [|discriminate Hopp]
  end.
  cbn [Js.bind].
  apply calculateEPV_range in Hcur, Hproj, Hopp.
  eexists. split; [reflexivity|]. cbn.
  pose proof (driveTurnoverProbability_default_range c (opponentPlayers gs)) as Ht.
  destruct (driveBaseRate_bounds c (opponentPlayers gs)) as [Hb Hfar].
  assert (Ht' : driveTurnoverProbability c (opponentPlayers gs) None <= 0.468).
  { rewrite driveTurnover_form. cbn [default]. unfold DRIVE_EVALUATION_INTERVAL.
    replace (0.25 / 0.25) with 1 by lra. rewrite Rpower_1 by lra.
    eapply Rle_trans; [apply Rmin_r|]. apply Rmax_lub; lra. }
  assert (Hzero : Forall (fun o => 6 <= distanceFrom c o) (opponentPlayers gs) ->
                  driveTurnoverProbability c (opponentPlayers gs) None = 0).
  { intros H. rewrite driveTurnover_form, (Hfar H). cbn [default].
    replace (1 - 0) with 1 by lra.
    unfold Rpower. rewrite ln_1, Rmult_0_r, exp_0.
    unfold Rmin, Rmax. rcases. }
  set (t := driveTurnoverProbability c (opponentPlayers gs) None) in *.
  assert (Hd : -1 <= (1 - t) * proj + t * - opp <= 1) by (split; nra).
  split; [exact Hd|]. split; [lra|]. split; [discriminate|].
  intros c' [= <-].
  split; [lra|].
  pose proof (projectDrivePosition_bounds c) as Hp.
  split; [apply Hp|]. split; [apply Hp|].
  intros H. rewrite (Hzero H). f_equal. lra.
Qed.

End DriveDecision.

Section DriveOrPass.
Import PitchControl EpvModel PassEvaluator BallDriveModel.

Lemma or_else_value (v : R) : Js.or_else (Some v) 0 = v.
Proof. simpl. destruct (Req_dec_T v 0); lra. Qed.

(** The first of the passes sorted by expected value is a largest one. *)
Lemma sortedPasses_head (opts : list PassOption) :
  match Js.sort (fun a b => optionValue b - optionValue a) opts with
  | [] => opts = []
  | best :: _ => In best opts /\
                 Forall (fun o => optionValue o <= optionValue best) opts
  end.
Proof.
  pose proof (sort_Sorted PassOption (fun a b => optionValue b - optionValue a)
                (fun a b => optionValue b <= optionValue a)
                ltac:(intros; lra) ltac:(intros; lra) opts) as Hsorted.
  pose proof (sort_Permutation (fun a b => optionValue b - optionValue a) opts)
    as Hperm.
  destruct (Js.sort _ opts) as [|best rest].
  - now apply Permutation_nil.
  - split.
    + eapply Permutation_in; [exact Hperm|now left].
    + eapply Permutation_Forall; [exact Hperm|].
      constructor; [lra|].
      apply Sorted_StronglySorted in Hsorted.
      * now inversion Hsorted.
      * intros a b c Hab Hbc. lra.
Qed.

(** X18: comparing a drive with the pass options recommends the pass exactly
    when some option's expected value exceeds the drive value, and exactly
    then [shouldPass] is true; [shouldPass] is undefined when there is no
    option.  The reported best pass value is not below any option's expected
    value, and the reported difference is the drive value minus it. *)
Theorem compareDriveWithPasses_recommendation (d : DriveEvaluation)
    (opts : list PassOption) :
  let r := compareDriveWithPasses d opts in
  (recommendedAction r = passAction <->
   exists o, In o opts /\ driveEPV d < optionValue o) /\
  (recommendedAction r = passAction <-> shouldPass r = Some true) /\
  (shouldPass r = None <-> opts = []) /\
  Forall (fun o => optionValue o <= bestPassEPV r) opts /\
  epvDifference r = driveEPV d - bestPassEPV r.
Proof.
  cbv zeta. unfold compareDriveWithPasses. cbv zeta.
  pose proof (sortedPasses_head opts) as Hhead.
  destruct (Js.sort (fun a b => optionValue b - optionValue a) opts)
    as [|best rest].
  - subst opts. cbn. repeat split; try discriminate; try constructor.
    intros [o [[] _]].
  - destruct Hhead as [Hin Hmax]. rewrite Forall_forall in Hmax.
    cbn [hd_error option_map Js.sort Js.insert actionEpv].
    rewrite or_else_value.
    destruct (Rlt_dec 0 (optionValue best - driveEPV d)) as [Hgt|Hle];
      cbn [recommendedAction shouldPass bestPassEPV epvDifference actionType];
      destruct (Rlt_dec (driveEPV d) (optionValue best)) as [Hlt|Hge]; try lra.
    + split; [|split; [|split; [|split]]].
      * split; [intros _; exists best; split; assumption|reflexivity].
      * split; reflexivity.
      * split; [discriminate|]. intros ->. destruct Hin.
      * apply Forall_forall. exact Hmax.
      * reflexivity.
    + split; [|split; [|split; [|split]]].
      * split; [discriminate|].
        intros (o & Ho & Hv). specialize (Hmax o Ho). lra.
      * split; discriminate.
      * split; [discriminate|]. intros ->. destruct Hin.
      * apply Forall_forall. exact Hmax.
      * reflexivity.
Qed.

End DriveOrPass.

(* ------------------------------------------------------------------ *)
(** * Further properties: action likelihood and the decomposed value *)

Section ActionChoice.
Import PitchControl EpvModel BallDriveModel ActionModel.

Lemma or_else_nonzero (v d : R) : v <> 0 -> Js.or_else (Some v) d = v.
Proof. intros Hv. simpl. now destruct (Req_dec_T v 0). Qed.

(** The normalisation of [getActionProbabilities] divides by 1 unless the
    pass floor of 0.15 is active. *)
Lemma actionProbabilities_normalised (c : Player) (gs : GameState) :
  let s := shotProbability c gs in
  let d := driveProbability c gs in
  let n := Rmax 1 (s + d + 0.15) in
  let p := getActionProbabilities (Some c) gs in
  shot p = s / n /\ drive p = d / n /\ pass p = Rmax 0.15 (1 - s - d) / n /\
  1 <= n <= 1.85.
Proof.
  cbv zeta. unfold getActionProbabilities. cbv zeta. cbn [shot drive pass].
  pose proof (shotProbability_range c gs) as Hs.
  pose proof (driveProbability_range c gs) as Hd.
  set (s := shotProbability c gs) in *. set (d := driveProbability c gs) in *.
  assert (Hn : s + d + Rmax 0.15 (1 - s - d) = Rmax 1 (s + d + 0.15))
    by (unfold Rmax; rcases).
  rewrite Hn. repeat split; unfold Rmax; rcases.
Qed.

(** X19: with a carrier, each returned probability is the unnormalised one
    divided by max(1, shot + drive + 0.15), so the three are returned
    unchanged unless the pass floor is active; the shot probability lies in
    (0.005, 0.9], the drive probability in (0.05, 0.8] and the pass
    probability in (0.08, 0.89].  The separate [passProbability], with its
    floor of 0.2, lies in [0.2, 0.89]. *)
Theorem getActionProbabilities_ranges (c : Player) (gs : GameState) :
  let s := shotProbability c gs in
  let d := driveProbability c gs in
  let n := Rmax 1 (s + d + 0.15) in
  let p := getActionProbabilities (Some c) gs in
  shot p = s / n /\ drive p = d / n /\ pass p = Rmax 0.15 (1 - s - d) / n /\
  0.005 < shot p <= 0.9 /\ 0.05 < drive p <= 0.8 /\ 0.08 < pass p <= 0.89 /\
  0.2 <= passProbability c gs <= 0.89.
Proof.
  cbv zeta.
  assert (Hpass : 0.2 <= passProbability c gs <= 0.89).
  { unfold passProbability. cbv zeta.
    pose proof (shotProbability_range c gs). pose proof (driveProbability_range c gs).
    unfold Rmax. rcases. }
  destruct (actionProbabilities_normalised c gs) as (Hs & Hd & Hp & Hn).
  cbv zeta in Hs, Hd, Hp, Hn.
  pose proof (shotProbability_range c gs) as Hsr.
  pose proof (driveProbability_range c gs) as Hdr.
  rewrite Hs, Hd, Hp.
  set (s := shotProbability c gs) in *. set (d := driveProbability c gs) in *.
  set (n := Rmax 1 (s + d + 0.15)) in *.
  assert (Hp0 : 0.15 <= Rmax 0.15 (1 - s - d) <= 0.89) by (unfold Rmax; rcases).
  set (q := Rmax 0.15 (1 - s - d)) in *.
  assert (Hdiv : forall v, 0 < v -> v / 1.85 <= v / n <= v).
  { intros v Hv. unfold Rdiv. split.
    - apply Rmult_le_compat_l; [lra|]. apply Rinv_le_contravar; lra.
    - rewrite <- (Rmult_1_r v) at 2. apply Rmult_le_compat_l; [lra|].
      rewrite <- Rinv_1. apply Rinv_le_contravar; lra. }
  pose proof (Hdiv s ltac:(lra)). pose proof (Hdiv d ltac:(lra)).
  pose proof (Hdiv q ltac:(lra)).
  repeat split; try reflexivity; lra.
Qed.

Lemma actionProbabilities_positive (carrier : option Player) (gs : GameState) :
  let p := getActionProbabilities carrier gs in
  0 < pass p /\ 0 < drive p /\ 0 < shot p /\ pass p + drive p + shot p = 1.
Proof.
  destruct carrier as [c|]; cbv zeta.
  - destruct (actionProbabilities_normalised c gs) as (Hs & Hd & Hp & Hn).
    cbv zeta in Hs, Hd, Hp, Hn.
    pose proof (shotProbability_range c gs) as Hsr.
    pose proof (driveProbability_range c gs) as Hdr.
    rewrite Hs, Hd, Hp.
    set (s := shotProbability c gs) in *. set (d := driveProbability c gs) in *.
    assert (Hq : Rmax 0.15 (1 - s - d) + d + s = Rmax 1 (s + d + 0.15))
      by (unfold Rmax; rcases).
    set (n := Rmax 1 (s + d + 0.15)) in *.
    pose proof (Rmax_l 0.15 (1 - s - d)) as Hq0.
    set (q := Rmax 0.15 (1 - s - d)) in *.
    assert (Hinv : 0 < / n) by (apply Rinv_0_lt_compat; lra).
    unfold Rdiv. repeat split; try (apply Rmult_lt_0_compat; lra).
    rewrite <- !Rmult_plus_distr_r, Hq. apply Rinv_r. lra.
  - cbn. lra.
Qed.

(** X20: the most likely action is one whose probability is the largest of
    the three; that probability is at least 1/3, and without a carrier the
    action is the pass with probability 0.6. *)
Theorem getMostLikelyAction_is_largest (carrier : option Player) (gs : GameState) :
  let r := getMostLikelyAction carrier gs in
  let p := getActionProbabilities carrier gs in
  allProbabilities r = p /\
  probability r = probabilityOf p (action r) /\
  (forall a, probabilityOf p a <= probability r) /\
  1 / 3 <= probability r /\
  (carrier = None -> action r = PASS /\ probability r = 0.6).
Proof.
  cbv zeta.
  destruct (actionProbabilities_positive carrier gs) as (Hp & Hd & Hs & Hsum).
  cbv zeta in Hp, Hd, Hs, Hsum.
  unfold getMostLikelyAction. cbv zeta.
  set (p := getActionProbabilities carrier gs) in *.
  destruct carrier as [c|].
  - cbn [entries fold_left].
    destruct (Rlt_dec 0 (shot p)) as [_|Hn]; [|lra].
    destruct (Rlt_dec (shot p) (drive p));
      [destruct (Rlt_dec (drive p) (pass p))|destruct (Rlt_dec (shot p) (pass p))];
      cbn [allProbabilities probability action probabilityOf];
      (split; [reflexivity|]); (split; [reflexivity|]);
      (split; [intros [| |]; cbn [probabilityOf]; lra|]);
      (split; [lra|discriminate]).
  - cbn [entries fold_left].
    assert (Hv : pass p = 0.6 /\ drive p = 0.35 /\ shot p = 0.05)
      by (repeat split; reflexivity).
    destruct Hv as (Hv1 & Hv2 & Hv3).
    destruct (Rlt_dec 0 (pass p)) as [_|Hn]; [|lra].
    destruct (Rlt_dec (pass p) (drive p)); [lra|].
    destruct (Rlt_dec (pass p) (shot p)); [lra|].
    cbn [allProbabilities probability action probabilityOf].
    split; [reflexivity|]. split; [reflexivity|].
    split; [intros [| |]; cbn [probabilityOf]; lra|].
    split; [lra|]. intros _. split; [reflexivity|exact Hv1].
Qed.

(** X21: fed with the probabilities of [getActionProbabilities] and any pass
    and drive values, [calculateDecomposedEPV] uses those probabilities as
    they are, and the decomposed value is their weighted mean of the pass
    value, the drive value and the carrier's shot value, hence between the
    smallest and the largest of the three. *)
Theorem calculateDecomposedEPV_weighted_mean (c : Player) (gs : GameState)
    (passValue driveValue : R) :
  let p := getActionProbabilities (Some c) gs in
  let shotValue := calculateShotValue (x c) (y c) gs in
  exists r,
    calculateDecomposedEPV (Some c) gs
      (mkDecomposeOptions (Some passValue) (Some driveValue)
         (Some (mkProbabilityOptions (Some (pass p)) (Some (drive p))
                  (Some (shot p))))) = Some r /\
    usedPass r = pass p /\ usedDrive r = drive p /\ usedShot r = shot p /\
    decomposedEPV r =
      pass p * passValue + drive p * driveValue + shot p * shotValue /\
    Rmin passValue (Rmin driveValue shotValue) <= decomposedEPV r
      <= Rmax passValue (Rmax driveValue shotValue).
Proof.
  cbv zeta.
  destruct (actionProbabilities_positive (Some c) gs) as (Hp & Hd & Hs & Hsum).
  cbv zeta in Hp, Hd, Hs, Hsum.
  set (p := getActionProbabilities (Some c) gs) in *.
  unfold calculateDecomposedEPV. cbv zeta.
  cbn [optPassBestEPV optDriveEPV optActionProbabilities optPass optDrive optShot
       default].
  match goal with
  | |- context [Js.bind (calculateEPV ?a ?b ?g None) _] =>
      destruct (calculateEPV a b g None) as [cur|] eqn:Hcur; [|discriminate Hcur]
  end.
  cbn [Js.bind]. rewrite !or_else_nonzero by lra.
  eexists. split; [reflexivity|].
  cbn [usedPass usedDrive usedShot decomposedEPV].
  repeat split.
  - set (sv := calculateShotValue (x c) (y c) gs).
    pose proof (Rmin_l passValue (Rmin driveValue sv)).
    pose proof (Rmin_r passValue (Rmin driveValue sv)).
    pose proof (Rmin_l driveValue sv). pose proof (Rmin_r driveValue sv).
    set (m := Rmin passValue (Rmin driveValue sv)) in *.
    replace m with (pass p * m + drive p * m + shot p * m)
      by (rewrite <- !Rmult_plus_distr_r, Hsum; lra).
    nra.
  - set (sv := calculateShotValue (x c) (y c) gs).
    pose proof (Rmax_l passValue (Rmax driveValue sv)).
    pose proof (Rmax_r passValue (Rmax driveValue sv)).
    pose proof (Rmax_l driveValue sv). pose proof (Rmax_r driveValue sv).
    set (m := Rmax passValue (Rmax driveValue sv)) in *.
    replace m with (pass p * m + drive p * m + shot p * m)
      by (rewrite <- !Rmult_plus_distr_r, Hsum; lra).
    nra.
Qed.

End ActionChoice.

(* ------------------------------------------------------------------ *)
(** * Further properties: the clustering and the formation lines *)

Section LineSpan.
Import DefensiveLines.
Local Open Scope Q_scope.

Variables lo hi : Q.


Lemma insert_Forall_Q (P : Q -> Prop) (a : Q) (l : list Q) :
  P a -> Forall P l -> Forall P (insert a l).
Proof.
  intros Ha. induction 1 as [|b l Hb Hl IH]; simpl.
  - now repeat constructor.
  - destruct (Qltb 0 (a - b)); repeat constructor; assumption.
Qed.

Lemma sort_Forall_Q (P : Q -> Prop) (l : list Q) :
  Forall P l -> Forall P (sort l).
Proof.
  induction 1 as [|a l Ha Hl IH]; simpl; [constructor|].
  now apply insert_Forall_Q.
Qed.

Lemma fold_Qmin_within (ps : list Q) (p : Q) :
  (within lo hi) p -> Forall (within lo hi) ps -> (within lo hi) (fold_left Qmin ps p).
Proof.
  intros Hp Hps. revert p Hp.
  induction Hps as [|a ps Ha Hps IH]; intros p Hp; simpl; [assumption|].
  apply IH. unfold within in *.
  destruct (Q.min_spec p a) as [[_ ->]|[_ ->]]; assumption.
Qed.

Lemma fold_Qmax_within (ps : list Q) (p : Q) :
  (within lo hi) p -> Forall (within lo hi) ps -> (within lo hi) (fold_left Qmax ps p).
Proof.
  intros Hp Hps. revert p Hp.
  induction Hps as [|a ps Ha Hps IH]; intros p Hp; simpl; [assumption|].
  apply IH. unfold within in *.
  destruct (Q.max_spec p a) as [[_ ->]|[_ ->]]; assumption.
Qed.

Lemma fold_Qmin_le_Qmax (ps : list Q) (p q : Q) :
  p <= q -> fold_left Qmin ps p <= fold_left Qmax ps q.
Proof.
  revert p q. induction ps as [|a ps IH]; intros p q Hpq; simpl; [assumption|].
  apply IH.
  apply Qle_trans with a; [apply Q.le_min_r|apply Q.le_max_r].
Qed.

Lemma pushAt_Forall (clusters : list (list Q)) (i : nat) (pos : Q) :
  (within lo hi) pos -> Forall (Forall (within lo hi)) clusters ->
  Forall (Forall (within lo hi)) (pushAt clusters i pos).
Proof.
  intros Hpos Hall. revert i.
  induction Hall as [|c cs Hc Hcs IH]; intros i; [destruct i; simpl; constructor|].
  destruct i as [|i]; simpl; constructor; try assumption.
  - apply Forall_app. split; [assumption|].
    constructor; [exact Hpos|constructor].
  - apply IH.
Qed.

Lemma assign_Forall (centroids positions : list Q) (k : nat) :
  Forall (within lo hi) positions ->
  Forall (Forall (within lo hi)) (assign centroids positions k).
Proof.
  intros Hps. unfold assign.
  assert (Hinit : Forall (Forall (within lo hi)) (repeat [] k)).
  { induction k; simpl; constructor; [constructor|assumption]. }
  revert Hinit. generalize (repeat (@nil Q) k) as clusters.
  induction Hps as [|p ps Hp Hps IH]; intros clusters Hc; simpl; [assumption|].
  apply IH. now apply pushAt_Forall.
Qed.

(** The sum of [n] values of the interval lies between [n * lo] and
    [n * hi]. *)
Lemma sum_within (cluster : list Q) (acc : Q) (n : nat) :
  Forall (within lo hi) cluster ->
  inject_Z (Z.of_nat n) * lo <= acc /\ acc <= inject_Z (Z.of_nat n) * hi ->
  inject_Z (Z.of_nat (n + List.length cluster)) * lo
    <= fold_left Qplus cluster acc /\
  fold_left Qplus cluster acc
    <= inject_Z (Z.of_nat (n + List.length cluster)) * hi.
Proof.
  intros Hc. revert acc n.
  induction Hc as [|a cluster [Ha1 Ha2] Hc IH]; intros acc n [H1 H2]; simpl.
  - now rewrite Nat.add_0_r.
  - replace (n + S (List.length cluster))%nat with (S n + List.length cluster)%nat
      by lia.
    apply IH.
    rewrite Nat2Z.inj_succ. unfold Z.succ. rewrite inject_Z_plus.
    change (inject_Z 1) with 1. split; Lqa.lra.
Qed.

Lemma mean_within (a : Q) (cluster : list Q) :
  Forall (within lo hi) (a :: cluster) -> (within lo hi) (mean (a :: cluster)).
Proof.
  intros Hc. unfold mean.
  pose proof (sum_within (a :: cluster) 0 0 Hc) as Hsum.
  cbn [Nat.add] in Hsum.
  assert (Hn : 0 < inject_Z (Z.of_nat (List.length (a :: cluster)))).
  { change 0 with (inject_Z 0). rewrite <- Zlt_Qlt. simpl. lia. }
  destruct Hsum as [H1 H2];
    [change (inject_Z (Z.of_nat 0)) with 0; split; Lqa.lra|].
  split.
  - apply Qle_shift_div_l; [exact Hn|]. rewrite Qmult_comm. exact H1.
  - apply Qle_shift_div_r; [exact Hn|]. rewrite Qmult_comm. exact H2.
Qed.

Lemma update_Forall (clusters : list (list Q)) (centroids : list Q) :
  Forall (Forall (within lo hi)) clusters -> Forall (within lo hi) centroids ->
  Forall (within lo hi) (update clusters centroids).
Proof.
  intros Hcl. revert centroids.
  induction Hcl as [|c cs Hc Hcs IH]; intros centroids Hce; [constructor|].
  destruct Hce as [|ce ces Hce Hces]; [constructor|].
  unfold update. simpl. constructor; [|now apply IH].
  destruct c as [|a c]; [assumption|now apply mean_within].
Qed.

Lemma iterate_Forall (fuel : nat) (positions centroids : list Q) (k : nat) :
  Forall (within lo hi) positions -> Forall (within lo hi) centroids ->
  Forall (within lo hi) (iterate fuel positions centroids k).
Proof.
  intros Hps. revert centroids.
  induction fuel as [|fuel IH]; intros centroids Hce; simpl; [assumption|].
  assert (Hnew : Forall (within lo hi) (update (assign centroids positions k) centroids))
    by (apply update_Forall; [now apply assign_Forall|assumption]).
  destruct (maxOf _) as [m|]; [|assumption].
  destruct (Qltb m (1 # 2)); [assumption|now apply IH].
Qed.

(** Three centroids of values of an interval lie in the interval. *)
Lemma kMeans1D_within (positions : list Q) :
  Forall (within lo hi) positions -> Forall (within lo hi) (kMeans1D positions 3 50).
Proof.
  intros Hps. unfold kMeans1D.
  destruct (Nat.ltb _ 3); [now apply sort_Forall_Q|].
  destruct positions as [|p ps]; [constructor|].
  apply sort_Forall_Q, iterate_Forall; [assumption|].
  inversion Hps as [|? ? Hp Hrest]; subst.
  pose proof (fold_Qmin_within ps p Hp Hrest) as [Hmin _].
  pose proof (fold_Qmax_within ps p Hp Hrest) as [_ Hmax].
  pose proof (fold_Qmin_le_Qmax ps p p (Qle_refl p)) as Hle.
  set (mn := fold_left Qmin ps p) in *. set (mx := fold_left Qmax ps p) in *.
  cbn [map seq Z.of_nat Pos.of_succ_nat Pos.succ]. unfold inject_Z.
  assert (E0 : mn + (mx - mn) * ((0 # 1) + (1 # 2)) / (3 # 1)
               == mn + (mx - mn) * (1 # 6)) by field.
  assert (E1 : mn + (mx - mn) * ((1 # 1) + (1 # 2)) / (3 # 1)
               == mn + (mx - mn) * (1 # 2)) by field.
  assert (E2 : mn + (mx - mn) * ((2 # 1) + (1 # 2)) / (3 # 1)
               == mn + (mx - mn) * (5 # 6)) by field.
  unfold within.
  apply Forall_cons; [rewrite E0; split; Lqa.lra|].
  apply Forall_cons; [rewrite E1; split; Lqa.lra|].
  apply Forall_cons; [rewrite E2; split; Lqa.lra|].
  apply Forall_nil.
Qed.

End LineSpan.

Section FormationLinesMore.
Import DefensiveLines.
Local Open Scope Q_scope.

Lemma Forall_rev_iff {A} (P : A -> Prop) (l : list A) :
  Forall P l -> Forall P (rev l).
Proof.
  intros H. apply Forall_forall. intros a Ha. apply in_rev in Ha.
  rewrite Forall_forall in H. now apply H.
Qed.

(** X22: every reported line lies within the span of the defenders: between
    two bounds that hold for every defender's [x], for both attack
    directions and for any number of defenders (at least one). *)
Theorem lines_within_defenders_span (d : Defender) (ds : list Defender)
    (attackingRight : bool) (lo hi : Q) :
  Forall (fun p => within lo hi (dx p)) (d :: ds) ->
  Forall (within lo hi) (lines (detectDefensiveLines (Some (d :: ds)) attackingRight)).
Proof.
  intros Hspan. unfold detectDefensiveLines. cbv zeta. cbn [lines].
  destruct attackingRight.
  - apply kMeans1D_within. apply Forall_map. exact Hspan.
  - apply Forall_rev_iff. apply Forall_map.
    assert (Hflip : Forall (within (- hi) (- lo))
                      (kMeans1D (map (fun p => - dx p) (d :: ds)) 3 50)).
    { apply kMeans1D_within. apply Forall_map.
      eapply Forall_impl; [|exact Hspan].
      intros p [H1 H2]. unfold within. split; Lqa.lra. }
    eapply Forall_impl; [|exact Hflip].
    intros q [H1 H2]. unfold within. split; Lqa.lra.
Qed.

Lemma lines_within_defenders_span_witness :
  Forall (within (-30 # 1) (-10 # 1))
    (lines (detectDefensiveLines (Some threeLines) false)).
Proof.
  apply (lines_within_defenders_span (defenderAt "fw" (-10))
           [defenderAt "mf" (-20); defenderAt "cb" (-30)] false (-30 # 1) (-10 # 1)).
  repeat constructor; simpl; unfold Qle; simpl; lia.
Defined.

Lemma kMeans1D_count (positions : list Q) :
  List.length (kMeans1D positions 3 50) = Nat.min 3 (List.length positions).
Proof.
  unfold kMeans1D. destruct (Nat.ltb_spec (List.length positions) 3).
  - rewrite sort_length_Q. lia.
  - destruct positions as [|p ps]; [simpl in *; lia|].
    rewrite sort_length_Q, iterate_length; [lia|].
    now rewrite length_map, length_seq.
Qed.

(** X23: for at least one defender the number of reported lines is the
    smaller of 3 and the number of defenders; the first line is always
    reported, the second is missing exactly for a single defender and the
    third exactly for one or two defenders.  Without defenders the three
    lines are 0. *)
Theorem detectDefensiveLines_line_count (d : Defender) (ds : list Defender)
    (attackingRight : bool) :
  let r := detectDefensiveLines (Some (d :: ds)) attackingRight in
  List.length (lines r) = Nat.min 3 (S (List.length ds)) /\
  firstLine r <> None /\
  (secondLine r = None <-> ds = []) /\
  (thirdLine r = None <-> (List.length ds < 2)%nat) /\
  lines (detectDefensiveLines (Some []) attackingRight) = [0; 0; 0] /\
  lines (detectDefensiveLines None attackingRight) = [0; 0; 0].
Proof.
  cbv zeta.
  assert (Hlen : List.length (lines (detectDefensiveLines (Some (d :: ds))
                                       attackingRight))
                 = Nat.min 3 (S (List.length ds))).
  { unfold detectDefensiveLines. cbv zeta. cbn [lines].
    destruct attackingRight; rewrite ?length_rev, ?length_map, kMeans1D_count,
      length_map; reflexivity. }
  split; [exact Hlen|].
  assert (Hfields : let r := detectDefensiveLines (Some (d :: ds)) attackingRight in
                    firstLine r = nth_error (lines r) 0 /\
                    secondLine r = nth_error (lines r) 1 /\
                    thirdLine r = nth_error (lines r) 2)
    by (repeat split; reflexivity).
  destruct Hfields as (-> & -> & ->).
  rewrite !nth_error_None, Hlen.
  split; [lia|].
  split; [|split; [|split; reflexivity]].
  - split; [intros H; destruct ds; [reflexivity|simpl in H; lia]|intros ->; simpl; lia].
  - split; intros H; destruct ds as [|? [|? ?]]; simpl in *; lia.
Qed.

(** Writing and reading a property of the assignments object. *)
Lemma getKey_setKey_same (obj : list (string * nat)) (k : string) (v : nat) :
  getKey (setKey obj k v) k = Some v.
Proof.
  induction obj as [|[k' v'] obj IH]; simpl.
  - now rewrite String.eqb_refl.
  - destruct (String.eqb k k') eqn:E; simpl; rewrite E; [reflexivity|exact IH].
Qed.

Lemma getKey_setKey_other (obj : list (string * nat)) (k k0 : string) (v : nat) :
  k0 <> k -> getKey (setKey obj k v) k0 = getKey obj k0.
Proof.
  intros Hne. induction obj as [|[k' v'] obj IH]; simpl.
  - destruct (String.eqb_spec k0 k); [contradiction|reflexivity].
  - destruct (String.eqb_spec k k') as [->|Hk]; simpl.
    + destruct (String.eqb_spec k0 k'); [contradiction|reflexivity].
    + destruct (String.eqb k0 k'); [reflexivity|exact IH].
Qed.

(** The nearest line is one of the lines, counted from 1. *)
Lemma nearestLine_range (ls : list Q) (playerX : Q) :
  ls <> [] -> (1 <= nearestLine ls playerX <= List.length ls)%nat.
Proof.
  intros Hne. unfold nearestLine.
  set (step := fun (st : nat * option Q * nat) (line : Q) =>
                 let '(nearestLine, minDist, i) := st in
                 let dist := Qabs (playerX - line) in
                 if lt_inf dist minDist then (S i, Some dist, S i)
                 else (nearestLine, minDist, S i)).
  assert (H : forall l n minDist i,
             (minDist = None -> l <> []) ->
             (minDist <> None -> 1 <= n <= i)%nat ->
             (1 <= fst (fst (fold_left step l (n, minDist, i)))
              <= i + List.length l)%nat).
  { induction l as [|a l IH]; intros n minDist i Hnone Hsome;
      cbn [fold_left List.length].
    - destruct minDist; [|now destruct Hnone].
      assert (1 <= n <= i)%nat by (apply Hsome; discriminate).
      cbn [fst]. lia.
    - change (step (n, minDist, i) a)
        with (if lt_inf (Qabs (playerX - a)) minDist
              then (S i, Some (Qabs (playerX - a)), S i)
              else (n, minDist, S i)).
      destruct (lt_inf (Qabs (playerX - a)) minDist) eqn:Hlt; cbv iota.
      + assert (1 <= fst (fst (fold_left step l
                    (S i, Some (Qabs (playerX - a)), S i)))
                <= S i + List.length l)%nat
          by (apply IH; [discriminate|intros; lia]).
        lia.
      + destruct minDist as [m|]; [|discriminate].
        assert (1 <= n <= i)%nat by (apply Hsome; discriminate).
        assert (1 <= fst (fst (fold_left step l (n, Some m, S i)))
                <= S i + List.length l)%nat
          by (apply IH; [discriminate|intros; lia]).
        lia. }
  specialize (H ls O None O ltac:(intros _; exact Hne)
                ltac:(intros Hc; now destruct Hc)).
  destruct (fold_left step ls (O, None, O)) as [[n' ?] ?].
  exact H.
Qed.

(** X24: every defender's key is assigned a line, and the assigned number
    lies between 1 and the number of reported lines. *)
Theorem assignments_cover_defenders (defenders : list Defender)
    (attackingRight : bool) (p : Defender) :
  In p defenders ->
  let r := detectDefensiveLines (Some defenders) attackingRight in
  exists n, getKey (assignments r) (keyOf p) = Some n /\
            (1 <= n <= List.length (lines r))%nat.
Proof.
  intros Hin. cbv zeta.
  destruct defenders as [|d ds]; [destruct Hin|].
  unfold detectDefensiveLines. cbv zeta. cbn [assignments lines].
  set (flip := fun q : Defender => if attackingRight then dx q else - dx q).
  set (ls := kMeans1D (map flip (d :: ds)) 3 50).
  assert (Hls : ls <> []).
  { intros E. pose proof (kMeans1D_count (map flip (d :: ds))) as Hc.
    fold ls in Hc. rewrite E in Hc. simpl in Hc. lia. }
  assert (Hlen : List.length (if attackingRight then ls
                              else rev (map (fun x => - x) ls))
                 = List.length ls)
    by (destruct attackingRight; rewrite ?length_rev, ?length_map; reflexivity).
  rewrite Hlen.
  assert (H : forall l obj,
             (In p l \/ exists n, getKey obj (keyOf p) = Some n /\
                                  (1 <= n <= List.length ls)%nat) ->
             exists n, getKey (fold_left (fun obj player =>
                                 setKey obj (keyOf player)
                                   (nearestLine ls (flip player))) l obj)
                         (keyOf p) = Some n /\
                       (1 <= n <= List.length ls)%nat).
  { induction l as [|a l IH]; intros obj Hor; simpl.
    - destruct Hor as [[]|H]; exact H.
    - apply IH. destruct Hor as [[<-|Hl]|(n & Hn & Hr)].
      + right. exists (nearestLine ls (flip a)).
        split; [apply getKey_setKey_same|now apply nearestLine_range].
      + now left.
      + right. destruct (String.eqb_spec (keyOf p) (keyOf a)) as [E|E].
        * rewrite E. exists (nearestLine ls (flip a)).
          split; [apply getKey_setKey_same|now apply nearestLine_range].
        * exists n. split; [now rewrite getKey_setKey_other|exact Hr]. }
  apply (H (d :: ds) []). now left.
Qed.

Lemma assignments_cover_defenders_witness :
  exists n,
    getKey (assignments (detectDefensiveLines (Some threeLines) false)) "mf"
      = Some n /\
    (1 <= n <= List.length (lines (detectDefensiveLines (Some threeLines) false)))%nat.
Proof.
  apply (assignments_cover_defenders threeLines false (defenderAt "mf" (-20))).
  simpl. right. left. reflexivity.
Defined.

End FormationLinesMore.

Section Zones.
Import DefensiveLines.
Local Open Scope Q_scope.

(** Case analysis on the rational comparisons of a goal. *)
Ltac qcases :=
  repeat match goal with
         | |- context [Qltb ?a ?b] =>
             let E := fresh "E" in
             destruct (Qltb a b) eqn:E;
             [apply Qltb_true in E|apply Qltb_false in E]
         end.

Lemma getRelativeZone_ordered (r : Lines) (attackingRight : bool)
    (x1 y1 x2 y2 : Q) :
  linesOrdered attackingRight r ->
  alongAttack attackingRight x1 <= alongAttack attackingRight x2 ->
  (zoneValue (getRelativeZone x1 y1 r attackingRight) <=
   zoneValue (getRelativeZone x2 y2 r attackingRight))%Z.
Proof.
  intros (l1 & l2 & l3 & H1 & H2 & H3 & H12 & H23) Hx.
  unfold getRelativeZone. cbv zeta. rewrite H1, H2, H3.
  unfold alongAttack in *.
  destruct attackingRight; cbn [option_map below]; qcases;
    cbn [zoneValue]; first [lia|exfalso; Lqa.lra].
Qed.

(** X25: when the three lines increase along the attack axis, the zone of a
    point and its dynamic zone multiplier never go down as the point moves
    along the attack axis, and a pass that does not retreat along the axis
    is never classed as a backward line break. *)
Theorem getRelativeZone_monotone (r : Lines) (attackingRight : bool)
    (x1 y1 x2 y2 : Q) :
  linesOrdered attackingRight r ->
  alongAttack attackingRight x1 <= alongAttack attackingRight x2 ->
  (zoneValue (getRelativeZone x1 y1 r attackingRight) <=
   zoneValue (getRelativeZone x2 y2 r attackingRight))%Z /\
  getDynamicZoneMultiplier x1 y1 r attackingRight <=
  getDynamicZoneMultiplier x2 y2 r attackingRight /\
  direction (analyzeLineBreaking x1 y1 x2 y2 r attackingRight) <> lineBackward.
Proof.
  intros Hord Hx.
  pose proof (getRelativeZone_ordered r attackingRight x1 y1 x2 y2 Hord Hx) as Hz.
  split; [exact Hz|]. split.
  { unfold getDynamicZoneMultiplier.
    destruct (getRelativeZone x1 y1 r attackingRight),
             (getRelativeZone x2 y2 r attackingRight);
      cbn [zoneValue] in Hz; try lia; unfold Qle; simpl; lia. }
  unfold analyzeLineBreaking. cbv zeta.
  set (zp := getRelativeZone x1 y1 r attackingRight) in *.
  set (zr := getRelativeZone x2 y2 r attackingRight) in *.
  destruct (Z.gtb_spec (zoneValue zr - zoneValue zp) 0);
    [cbn [direction]; discriminate|].
  destruct (Z.ltb_spec (zoneValue zr - zoneValue zp) 0); [lia|].
  cbn [direction]. discriminate.
Qed.

Lemma getRelativeZone_monotone_witness :
  (zoneValue (getRelativeZone 5 0
                (detectDefensiveLines
                   (Some [defenderAt "a" 10; defenderAt "b" 20; defenderAt "c" 30])
                   true) true) <=
   zoneValue (getRelativeZone 25 0
                (detectDefensiveLines
                   (Some [defenderAt "a" 10; defenderAt "b" 20; defenderAt "c" 30])
                   true) true))%Z.
Proof.
  assert (Hord : linesOrdered true
            (detectDefensiveLines
               (Some [defenderAt "a" 10; defenderAt "b" 20; defenderAt "c" 30]) true))
    by (apply lines_ordered_attacking_right; simpl; lia).
  assert (Hadv : alongAttack true 5 <= alongAttack true 25)
    by (unfold alongAttack, Qle; simpl; lia).
  exact (proj1 (getRelativeZone_monotone _ true 5 0 25 0 Hord Hadv)).
Defined.

(** X26: a line-breaking analysis reports between 0 and 3 broken lines, and
    [breaksLine] holds exactly for the forward direction.  Exchanging passer
    and receiver keeps the number of broken lines and exchanges forward and
    backward; the direction is lateral exactly when both are in one zone. *)
Theorem analyzeLineBreaking_reversal (px py rx ry : Q) (r : Lines)
    (attackingRight : bool) :
  let there := analyzeLineBreaking px py rx ry r attackingRight in
  let back := analyzeLineBreaking rx ry px py r attackingRight in
  (0 <= linesBroken there <= 3)%Z /\
  linesBroken back = linesBroken there /\
  (breaksLine there = true <-> direction there = lineForward) /\
  (direction there = lineForward <-> direction back = lineBackward) /\
  (direction there = lineLateral <-> direction back = lineLateral) /\
  (direction there = lineLateral <-> passerZone there = receiverZone there).
Proof.
  cbv zeta. unfold analyzeLineBreaking. cbv zeta.
  destruct (getRelativeZone px py r attackingRight),
           (getRelativeZone rx ry r attackingRight);
    cbn; repeat split; intros; try lia; try reflexivity; try discriminate.
Qed.

End Zones.

(* ------------------------------------------------------------------ *)
(** * Further properties: the frame queries *)

Section FrameQueries.
Import DataLoader.

Lemma sameKey_refl (a : option string) : sameKey a a = true.
Proof. destruct a; simpl; [apply String.eqb_refl|reflexivity]. Qed.

(** X27: the teammates of a carrier are players of the carrier's side whose
    id and jersey number both differ from the carrier's, so the carrier is
    never among them; the opponents are the players of the other side.
    Without a carrier there are no teammates and everybody is an opponent. *)
Theorem getTeammates_exclude_carrier (frame : Frame) (c : Carrier) :
  let side := match team c with
              | home => homePlayers frame
              | away => awayPlayers frame
              end in
  let other := match team c with
               | home => awayPlayers frame
               | away => homePlayers frame
               end in
  (forall p, In p (getTeammates frame (Some c)) <->
             In p side /\
             sameKey (id (player p)) (id (player (carrier c))) = false /\
             sameKey (jerseyNum (player p)) (jerseyNum (player (carrier c))) = false) /\
  ~ In (carrier c) (getTeammates frame (Some c)) /\
  getOpponents frame (Some c) = other /\
  getTeammates frame None = [] /\
  getOpponents frame None = homePlayers frame ++ awayPlayers frame.
Proof.
  cbv zeta. split; [|split; [|split; [|split]]]; try reflexivity.
  - intros p. unfold getTeammates. rewrite filter_In, andb_true_iff,
      !negb_true_iff. tauto.
  - unfold getTeammates. rewrite filter_In, andb_true_iff, !negb_true_iff.
    rewrite sameKey_refl. intros (_ & H & _). discriminate.
Qed.

(** The scan for the player closest to the ball. *)
Lemma closestToBall_snoc (b : Point) (l : list FramePlayer) (a : FramePlayer) :
  closestToBall b (l ++ [a]) =
  (if Js.lt_inf (distanceToBall b a) (snd (closestToBall b l))
   then (Some a, Some (distanceToBall b a))
   else closestToBall b l).
Proof. unfold closestToBall. now rewrite fold_left_app. Qed.

Lemma closestToBall_invariant (b : Point) (l : list FramePlayer) :
  match closestToBall b l with
  | (Some p, Some m) =>
      In p l /\ distanceToBall b p = m /\
      Forall (fun q => m <= distanceToBall b q) l
  | (None, None) => l = []
  | _ => False
  end.
Proof.
  induction l as [|a l IH] using rev_ind; [reflexivity|].
  rewrite closestToBall_snoc.
  destruct (closestToBall b l) as [[p|] [m|]]; try contradiction; cbn [snd].
  - destruct IH as (Hin & Hd & Hall). simpl.
    destruct (Rlt_dec (distanceToBall b a) m) as [Hlt|Hge].
    + split; [apply in_or_app; right; now left|]. split; [reflexivity|].
      apply Forall_app. split.
      * eapply Forall_impl; [|exact Hall]. intros q Hq. simpl in Hq. lra.
      * constructor; [lra|constructor].
    + split; [apply in_or_app; now left|]. split; [assumption|].
      apply Forall_app. split; [assumption|]. constructor; [lra|constructor].
  - subst l. simpl. split; [now left|]. split; [reflexivity|].
    constructor; [lra|constructor].
Qed.

(** The element returned by [find] is the first one that passes the test. *)
Lemma find_first {A : Type} (f : A -> bool) (l : list A) (a : A) :
  find f l = Some a ->
  exists before after,
    l = before ++ a :: after /\ Forall (fun p => f p = false) before.
Proof.
  induction l as [|b l IH]; [discriminate|]. simpl.
  destruct (f b) eqn:Hb.
  - intros [= <-]. exists [], l. split; [reflexivity|constructor].
  - intros Hfind. destruct (IH Hfind) as (before & after & -> & Hall).
    exists (b :: before), after. split; [reflexivity|now constructor].
Qed.

(** X28: [findBallCarrier] returns a player of the frame.  A marked player is
    preferred: the carrier is then the first marked player in the order home
    side, away side (every player before it is unmarked), and it is labelled
    home exactly when the home side has a marked player.  Otherwise the
    carrier is a player closest to the ball, provided it is closer than 3 m,
    labelled home exactly when a home player has its id.  [null] is returned
    exactly when no player is marked and no player is closer than 3 m. *)
Theorem findBallCarrier_facts (frame : Frame) :
  let everyone := homePlayers frame ++ awayPlayers frame in
  match findBallCarrier frame with
  | Some c =>
      In (carrier c) everyone /\
      ((isBallCarrier (carrier c) = true /\
        In (carrier c) (match team c with
                        | home => homePlayers frame
                        | away => awayPlayers frame
                        end) /\
        (exists before after,
           everyone = before ++ carrier c :: after /\
           Forall (fun p => isBallCarrier p = false) before) /\
        (team c = home <->
         exists p, In p (homePlayers frame) /\ isBallCarrier p = true)) \/
       (Forall (fun p => isBallCarrier p = false) everyone /\
        distanceToBall (frameBall frame) (carrier c) < 3 /\
        Forall (fun p => distanceToBall (frameBall frame) (carrier c)
                         <= distanceToBall (frameBall frame) p) everyone /\
        (team c = home <->
         exists p, In p (homePlayers frame) /\
                   sameKey (id (player p)) (id (player (carrier c))) = true)))
  | None =>
      Forall (fun p => isBallCarrier p = false /\
                       3 <= distanceToBall (frameBall frame) p) everyone
  end.
Proof.
  cbv zeta. unfold findBallCarrier.
  destruct (find isBallCarrier (homePlayers frame)) as [m|] eqn:Hhome.
  { destruct (find_first _ _ _ Hhome) as (before & after & Heq & Hbefore).
    apply find_some in Hhome. destruct Hhome as [Hin Hm]. cbn [carrier team].
    split; [apply in_or_app; now left|]. left.
    split; [assumption|]. split; [assumption|]. split.
    - exists before, (after ++ awayPlayers frame). split; [|assumption].
      rewrite Heq, <- app_assoc. reflexivity.
    - split; [intros _; now exists m|reflexivity]. }
  destruct (find isBallCarrier (awayPlayers frame)) as [m|] eqn:Haway.
  { destruct (find_first _ _ _ Haway) as (before & after & Heq & Hbefore).
    apply find_some in Haway. destruct Haway as [Hin Hm]. cbn [carrier team].
    split; [apply in_or_app; now right|]. left.
    split; [assumption|]. split; [assumption|]. split.
    - exists (homePlayers frame ++ before), after. split.
      + rewrite Heq, <- app_assoc. reflexivity.
      + apply Forall_app. split; [|assumption].
        apply Forall_forall. intros p Hp. now apply (find_none _ _ Hhome).
    - split; [discriminate|]. intros (p & Hp & Hmark).
      rewrite (find_none _ _ Hhome p Hp) in Hmark. discriminate. }
  assert (Hnone : Forall (fun p => isBallCarrier p = false)
                    (homePlayers frame ++ awayPlayers frame)).
  { apply Forall_app. split; apply Forall_forall; intros p Hp.
    - now apply (find_none _ _ Hhome).
    - now apply (find_none _ _ Haway). }
  pose proof (closestToBall_invariant (frameBall frame)
                (homePlayers frame ++ awayPlayers frame)) as Hinv.
  destruct (closestToBall _ _) as [[p|] [m|]]; try contradiction.
  - destruct Hinv as (Hin & Hd & Hall).
    destruct (Rlt_dec m 3) as [Hlt|Hge].
    + cbn [carrier team]. split; [assumption|]. right.
      split; [assumption|]. rewrite Hd. split; [assumption|].
      split; [assumption|].
      destruct (existsb _ (homePlayers frame)) eqn:Hex.
      * split; [intros _|reflexivity]. now apply existsb_exists in Hex.
      * split; [discriminate|]. intros Hsome.
        apply existsb_exists in Hsome. congruence.
    + rewrite Forall_forall in Hnone, Hall. apply Forall_forall.
      intros q Hq. split; [now apply Hnone|]. specialize (Hall q Hq).
      simpl in Hall. lra.
  - rewrite Hinv. constructor.
Qed.

End FrameQueries.

Section Velocities.
Import DataLoader.

Lemma addVelocity_derived (dt : R) (players prevPlayers : list FramePlayer) :
  dt <> 0 ->
  Forall2 (derivedFrom dt prevPlayers) players
    (addVelocity dt players prevPlayers).
Proof.
  intros Hdt. unfold addVelocity.
  induction players as [|p ps IH]; simpl; constructor; [|exact IH].
  unfold derivedFrom.
  change (find (fun q => sameKey (id (player q)) (id (player p)) ||
                         sameKey (jerseyNum (player q)) (jerseyNum (player p)))
               prevPlayers)
    with (find (samePlayer p) prevPlayers).
  destruct (find (samePlayer p) prevPlayers) as [q|]; cbn;
    repeat split; try reflexivity.
  - eexists. eexists. split; [reflexivity|]. split; field; assumption.
  - exists 0, 0. repeat split; reflexivity.
Qed.

Lemma deriveFrom_length (dt : R) (prev : Frame) (frames : list Frame) :
  List.length (deriveFrom dt prev frames) = List.length frames.
Proof.
  revert prev. induction frames as [|f fs IH]; intros prev; simpl;
    [reflexivity|now rewrite IH].
Qed.

Lemma deriveFrom_nth (dt : R) (first : Frame) (rest : list Frame) (i : nat)
    (prev cur : Frame) :
  nth_error (first :: rest) i = Some prev ->
  nth_error (first :: rest) (S i) = Some cur ->
  nth_error (deriveFrom dt first rest) i =
  Some (mkFrame (addVelocity dt (homePlayers cur) (homePlayers prev))
                (addVelocity dt (awayPlayers cur) (awayPlayers prev))
                (frameBall cur) (homeAttackingRight cur)).
Proof.
  revert first i. induction rest as [|f fs IH]; intros first i Hprev Hcur.
  - destruct i; simpl in Hcur; discriminate.
  - destruct i as [|i].
    + simpl in Hprev, Hcur. injection Hprev as <-. injection Hcur as <-.
      reflexivity.
    + simpl. apply IH; assumption.
Qed.

(** X29: deriving velocities keeps the frames and their players where they
    are.  Every player of the first frame gets the velocity 0; in a later
    frame (for a frame rate other than 0) a player's velocity carries the
    matching player of the frame before to the player's position in one
    frame interval, and is 0 when no player of the frame before matches. *)
Theorem deriveVelocities_facts (frames : list Frame) (fps : R) :
  let out := deriveVelocities frames (Some fps) in
  List.length out = List.length frames /\
  (forall first g, nth_error frames 0 = Some first -> nth_error out 0 = Some g ->
     Forall2 (fun p p' => x (player p') = x (player p) /\
                          y (player p') = y (player p) /\
                          velocity (player p') = Some (0, 0))
       (homePlayers first ++ awayPlayers first)
       (homePlayers g ++ awayPlayers g)) /\
  (forall i prev cur, fps <> 0 ->
     nth_error frames i = Some prev -> nth_error frames (S i) = Some cur ->
     exists g, nth_error out (S i) = Some g /\
       Forall2 (derivedFrom (1 / fps) (homePlayers prev))
         (homePlayers cur) (homePlayers g) /\
       Forall2 (derivedFrom (1 / fps) (awayPlayers prev))
         (awayPlayers cur) (awayPlayers g)).
Proof.
  cbv zeta. unfold deriveVelocities. cbn [default].
  destruct frames as [|first rest].
  - split; [reflexivity|]. split.
    + intros f g H. discriminate H.
    + intros i prev cur _ H. destruct i; discriminate H.
  - split; [simpl; now rewrite deriveFrom_length|]. split.
    + intros f g [= <-] [= <-]. cbn [homePlayers awayPlayers].
      rewrite <- map_app.
      induction (homePlayers first ++ awayPlayers first) as [|p ps IH]; simpl;
        constructor; [repeat split; reflexivity|exact IH].
    + intros i prev cur Hfps Hprev Hcur.
      assert (Hdt : 1 / fps <> 0).
      { unfold Rdiv. rewrite Rmult_1_l. now apply Rinv_neq_0_compat. }
      eexists. split.
      * cbn [nth_error]. apply (deriveFrom_nth _ _ _ _ _ _ Hprev Hcur).
      * cbn [homePlayers awayPlayers].
        split; apply addVelocity_derived; exact Hdt.
Qed.

Lemma deriveVelocities_facts_witness :
  exists g,
    nth_error (deriveVelocities twoFrames (Some 25)) 1 = Some g /\
    Forall2 (derivedFrom (1 / 25) (homePlayers (frameWith 0)))
      (homePlayers (frameWith 1)) (homePlayers g).
Proof.
  destruct (deriveVelocities_facts twoFrames 25) as (_ & _ & H).
  destruct (H O (frameWith 0) (frameWith 1) ltac:(lra) eq_refl eq_refl)
    as (g & Hg & Hhome & _).
  exists g. split; assumption.
Defined.

End Velocities.

(* ------------------------------------------------------------------ *)
(** * Further properties: the static value of a location *)

Section LocationValue.
Import PitchControl EpvModel.

Lemma getZoneMultiplier_values (x y : R) (ar : bool) :
  In (getZoneMultiplier x y ar) [0.6; 1.0; 1.1; 1.3; 1.5].
Proof.
  unfold getZoneMultiplier. cbv zeta.
  repeat match goal with
         | |- context [Rlt_dec ?a ?b] => destruct (Rlt_dec a b)
         end; simpl; auto 6.
Qed.

(** X30: the progression potential is at most 1 everywhere and lies in
    (0, 0.99] inside the pitch; the static zone multiplier is one of 0.6, 1,
    1.1, 1.3 and 1.5.  Both depend on the lateral coordinate through its
    absolute value only, and both are unchanged when the location is
    reflected in the halfway line and the attack direction is reversed. *)
Theorem location_values (x y : R) (ar : bool) :
  progressionValue x y ar <= 1 /\
  (-52.5 <= x <= 52.5 -> -34 <= y <= 34 -> 0 < progressionValue x y ar <= 0.99) /\
  In (getZoneMultiplier x y ar) [0.6; 1.0; 1.1; 1.3; 1.5] /\
  progressionValue x (- y) ar = progressionValue x y ar /\
  getZoneMultiplier x (- y) ar = getZoneMultiplier x y ar /\
  progressionValue (- x) y (negb ar) = progressionValue x y ar /\
  getZoneMultiplier (- x) y (negb ar) = getZoneMultiplier x y ar.
Proof.
  split; [unfold progressionValue; apply Rmin_l|].
  split; [apply progressionValue_in_bounds|].
  split; [apply getZoneMultiplier_values|].
  split; [unfold progressionValue; now rewrite Rabs_Ropp|].
  split; [unfold getZoneMultiplier; now rewrite Rabs_Ropp|].
  split; [apply progressionValue_mirror|].
  unfold getZoneMultiplier. destruct ar; simpl; now rewrite ?Ropp_involutive.
Qed.

Lemma location_values_witness : 0 < progressionValue 0 0 true <= 0.99.
Proof.
  apply (proj1 (proj2 (location_values 0 0 true))); lra.
Defined.

End LocationValue.
